(** * Block cache with an auxiliary hot index: a model of cache/lru_cache.cc

    The development embeds one shard of the cache (LRUCacheShard), its two
    hash tables (LRUHandleTable, CBHTable), the LRU list, the adaptive
    controller that runs inside Lookup, and the factory NewLRUCache.

    Representation choices, all of them local to this file:
    - an LRUHandle lives in a heap indexed by its address; a freed handle
      is removed from the heap;
    - the intrusive chains (next_hash, next_hash_cbht) are the lists of the
      addresses they thread, head first; the circular list threaded through
      next/prev is the list of addresses from lru_.next to lru_.prev, and a
      handle has null next/prev exactly when it is not in that list;
    - uint32_t and size_t values are integers reduced modulo 2^32 and 2^64,
      int values are reduced to the two's complement range;
    - a double is an IEEE 754 binary64 value, with its NaN and infinities,
      and products are rounded to nearest even;
    - locks are not modelled, except as events in the trace of Lookup. *)

From Stdlib Require Import ZArith Lia.
From Stdlib Require Import Floats.SpecFloat.
From stdpp Require Import base gmap list strings.

#[local] Open Scope Z_scope.

(** ** Machine integers *)

Definition wrap32 (x : Z) : Z := x mod 2 ^ 32.
Definition wrap64 (x : Z) : Z := x mod 2 ^ 64.
Definition wrap_int (x : Z) : Z := (x + 2 ^ 31) mod 2 ^ 32 - 2 ^ 31.

Definition in_int (x : Z) : Prop := - 2 ^ 31 <= x < 2 ^ 31.
Definition in_uint32 (x : Z) : Prop := 0 <= x < 2 ^ 32.

(** ** Doubles

    The pool ratio and the pool capacity are C++ doubles: binary64 values,
    here [spec_float] at precision 53 and exponent bound 1024. *)

Definition double : Type := spec_float.

(** The conversion of a size_t operand, as in [capacity_ * ratio] and in
    [high_pri_pool_usage_ > high_pri_pool_capacity_]. *)
Definition double_of_size (x : Z) : double := binary_normalize 53 1024 x 0 false.

Definition double_mul (x y : double) : double := SFmul 53 1024 x y.

(** [x < y]; false when either side is a NaN. *)
Definition double_lt (x y : double) : bool := SFltb x y.

(** The literals 0.0 and 1.0. *)
Definition double_0 : double := S754_zero false.
Definition double_1 : double := S754_finite false 4503599627370496 (-52).
Definition in_size_t (x : Z) : Prop := 0 <= x < 2 ^ 64.

(** Reading and writing a C array held as a list: a read out of range gives
    0 and a write out of range is dropped (both are undefined in the
    source). *)
Definition arr_get (a : list Z) (i : Z) : Z :=
  if i <? 0 then 0 else default 0 (a !! Z.to_nat i).

Definition arr_set (a : list Z) (i : Z) (v : Z) : list Z :=
  if i <? 0 then a else <[Z.to_nat i := v]> a.

Definition barr_get (a : list bool) (i : Z) : bool :=
  if i <? 0 then false else default false (a !! Z.to_nat i).

Definition barr_set (a : list bool) (i : Z) (v : bool) : list bool :=
  if i <? 0 then a else <[Z.to_nat i := v]> a.

(** ** Handles *)

Abbreviation ptr := nat.
Abbreviation Slice := string.

(** The helper of a secondary-cache compatible entry; only the presence of
    its saveto_cb is read by this file. *)
Record CacheItemHelper := mkHelper { saveto_cb : bool }.

(** The result handle of a secondary cache lookup. *)
Record SecondaryCacheResultHandle := mkSecHandle {
  sh_value : Z;
  sh_size : Z
}.

Inductive Priority := HIGH | LOW.

Record LRUHandle := mkLRUHandle {
  value : Z;
  helper : option CacheItemHelper;
  sec_handle : option SecondaryCacheResultHandle;
  charge : Z;
  key : Slice;
  hash : Z;
  refs : Z;
  in_cache : bool;
  is_high_pri : bool;
  in_high_pri_pool : bool;
  has_hit : bool;
  is_secondary_cache_compatible : bool;
  is_pending : bool;
  is_promoted : bool;
  is_incomplete : bool;
  indca : bool;
  DCAstamp : Z;
  DCAstamp_tc : Z
}.

Definition set_value (v : Z) (h : LRUHandle) : LRUHandle :=
  mkLRUHandle v (helper h) (sec_handle h) (charge h) (key h) (hash h) (refs h)
    (in_cache h) (is_high_pri h) (in_high_pri_pool h) (has_hit h)
    (is_secondary_cache_compatible h) (is_pending h) (is_promoted h)
    (is_incomplete h) (indca h) (DCAstamp h) (DCAstamp_tc h).

Definition set_sec_handle (v : option SecondaryCacheResultHandle) (h : LRUHandle) : LRUHandle :=
  mkLRUHandle (value h) (helper h) v (charge h) (key h) (hash h) (refs h)
    (in_cache h) (is_high_pri h) (in_high_pri_pool h) (has_hit h)
    (is_secondary_cache_compatible h) (is_pending h) (is_promoted h)
    (is_incomplete h) (indca h) (DCAstamp h) (DCAstamp_tc h).

Definition set_charge (v : Z) (h : LRUHandle) : LRUHandle :=
  mkLRUHandle (value h) (helper h) (sec_handle h) v (key h) (hash h) (refs h)
    (in_cache h) (is_high_pri h) (in_high_pri_pool h) (has_hit h)
    (is_secondary_cache_compatible h) (is_pending h) (is_promoted h)
    (is_incomplete h) (indca h) (DCAstamp h) (DCAstamp_tc h).

Definition set_refs (v : Z) (h : LRUHandle) : LRUHandle :=
  mkLRUHandle (value h) (helper h) (sec_handle h) (charge h) (key h) (hash h) v
    (in_cache h) (is_high_pri h) (in_high_pri_pool h) (has_hit h)
    (is_secondary_cache_compatible h) (is_pending h) (is_promoted h)
    (is_incomplete h) (indca h) (DCAstamp h) (DCAstamp_tc h).

Definition SetInCache (v : bool) (h : LRUHandle) : LRUHandle :=
  mkLRUHandle (value h) (helper h) (sec_handle h) (charge h) (key h) (hash h) (refs h)
    v (is_high_pri h) (in_high_pri_pool h) (has_hit h)
    (is_secondary_cache_compatible h) (is_pending h) (is_promoted h)
    (is_incomplete h) (indca h) (DCAstamp h) (DCAstamp_tc h).

Definition SetInHighPriPool (v : bool) (h : LRUHandle) : LRUHandle :=
  mkLRUHandle (value h) (helper h) (sec_handle h) (charge h) (key h) (hash h) (refs h)
    (in_cache h) (is_high_pri h) v (has_hit h)
    (is_secondary_cache_compatible h) (is_pending h) (is_promoted h)
    (is_incomplete h) (indca h) (DCAstamp h) (DCAstamp_tc h).

Definition SetHit (h : LRUHandle) : LRUHandle :=
  mkLRUHandle (value h) (helper h) (sec_handle h) (charge h) (key h) (hash h) (refs h)
    (in_cache h) (is_high_pri h) (in_high_pri_pool h) true
    (is_secondary_cache_compatible h) (is_pending h) (is_promoted h)
    (is_incomplete h) (indca h) (DCAstamp h) (DCAstamp_tc h).

Definition SetPromoted (v : bool) (h : LRUHandle) : LRUHandle :=
  mkLRUHandle (value h) (helper h) (sec_handle h) (charge h) (key h) (hash h) (refs h)
    (in_cache h) (is_high_pri h) (in_high_pri_pool h) (has_hit h)
    (is_secondary_cache_compatible h) (is_pending h) v
    (is_incomplete h) (indca h) (DCAstamp h) (DCAstamp_tc h).

Definition SetIncomplete (v : bool) (h : LRUHandle) : LRUHandle :=
  mkLRUHandle (value h) (helper h) (sec_handle h) (charge h) (key h) (hash h) (refs h)
    (in_cache h) (is_high_pri h) (in_high_pri_pool h) (has_hit h)
    (is_secondary_cache_compatible h) (is_pending h) (is_promoted h)
    v (indca h) (DCAstamp h) (DCAstamp_tc h).

Definition set_indca (v : bool) (h : LRUHandle) : LRUHandle :=
  mkLRUHandle (value h) (helper h) (sec_handle h) (charge h) (key h) (hash h) (refs h)
    (in_cache h) (is_high_pri h) (in_high_pri_pool h) (has_hit h)
    (is_secondary_cache_compatible h) (is_pending h) (is_promoted h)
    (is_incomplete h) v (DCAstamp h) (DCAstamp_tc h).

Definition set_DCAstamp (v vtc : Z) (h : LRUHandle) : LRUHandle :=
  mkLRUHandle (value h) (helper h) (sec_handle h) (charge h) (key h) (hash h) (refs h)
    (in_cache h) (is_high_pri h) (in_high_pri_pool h) (has_hit h)
    (is_secondary_cache_compatible h) (is_pending h) (is_promoted h)
    (is_incomplete h) (indca h) v vtc.

(** Modelled from the spec: the inline reference-count methods of LRUHandle,
    declared in the absent header cache/lru_cache.h. refs is the external
    reference count; Unref reports whether the last reference went away. *)
Definition Ref (h : LRUHandle) : LRUHandle := set_refs (wrap32 (refs h + 1)) h.
Definition Unref (h : LRUHandle) : LRUHandle := set_refs (wrap32 (refs h - 1)) h.
Definition HasRefs (h : LRUHandle) : bool := 0 <? refs h.

(** The test of FindPointer on one chain element: the walk goes on while
    the hash differs or the key differs. *)
Definition matches (k : Slice) (hs : Z) (h : LRUHandle) : bool :=
  bool_decide (hash h = hs) && bool_decide (key h = k).

Abbreviation Heap := (gmap ptr LRUHandle).

(** [FindPointer] on one chain: the position of the first handle with this
    hash and key, or the length of the chain (the null slot at its end).
    A chained address that is not in the heap is stepped over. *)
Fixpoint find_chain (heap : Heap) (k : Slice) (hs : Z) (chain : list ptr) : nat :=
  match chain with
  | [] => 0%nat
  | p :: rest =>
      match heap !! p with
      | Some h => if matches k hs h then 0%nat else S (find_chain heap k hs rest)
      | None => S (find_chain heap k hs rest)
      end
  end.

(** [*ptr = h] at the slot FindPointer returned: the handle at that position
    is replaced (it keeps the tail of the chain), or [h] is linked at the
    end. *)
Definition store_at (chain : list ptr) (i : nat) (p : ptr) : list ptr :=
  if decide (i < length chain)%nat then <[i := p]> chain else chain ++ [p].

(** [*ptr = result->next_hash]: the handle at the position is unlinked. *)
Definition unlink_at (chain : list ptr) (i : nat) : list ptr := delete i chain.

(** ** LRUHandleTable *)

Record LRUHandleTable := mkTable {
  length_bits_ : Z;
  list_ : list (list ptr);
  elems_ : Z;
  max_length_bits_ : Z
}.

Definition LRUHandleTable_new (max_upper_hash_bits : Z) : LRUHandleTable :=
  mkTable 4 (replicate 16 []) 0 max_upper_hash_bits.

Definition bucket_of (length_bits hs : Z) : nat :=
  Z.to_nat (Z.shiftr hs (32 - length_bits)).

Definition bucket (l : list (list ptr)) (i : nat) : list ptr := default [] (l !! i).

Definition Table_Lookup (heap : Heap) (t : LRUHandleTable) (k : Slice) (hs : Z) : option ptr :=
  let chain := bucket (list_ t) (bucket_of (length_bits_ t) hs) in
  chain !! find_chain heap k hs chain.

(** One step of the inner loop of Resize: [h] goes to the head of its new
    bucket. *)
Definition rehash_one (heap : Heap) (new_length_bits : Z)
    (new_list : list (list ptr)) (p : ptr) : list (list ptr) :=
  match heap !! p with
  | Some h =>
      let i := bucket_of new_length_bits (hash h) in
      <[i := p :: bucket new_list i]> new_list
  | None => new_list
  end.

Definition Table_Resize (heap : Heap) (t : LRUHandleTable) : LRUHandleTable :=
  if max_length_bits_ t <=? length_bits_ t then t
  else if 31 <=? length_bits_ t then t
  else
    let new_length_bits := length_bits_ t + 1 in
    let new_list :=
      foldl (rehash_one heap new_length_bits)
            (replicate (Z.to_nat (2 ^ new_length_bits)) [])
            (concat (list_ t)) in
    mkTable new_length_bits new_list (elems_ t) (max_length_bits_ t).

(** [Insert] takes the heap to read the keys of the chain, and the address
    and contents of the handle being inserted. It returns the handle it
    displaced. *)
Definition Table_Insert (heap : Heap) (t : LRUHandleTable) (p : ptr) (h : LRUHandle)
    : LRUHandleTable * option ptr :=
  let b := bucket_of (length_bits_ t) (hash h) in
  let chain := bucket (list_ t) b in
  let i := find_chain heap (key h) (hash h) chain in
  let old := chain !! i in
  let t1 := mkTable (length_bits_ t) (<[b := store_at chain i p]> (list_ t))
                    (elems_ t) (max_length_bits_ t) in
  match old with
  | Some _ => (t1, old)
  | None =>
      let t2 := mkTable (length_bits_ t1) (list_ t1) (wrap32 (elems_ t1 + 1))
                        (max_length_bits_ t1) in
      if 0 <? Z.shiftr (elems_ t2) (length_bits_ t2)
      then (Table_Resize heap t2, None)
      else (t2, None)
  end.

Definition Table_Remove (heap : Heap) (t : LRUHandleTable) (k : Slice) (hs : Z)
    : LRUHandleTable * option ptr :=
  let b := bucket_of (length_bits_ t) hs in
  let chain := bucket (list_ t) b in
  let i := find_chain heap k hs chain in
  match chain !! i with
  | Some r =>
      (mkTable (length_bits_ t) (<[b := unlink_at chain i]> (list_ t))
               (wrap32 (elems_ t - 1)) (max_length_bits_ t), Some r)
  | None => (t, None)
  end.

(** ** Process-wide tunables

    The globals that configure the auxiliary table and the adaptive
    controller. They are declared outside this file and only read here. *)
Record Tunables := mkTunables {
  CBHTturnoff : Z;
  CBHTbitlength : Z;
  threadcount : Z;
  NLIMIT : Z;
  DCAflush : Z;
  PADDING : Z;
  shardnumlimit : Z;
  numshardbits : Z
}.

Definition Shard (cfg : Tunables) (hs : Z) : Z :=
  let shard_mask_ := wrap32 (wrap32 (Z.shiftl 1 (numshardbits cfg)) - 1) in
  Z.land hs shard_mask_.

(** [GetNumShards]. *)
Definition GetNumShards (cfg : Tunables) : Z :=
  let shard_mask_ := wrap32 (wrap32 (Z.shiftl 1 (numshardbits cfg)) - 1) in
  wrap32 (shard_mask_ + 1).

(** [size_t{1} << CBHTbitlength], the number of stamps. *)
Definition aux_capacity (cfg : Tunables) : Z := 2 ^ CBHTbitlength cfg.

(** The test guarding every use of a stamp. *)
Definition stamp_ok (cfg : Tunables) (stamptmp : Z) : bool :=
  (-1 <? stamptmp) && (stamptmp <? aux_capacity cfg).

(** ** CBHTable: the auxiliary table *)

Record CBHTable := mkCBHT {
  cb_elems_ : Z;
  cb_length_bits_ : Z;
  cb_list_ : list (list ptr);
  hashkeylist : list (Slice * Z);
  DCA_ref_pool : list Z;
  stampincr : Z;
  availindex : Z
}.

Definition CBHTable_new (cfg : Tunables) : CBHTable :=
  let cap := aux_capacity cfg in
  mkCBHT 0 (CBHTbitlength cfg) (replicate (Z.to_nat cap) [])
         [] (replicate (Z.to_nat (cap * threadcount cfg + cap)) 0)
         0 (cap * threadcount cfg).

Definition cb_set_pool (pool : list Z) (t : CBHTable) : CBHTable :=
  mkCBHT (cb_elems_ t) (cb_length_bits_ t) (cb_list_ t) (hashkeylist t)
         pool (stampincr t) (availindex t).

Definition cb_set_queue (q : list (Slice * Z)) (t : CBHTable) : CBHTable :=
  mkCBHT (cb_elems_ t) (cb_length_bits_ t) (cb_list_ t) q
         (DCA_ref_pool t) (stampincr t) (availindex t).

Definition cb_chain (t : CBHTable) (hs : Z) : list ptr :=
  bucket (cb_list_ t) (bucket_of (cb_length_bits_ t) hs).

(** [*FindPointer(key, hash)] in the auxiliary table. *)
Definition CBHT_Find (heap : Heap) (t : CBHTable) (k : Slice) (hs : Z) : option ptr :=
  cb_chain t hs !! find_chain heap k hs (cb_chain t hs).

(** [CBHTable::Lookup], run by the thread whose dense id is [tid]. *)
Definition CBHT_Lookup (cfg : Tunables) (heap : Heap) (t : CBHTable)
    (k : Slice) (hs : Z) (tid : Z) : CBHTable * option ptr :=
  match CBHT_Find heap t k hs with
  | Some p =>
      match heap !! p with
      | Some h =>
          if stamp_ok cfg (DCAstamp h)
          then
            let c := DCAstamp_tc h + tid in
            (cb_set_pool (arr_set (DCA_ref_pool t) c
                            (wrap_int (arr_get (DCA_ref_pool t) c + 1))) t, Some p)
          else (t, Some p)
      | None => (t, Some p)
      end
  | None => (t, None)
  end.

(** [CBHTable::Unref]. *)
Definition CBHT_Unref (cfg : Tunables) (t : CBHTable) (h : LRUHandle) (tid : Z) : CBHTable :=
  if stamp_ok cfg (DCAstamp h)
  then
    let c := DCAstamp_tc h + tid in
    cb_set_pool (arr_set (DCA_ref_pool t) c (wrap_int (arr_get (DCA_ref_pool t) c - 1))) t
  else t.

(** The loop of Remove over the thread ids: it sums the row of the stamp
    and, when the removal is forced, zeroes each cell it has read. *)
Definition tally_step (stamptmp_tc : Z) (dontforce : bool)
    (acc : Z * list Z) (i : nat) : Z * list Z :=
  let c := stamptmp_tc + Z.of_nat i in
  let refstmp := wrap_int (acc.1 + arr_get acc.2 c) in
  (refstmp, if dontforce then acc.2 else arr_set acc.2 c 0).

Definition tally_loop (cfg : Tunables) (stamptmp_tc : Z) (dontforce : bool)
    (pool : list Z) : Z * list Z :=
  foldl (tally_step stamptmp_tc dontforce) (0, pool)
        (seq 0 (Z.to_nat (threadcount cfg))).

(** [CBHTable::Remove(key, hash, dontforce)]. The third argument is the
    negation of the spec's [force]. *)
Definition CBHT_Remove (cfg : Tunables) (heap : Heap) (t : CBHTable)
    (k : Slice) (hs : Z) (dontforce : bool) : Heap * CBHTable * option ptr :=
  let b := bucket_of (cb_length_bits_ t) hs in
  let chain := bucket (cb_list_ t) b in
  let i := find_chain heap k hs chain in
  match chain !! i with
  | Some p =>
      match heap !! p with
      | Some h =>
          let stamptmp := DCAstamp h in
          let stamptmp_tc := DCAstamp_tc h in
          if stamp_ok cfg stamptmp then
            let '(refstmp, pool1) := tally_loop cfg stamptmp_tc dontforce (DCA_ref_pool t) in
            if dontforce && negb (refstmp =? 0) then (heap, cb_set_pool pool1 t, None)
            else
              let refs1 :=
                if wrap_int (wrap_int (refs h) + refstmp) <? 0 then 0
                else wrap32 (refs h + refstmp) in
              let h1 := set_indca false (set_DCAstamp (-1) stamptmp_tc (set_refs refs1 h)) in
              let pool2 := arr_set pool1 (availindex t + stamptmp) 0 in
              (<[p := h1]> heap,
               mkCBHT (wrap32 (cb_elems_ t - 1)) (cb_length_bits_ t)
                      (<[b := unlink_at chain i]> (cb_list_ t)) (hashkeylist t)
                      pool2 (stampincr t) (availindex t),
               Some p)
          else (heap, t, Some p)
      | None => (heap, t, Some p)
      end
  | None => (heap, t, None)
  end.

(** Modelled from the spec: the default value of the third argument of
    CBHTable::Remove, declared in the absent header. The two-argument calls
    (eviction, Erase) force the removal. *)
Definition Remove_default_dontforce : bool := false.

(** [CBHTable::EvictFIFO]; [hardlimit] bounds the number of probes. *)
Fixpoint EvictFIFO_loop (cfg : Tunables) (hardlimit : nat) (heap : Heap)
    (t : CBHTable) (tid : Z) : Heap * CBHTable * option ptr :=
  match hardlimit with
  | O => (heap, t, None)
  | S hardlimit' =>
      match hashkeylist t with
      | [] => (heap, t, None)
      | temp :: q =>
          let t1 := cb_set_queue q t in
          let '(t2, e) := CBHT_Lookup cfg heap t1 temp.1 temp.2 tid in
          match e with
          | Some _ =>
              let '(heap3, t3, result) := CBHT_Remove cfg heap t2 temp.1 temp.2 true in
              match result with
              | Some r => (heap3, t3, Some r)
              | None =>
                  EvictFIFO_loop cfg hardlimit' heap3
                    (cb_set_queue (hashkeylist t3 ++ [temp]) t3) tid
              end
          | None => EvictFIFO_loop cfg hardlimit' heap t2 tid
          end
      end
  end.

Definition CBHT_EvictFIFO (cfg : Tunables) (heap : Heap) (t : CBHTable) (tid : Z)
    : Heap * CBHTable * option ptr :=
  EvictFIFO_loop cfg (Z.to_nat (aux_capacity cfg)) heap t tid.

Definition CBHT_IsTableFull (t : CBHTable) : bool :=
  0 <? Z.shiftr (cb_elems_ t) (cb_length_bits_ t - 1).

(** The scan for a free stamp in Insert: [n] probes are left, [i] is the
    last slot probed. It returns the pool, the stamp and the new
    [stampincr]; when no slot is free the stamp stays 0. *)
Fixpoint stamp_scan (cap avail : Z) (n : nat) (i : Z) (pool : list Z) (incr : Z)
    : list Z * Z * Z :=
  match n with
  | O => (pool, 0, incr)
  | S n' =>
      let i1 := wrap32 (i + 1) in
      let i2 := if cap <=? i1 then 0 else i1 in
      if arr_get pool (avail + i2) =? 0
      then (arr_set pool (avail + i2) 1, i2, i2)
      else stamp_scan cap avail n' i2 pool incr
  end.

(** [CBHTable::Insert(h)]. The result is [Some p] when the insert was
    refused (the source returns [h] itself), and otherwise the displaced
    handle, if any. *)
Definition CBHT_Insert (cfg : Tunables) (heap : Heap) (t : CBHTable) (p : ptr) (tid : Z)
    : Heap * CBHTable * option ptr :=
  let '(heap1, t1) :=
    if CBHT_IsTableFull t
    then let '(hp, t', _) := CBHT_EvictFIFO cfg heap t tid in (hp, t')
    else (heap, t) in
  if CBHT_IsTableFull t1 then (heap1, t1, Some p)
  else
    match heap1 !! p with
    | None => (heap1, t1, Some p)
    | Some h =>
        let b := bucket_of (cb_length_bits_ t1) (hash h) in
        let chain := bucket (cb_list_ t1) b in
        let i := find_chain heap1 (key h) (hash h) chain in
        let old := chain !! i in
        let elems1 := match old with
                      | Some _ => cb_elems_ t1
                      | None => wrap32 (cb_elems_ t1 + 1)
                      end in
        let '(pool1, stamptmp, incr1) :=
          stamp_scan (aux_capacity cfg) (availindex t1)
                     (Z.to_nat (aux_capacity cfg)) (stampincr t1)
                     (DCA_ref_pool t1) (stampincr t1) in
        let h1 := set_DCAstamp stamptmp (wrap_int (stamptmp * threadcount cfg))
                    (set_indca true h) in
        (<[p := h1]> heap1,
         mkCBHT elems1 (cb_length_bits_ t1)
                (<[b := store_at chain i p]> (cb_list_ t1))
                (hashkeylist t1 ++ [(key h, hash h)])
                pool1 incr1 (availindex t1),
         old)
    end.

(** ** The shard *)

Inductive CacheMetadataChargePolicy :=
  kDontChargeCacheMetadata | kFullChargeCacheMetadata.

(** The contract of the secondary cache: a lookup by key that may give a
    result handle. *)
Record SecondaryCache := mkSecondary {
  sc_Lookup : Slice -> bool -> option SecondaryCacheResultHandle
}.

Record LRUCacheShard := mkShard {
  capacity_ : Z;
  high_pri_pool_usage_ : Z;
  strict_capacity_limit_ : bool;
  high_pri_pool_ratio_ : double;
  high_pri_pool_capacity_ : double;
  table_ : LRUHandleTable;
  cbhtable_ : CBHTable;
  usage_ : Z;
  lru_usage_ : Z;
  lru_ : list ptr;
  lru_low_pri_ : option ptr;
  metadata_charge_policy_ : CacheMetadataChargePolicy;
  secondary_cache_ : option SecondaryCache
}.

(** The per-shard arrays of the adaptive controller, indexed by
    [Shard(hash) * PADDING]. *)
Record Controller := mkController {
  CBHTState : list bool;
  totalhit : list Z;
  nohit : list Z;
  virtual_totalhit : list Z;
  virtual_nohit : list Z;
  N_ : list Z;
  Nsupple : list Z;
  hitrate : list Z;
  sortarr : list Z;
  DCAskip_hit : list Z;
  DCAflush_hit : list Z
}.

(** One call of LRUHandle::Free: the address, key and value handed to the
    deleter. *)
Record FreeRecord := mkFree { fr_ptr : ptr; fr_key : Slice; fr_value : Z }.

(** The state one shard operation runs in. [freed] lists the calls of
    LRUHandle::Free in order, [sec_inserted] the keys handed to the
    secondary cache, [next_addr] is the address the next allocation
    returns. *)
Record State := mkState {
  heap : Heap;
  next_addr : ptr;
  shard : LRUCacheShard;
  ctl : Controller;
  freed : list FreeRecord;
  sec_inserted : list Slice
}.

Definition with_heap (hp : Heap) (s : State) : State :=
  mkState hp (next_addr s) (shard s) (ctl s) (freed s) (sec_inserted s).

Definition with_shard (sh : LRUCacheShard) (s : State) : State :=
  mkState (heap s) (next_addr s) sh (ctl s) (freed s) (sec_inserted s).

Definition with_ctl (c : Controller) (s : State) : State :=
  mkState (heap s) (next_addr s) (shard s) c (freed s) (sec_inserted s).

(** [e->f()] for a method that updates the handle in place; a handle that
    is not in the heap is left alone. *)
Definition upd_handle (e : ptr) (f : LRUHandle -> LRUHandle) (s : State) : State :=
  match heap s !! e with
  | Some h => with_heap (<[e := f h]> (heap s)) s
  | None => s
  end.

Definition set_table (t : LRUHandleTable) (sh : LRUCacheShard) : LRUCacheShard :=
  mkShard (capacity_ sh) (high_pri_pool_usage_ sh) (strict_capacity_limit_ sh)
    (high_pri_pool_ratio_ sh) (high_pri_pool_capacity_ sh) t (cbhtable_ sh)
    (usage_ sh) (lru_usage_ sh) (lru_ sh) (lru_low_pri_ sh)
    (metadata_charge_policy_ sh) (secondary_cache_ sh).

Definition set_cbhtable (t : CBHTable) (sh : LRUCacheShard) : LRUCacheShard :=
  mkShard (capacity_ sh) (high_pri_pool_usage_ sh) (strict_capacity_limit_ sh)
    (high_pri_pool_ratio_ sh) (high_pri_pool_capacity_ sh) (table_ sh) t
    (usage_ sh) (lru_usage_ sh) (lru_ sh) (lru_low_pri_ sh)
    (metadata_charge_policy_ sh) (secondary_cache_ sh).

Definition set_usage (u : Z) (sh : LRUCacheShard) : LRUCacheShard :=
  mkShard (capacity_ sh) (high_pri_pool_usage_ sh) (strict_capacity_limit_ sh)
    (high_pri_pool_ratio_ sh) (high_pri_pool_capacity_ sh) (table_ sh) (cbhtable_ sh)
    u (lru_usage_ sh) (lru_ sh) (lru_low_pri_ sh)
    (metadata_charge_policy_ sh) (secondary_cache_ sh).

(** The fields the LRU list operations write: the list, the boundary of
    the low-priority pool and the two usage counters. *)
Definition set_lru (l : list ptr) (low : option ptr) (lru_usage hp_usage : Z)
    (sh : LRUCacheShard) : LRUCacheShard :=
  mkShard (capacity_ sh) hp_usage (strict_capacity_limit_ sh)
    (high_pri_pool_ratio_ sh) (high_pri_pool_capacity_ sh) (table_ sh) (cbhtable_ sh)
    (usage_ sh) lru_usage l low
    (metadata_charge_policy_ sh) (secondary_cache_ sh).

(** [e->prev] for a handle of the list: the element before it, or [None]
    for the sentinel [&lru_]. *)
Fixpoint prev_of (before : option ptr) (e : ptr) (l : list ptr) : option ptr :=
  match l with
  | [] => None
  | x :: r => if decide (x = e) then before else prev_of (Some x) e r
  end.

(** The list without [e]. *)
Definition unlink (e : ptr) (l : list ptr) : list ptr :=
  filter (fun x => x <> e) l.

(** [e] linked right after [q]. *)
Fixpoint link_after (q e : ptr) (l : list ptr) : list ptr :=
  match l with
  | [] => [e]
  | x :: r => if decide (x = q) then x :: e :: r else x :: link_after q e r
  end.

(** The handles after [q] in the list, up to the sentinel. *)
Fixpoint after (q : ptr) (l : list ptr) : list ptr :=
  match l with
  | [] => []
  | x :: r => if decide (x = q) then r else after q r
  end.

Section Shard.

(** The metadata overhead that kFullChargeCacheMetadata adds to the charge
    of a handle; it is computed in the absent header from the size of the
    allocation, which depends on the key only. *)
Variable meta_charge : Slice -> Z.

(** The number of shard bits chosen when the caller passes a negative
    num_shard_bits; defined outside this file. *)
Variable GetDefaultCacheShardBits : Z -> Z.

(** Modelled from the spec: LRUHandle::CalcTotalCharge of the absent header.
    The charge of an entry, plus the metadata overhead when the policy
    charges it. *)
Definition CalcTotalCharge (pol : CacheMetadataChargePolicy) (h : LRUHandle) : Z :=
  match pol with
  | kDontChargeCacheMetadata => wrap64 (charge h)
  | kFullChargeCacheMetadata => wrap64 (charge h + meta_charge (key h))
  end.

Definition total_charge_of (s : State) (h : LRUHandle) : Z :=
  CalcTotalCharge (metadata_charge_policy_ (shard s)) h.

(** Modelled from the spec: LRUHandle::Free of the absent header. The
    deleter supplied by the caller runs on the key and value, and the
    memory of the handle is released. *)
Definition Free (e : ptr) (s : State) : State :=
  match heap s !! e with
  | Some h =>
      mkState (delete e (heap s)) (next_addr s) (shard s) (ctl s)
              (freed s ++ [mkFree e (key h) (value h)]) (sec_inserted s)
  | None => s
  end.

(** [LRUCacheShard::LRU_Remove]. The accounting of a handle that is not in
    the heap is skipped. *)
Definition LRU_Remove (e : ptr) (s : State) : State :=
  let sh := shard s in
  if bool_decide (e ∈ lru_ sh) then
    let low := if bool_decide (lru_low_pri_ sh = Some e)
               then prev_of None e (lru_ sh) else lru_low_pri_ sh in
    match heap s !! e with
    | Some h =>
        let total_charge := total_charge_of s h in
        with_shard
          (set_lru (unlink e (lru_ sh)) low
                   (wrap64 (lru_usage_ sh - total_charge))
                   (if in_high_pri_pool h
                    then wrap64 (high_pri_pool_usage_ sh - total_charge)
                    else high_pri_pool_usage_ sh) sh) s
    | None =>
        with_shard (set_lru (unlink e (lru_ sh)) low (lru_usage_ sh)
                            (high_pri_pool_usage_ sh) sh) s
    end
  else s.

(** [LRUCacheShard::MaintainPoolSize]: [rest] are the handles between
    [lru_low_pri_] and the sentinel. The source asserts that the boundary
    never reaches the sentinel; the loop of the model stops there. *)
Fixpoint MaintainPoolSize_loop (rest : list ptr) (s : State) : State :=
  let sh := shard s in
  if double_lt (high_pri_pool_capacity_ sh) (double_of_size (high_pri_pool_usage_ sh)) then
    match rest with
    | [] => s
    | x :: rest' =>
        let s1 := upd_handle x (SetInHighPriPool false) s in
        let total_charge :=
          match heap s1 !! x with Some h => total_charge_of s1 h | None => 0 end in
        MaintainPoolSize_loop rest'
          (with_shard (set_lru (lru_ sh) (Some x) (lru_usage_ sh)
                               (wrap64 (high_pri_pool_usage_ sh - total_charge)) sh) s1)
    end
  else s.

Definition MaintainPoolSize (s : State) : State :=
  let sh := shard s in
  MaintainPoolSize_loop
    (match lru_low_pri_ sh with Some q => after q (lru_ sh) | None => lru_ sh end) s.

(** [LRUCacheShard::LRU_Insert]. *)
Definition LRU_Insert (e : ptr) (s : State) : State :=
  let sh := shard s in
  if bool_decide (e ∈ lru_ sh) then s
  else
    match heap s !! e with
    | None => s
    | Some h =>
        let total_charge := total_charge_of s h in
        if double_lt double_0 (high_pri_pool_ratio_ sh) && (is_high_pri h || has_hit h)
        then
          let s1 := upd_handle e (SetInHighPriPool true) s in
          let s2 := with_shard
                      (set_lru (lru_ sh ++ [e]) (lru_low_pri_ sh) (lru_usage_ sh)
                               (wrap64 (high_pri_pool_usage_ sh + total_charge)) sh) s1 in
          let s3 := MaintainPoolSize s2 in
          let sh3 := shard s3 in
          with_shard (set_lru (lru_ sh3) (lru_low_pri_ sh3)
                              (wrap64 (lru_usage_ sh3 + total_charge))
                              (high_pri_pool_usage_ sh3) sh3) s3
        else
          let s1 := upd_handle e (SetInHighPriPool false) s in
          let l := match lru_low_pri_ sh with
                   | Some q => link_after q e (lru_ sh)
                   | None => e :: lru_ sh
                   end in
          with_shard (set_lru l (Some e) (wrap64 (lru_usage_ sh + total_charge))
                              (high_pri_pool_usage_ sh) sh) s1
    end.

Definition CBHT_enabled (cfg : Tunables) : bool := negb (CBHTturnoff cfg =? 0).

(** The block guarded by [if(CBHTturnoff)] in the eviction paths: a
    handle whose indca flag is set is removed from the auxiliary table,
    with the default third argument of Remove. *)
Definition invalidate_in_aux (cfg : Tunables) (old : ptr) (s : State) : State :=
  if CBHT_enabled cfg then
    match heap s !! old with
    | Some h =>
        if indca h then
          let '(hp, t, _) :=
            CBHT_Remove cfg (heap s) (cbhtable_ (shard s)) (key h) (hash h)
                        Remove_default_dontforce in
          with_shard (set_cbhtable t (shard s)) (with_heap hp s)
        else s
    | None => s
    end
  else s.

(** [table_.Remove(key, hash)] on the shard. *)
Definition shard_table_remove (k : Slice) (hs : Z) (s : State) : State :=
  let '(t, _) := Table_Remove (heap s) (table_ (shard s)) k hs in
  with_shard (set_table t (shard s)) s.

(** One iteration of the loop of EvictFromLRU, on the handle [old] at
    [lru_.next]. *)
Definition evict_one (cfg : Tunables) (old : ptr) (s : State) : State :=
  let s1 := LRU_Remove old s in
  let s2 := invalidate_in_aux cfg old s1 in
  match heap s2 !! old with
  | Some h =>
      let s3 := shard_table_remove (key h) (hash h) s2 in
      let s4 := upd_handle old (SetInCache false) s3 in
      let old_total_charge := total_charge_of s4 (SetInCache false h) in
      with_shard (set_usage (wrap64 (usage_ (shard s4) - old_total_charge)) (shard s4)) s4
  | None => s2
  end.

(** [LRUCacheShard::EvictFromLRU(charge, deleted)]. Every iteration takes
    one handle off the list, so [fuel] is the length of the list. *)
Fixpoint EvictFromLRU_loop (cfg : Tunables) (fuel : nat) (chg : Z)
    (s : State) (deleted : list ptr) : State * list ptr :=
  match fuel with
  | O => (s, deleted)
  | S fuel' =>
      if capacity_ (shard s) <? wrap64 (usage_ (shard s) + chg) then
        match lru_ (shard s) with
        | [] => (s, deleted)
        | old :: _ =>
            EvictFromLRU_loop cfg fuel' chg (evict_one cfg old s) (deleted ++ [old])
        end
      else (s, deleted)
  end.

Definition EvictFromLRU (cfg : Tunables) (chg : Z) (s : State) (deleted : list ptr)
    : State * list ptr :=
  EvictFromLRU_loop cfg (length (lru_ (shard s))) chg s deleted.

(** The loop that ends SetCapacity and InsertItem, outside the mutex: each
    entry of the list goes to the secondary cache when it qualifies, and is
    freed. *)
Definition free_entry (s : State) (e : ptr) : State :=
  let s1 :=
    match secondary_cache_ (shard s), heap s !! e with
    | Some _, Some h =>
        if is_secondary_cache_compatible h && negb (is_promoted h)
        then mkState (heap s) (next_addr s) (shard s) (ctl s) (freed s)
                     (sec_inserted s ++ [key h])
        else s
    | _, _ => s
    end in
  Free e s1.

Definition free_all (l : list ptr) (s : State) : State := foldl free_entry s l.

Inductive Status := Ok | OkOverwritten | Incomplete.

(** [s.ok()]: OkOverwritten is a subcode of OK. *)
Definition Status_ok (st : Status) : bool :=
  match st with Incomplete => false | _ => true end.

(** The overwrite branch of InsertItem, once [table_.Insert(e)] has
    returned the handle [old]. *)
Definition displace_old (cfg : Tunables) (e old : ptr) (tid : Z)
    (s : State) (last_reference_list : list ptr) : State * list ptr :=
  let s1 := upd_handle old (SetInCache false) s in
  let '(s2, lrl) :=
    match heap s1 !! old with
    | Some ho =>
        if negb (HasRefs ho) then
          let s' := LRU_Remove old s1 in
          let old_total_charge := total_charge_of s' ho in
          (with_shard (set_usage (wrap64 (usage_ (shard s') - old_total_charge))
                                 (shard s')) s',
           last_reference_list ++ [old])
        else (s1, last_reference_list)
    | None => (s1, last_reference_list)
    end in
  let s3 :=
    if CBHT_enabled cfg then
      match heap s2 !! old with
      | Some ho =>
          if indca ho then
            let '(hp, t, _) := CBHT_Insert cfg (heap s2) (cbhtable_ (shard s2)) e tid in
            with_shard (set_cbhtable t (shard s2)) (with_heap hp s2)
          else s2
      | None => s2
      end
    else s2 in
  (s3, lrl).

(** [LRUCacheShard::InsertItem(e, handle, free_handle_on_fail)].
    [want_handle] says that [handle] is not null; the second component of
    the result is what [*handle] holds at the end. *)
Definition InsertItem (cfg : Tunables) (e : ptr) (want_handle free_handle_on_fail : bool)
    (tid : Z) (s : State) : Status * option ptr * State :=
  match heap s !! e with
  | None => (Ok, None, s)
  | Some h =>
      let total_charge := total_charge_of s h in
      let '(s1, lrl) := EvictFromLRU cfg total_charge s [] in
      if (capacity_ (shard s1) <? wrap64 (usage_ (shard s1) + total_charge))
         && (strict_capacity_limit_ (shard s1) || negb want_handle)
      then
        let s2 := upd_handle e (SetInCache false) s1 in
        if negb want_handle then (Ok, None, free_all (lrl ++ [e]) s2)
        else if free_handle_on_fail
             then (Incomplete, None, free_all lrl (with_heap (delete e (heap s2)) s2))
             else (Incomplete, Some e, free_all lrl s2)
      else
        let '(t, old) := Table_Insert (heap s1) (table_ (shard s1)) e h in
        let s2 := with_shard
                    (set_usage (wrap64 (usage_ (shard s1) + total_charge))
                               (set_table t (shard s1))) s1 in
        let '(st, s3, lrl3) :=
          match old with
          | Some o =>
              let '(s', l') := displace_old cfg e o tid s2 lrl in (OkOverwritten, s', l')
          | None => (Ok, s2, lrl)
          end in
        let in_aux := match heap s3 !! e with Some h3 => indca h3 | None => false end in
        let s4 :=
          if want_handle
          then if in_aux then s3 else upd_handle e Ref s3
          else if in_aux then s3 else LRU_Insert e s3 in
        (st, if want_handle then Some e else None, free_all lrl3 s4)
  end.

(** The contents of the fields that an allocation leaves uninitialised:
    [new char[]] returns memory that holds whatever was there. *)
Record RawHandle := mkRaw {
  raw_indca : bool;
  raw_DCAstamp : Z;
  raw_DCAstamp_tc : Z
}.

(** The handle that Insert fills in: every field the source writes, and
    the raw contents for the two stamp fields it does not write. *)
Definition Insert_handle (k : Slice) (hs : Z) (v : Z) (chg : Z)
    (hlp : option CacheItemHelper) (priority : Priority) (raw : RawHandle) : LRUHandle :=
  mkLRUHandle v hlp None chg k hs 0
    true (match priority with HIGH => true | LOW => false end)
    false false (match hlp with Some _ => true | None => false end)
    false false false
    false (raw_DCAstamp raw) (raw_DCAstamp_tc raw).

(** [new char[...]]: the handle is placed at the next address. *)
Definition alloc (h : LRUHandle) (s : State) : State :=
  mkState (<[next_addr s := h]> (heap s)) (S (next_addr s)) (shard s) (ctl s)
          (freed s) (sec_inserted s).

(** [LRUCacheShard::Insert]. [hlp] is the CacheItemHelper when one is
    passed; [want_handle] says that [handle] is not null; [raw] is the
    content of the allocated memory. *)
Definition Insert (cfg : Tunables) (k : Slice) (hs : Z) (v : Z) (chg : Z)
    (hlp : option CacheItemHelper) (want_handle : bool) (priority : Priority)
    (raw : RawHandle) (tid : Z) (s : State) : Status * option ptr * State :=
  InsertItem cfg (next_addr s) want_handle true tid
    (alloc (Insert_handle k hs v chg hlp priority raw) s).

(** [LRUCacheShard::Promote]. *)
Definition Promote (cfg : Tunables) (e : ptr) (tid : Z) (s : State) : State :=
  match heap s !! e with
  | None => s
  | Some h =>
      let sh := default (mkSecHandle 0 0) (sec_handle h) in
      let s1 := upd_handle e
                  (fun h => set_sec_handle None
                     (set_charge (sh_size sh) (set_value (sh_value sh)
                        (SetPromoted true (SetInCache true (SetIncomplete false h)))))) s in
      if negb (sh_value sh =? 0) then
        let '(st, _, s2) := InsertItem cfg e true false tid s1 in
        if Status_ok st then upd_handle e Unref s2 else s2
      else upd_handle e (fun h => SetInCache false (set_charge 0 h)) s1
  end.

(** [LRUCacheShard::Erase]. *)
Definition Erase (cfg : Tunables) (k : Slice) (hs : Z) (s : State) : State :=
  let '(t, r) := Table_Remove (heap s) (table_ (shard s)) k hs in
  let s1 := with_shard (set_table t (shard s)) s in
  match r with
  | None => s1
  | Some e =>
      let s2 := upd_handle e (SetInCache false) s1 in
      match heap s2 !! e with
      | None => s2
      | Some h =>
          let '(s3, last1) :=
            if negb (HasRefs h) then
              let s' := LRU_Remove e s2 in
              (with_shard (set_usage (wrap64 (usage_ (shard s') - total_charge_of s' h))
                                     (shard s')) s', true)
            else (s2, false) in
          let last2 := CBHT_enabled cfg && indca h in
          let s4 := invalidate_in_aux cfg e s3 in
          if last1 || last2 then Free e s4 else s4
      end
  end.

(** [LRUCacheShard::Ref]. *)
Definition Shard_Ref (e : ptr) (s : State) : bool * State :=
  (true, upd_handle e Ref s).

(** [LRUCacheShard::Release(handle, force_erase)], run by thread [tid].
    The test of indca that the source repeats under the mutex gives the
    answer of the first test here, where no other thread runs. *)
Definition Release (cfg : Tunables) (handle : option ptr) (force_erase : bool)
    (tid : Z) (s : State) : bool * State :=
  match handle with
  | None => (false, s)
  | Some e =>
      match heap s !! e with
      | None => (false, s)
      | Some h =>
          if CBHT_enabled cfg && indca h then
            (true, with_shard (set_cbhtable (CBHT_Unref cfg (cbhtable_ (shard s)) h tid)
                                            (shard s)) s)
          else
            let s1 := upd_handle e Unref s in
            let last_reference := refs (Unref h) =? 0 in
            let '(s2, last_reference) :=
              if last_reference && in_cache h then
                if (capacity_ (shard s1) <? usage_ (shard s1)) || force_erase then
                  (upd_handle e (SetInCache false)
                     (shard_table_remove (key h) (hash h) s1), last_reference)
                else
                  (if indca h then s1 else LRU_Insert e s1, false)
              else (s1, last_reference) in
            let s3 :=
              if last_reference && (negb (is_secondary_cache_compatible h)
                                    || negb (value h =? 0))
              then with_shard (set_usage (wrap64 (usage_ (shard s2) - total_charge_of s2 h))
                                         (shard s2)) s2
              else s2 in
            (last_reference, if last_reference then Free e s3 else s3)
      end
  end.

(** ** The adaptive controller *)

(** [cmpfunc], the comparison handed to qsort. *)
Definition cmpfunc (a b : Z) : Z := wrap_int (a - b).

Fixpoint insert_sorted (x : Z) (l : list Z) : list Z :=
  match l with
  | [] => [x]
  | y :: r => if cmpfunc x y <=? 0 then x :: l else y :: insert_sorted x r
  end.

(** [qsort(base, nmemb, sizeof(int), cmpfunc)]: the first [nmemb] cells of
    the array are put in ascending order, the others stay. *)
Definition qsort (base : list Z) (nmemb : nat) : list Z :=
  foldr insert_sorted [] (take nmemb base) ++ drop nmemb base.

(** [copyAndSort]: the copy loop visits the indices 0, PADDING,
    2*PADDING, ... below shardnumlimit*PADDING; the sort then runs over
    the first shardnumlimit cells. *)
Definition copy_loop (cfg : Tunables) (hitrate_ sortarr_ : list Z) : list Z :=
  foldl (fun a k => let i := Z.of_nat k * PADDING cfg in arr_set a i (arr_get hitrate_ i))
        sortarr_ (seq 0 (Z.to_nat (shardnumlimit cfg))).

Definition copyAndSort (cfg : Tunables) (hitrate_ sortarr_ : list Z) : list Z :=
  qsort (copy_loop cfg hitrate_ sortarr_) (Z.to_nat (shardnumlimit cfg)).

(** [(sortarr[(shardnumlimit - 1) * pctl / 100] + pctl) / 2]. *)
Definition median_of (cfg : Tunables) (sortarr_ : list Z) (pctl : Z) : Z :=
  Z.quot (arr_get sortarr_ (Z.quot ((shardnumlimit cfg - 1) * pctl) 100) + pctl) 2.

(** The sum of the first shardnumlimit cells of an array, divided by
    shardnumlimit. *)
Definition avg_first (cfg : Tunables) (a : list Z) : Z :=
  Z.quot (foldl (fun acc i => acc + arr_get a (Z.of_nat i)) 0
                (seq 0 (Z.to_nat (shardnumlimit cfg))))
         (shardnumlimit cfg).

Definition set_aux (hp : Heap) (t : CBHTable) (s : State) : State :=
  with_shard (set_cbhtable t (shard s)) (with_heap hp s).

(** The flush: [while((evicted = cbhtable_.EvictFIFO()) != nullptr)
    LRU_Insert(evicted)]. Every round that goes on unlinks one handle of
    the auxiliary table, so [fuel] is one more than the number of chained
    handles. *)
Fixpoint flush_loop (cfg : Tunables) (fuel : nat) (tid : Z) (s : State) : State :=
  match fuel with
  | O => s
  | S fuel' =>
      let '(hp, t, evicted) := CBHT_EvictFIFO cfg (heap s) (cbhtable_ (shard s)) tid in
      let s1 := set_aux hp t s in
      match evicted with
      | Some p => flush_loop cfg fuel' tid (LRU_Insert p s1)
      | None => s1
      end
  end.

(** The refill: [temp] walks from [lru_.prev] towards the LRU end while the
    auxiliary table is not full and the list is not empty. [None] is the
    sentinel, which ends the walk. *)
Fixpoint refill_loop (cfg : Tunables) (fuel : nat) (temp : option ptr) (tid : Z)
    (s : State) : State :=
  match fuel with
  | O => s
  | S fuel' =>
      if negb (CBHT_IsTableFull (cbhtable_ (shard s)))
         && negb (bool_decide (lru_ (shard s) = []))
      then
        match temp with
        | None => s
        | Some tp =>
            let '(hp, t, _) := CBHT_Insert cfg (heap s) (cbhtable_ (shard s)) tp tid in
            let s1 := set_aux hp t s in
            let temp2 := prev_of None tp (lru_ (shard s1)) in
            refill_loop cfg fuel' temp2 tid (LRU_Remove tp s1)
        end
      else s
  end.

(** The decision taken in Lookup once [N[hashshard] > NLIMIT], under the
    write lock, for the handle [e] that was just hit. *)
Definition adapt (cfg : Tunables) (hashshard : Z) (e : ptr) (tid : Z) (s : State) : State :=
  let c := ctl s in
  let N1 := arr_set (N_ c) hashshard 0 in
  let hr :=
    if arr_get (virtual_totalhit c) hashshard <? arr_get (totalhit c) hashshard
    then 100 - Z.quot (arr_get (nohit c) hashshard * 100) (arr_get (totalhit c) hashshard)
    else 100 - Z.quot (arr_get (virtual_nohit c) hashshard * 100)
                      (arr_get (virtual_totalhit c) hashshard) in
  let hitrate1 := arr_set (hitrate c) hashshard hr in
  let sortarr1 := copyAndSort cfg hitrate1 (sortarr c) in
  let skip_median := median_of cfg sortarr1 (CBHTturnoff cfg) in
  let flush_median := median_of cfg sortarr1 (DCAflush cfg) in
  let skip1 := arr_set (DCAskip_hit c) hashshard skip_median in
  let flush1 := arr_set (DCAflush_hit c) hashshard flush_median in
  let avg_skip_median := avg_first cfg skip1 in
  let Nsupple1 := arr_set (Nsupple c) hashshard
                    (Z.quot (NLIMIT cfg * avg_skip_median) 100) in
  let avg_flush_median := avg_first cfg flush1 in
  let s1 :=
    if negb (DCAflush cfg =? 0) && (arr_get hitrate1 hashshard <? avg_flush_median)
    then flush_loop cfg (S (length (concat (cb_list_ (cbhtable_ (shard s)))))) tid s
    else s in
  let '(hp, t, _) := CBHT_Insert cfg (heap s1) (cbhtable_ (shard s1)) e tid in
  let s2 := set_aux hp t s1 in
  let s3 := refill_loop cfg (length (lru_ (shard s2))) (last (lru_ (shard s2))) tid s2 in
  let state1 :=
    if avg_skip_median <? arr_get hitrate1 hashshard
    then barr_set (CBHTState c) hashshard true else CBHTState c in
  with_ctl (mkController state1
              (arr_set (totalhit c) hashshard 0) (arr_set (nohit c) hashshard 0)
              (arr_set (virtual_totalhit c) hashshard 0)
              (arr_set (virtual_nohit c) hashshard 0)
              N1 Nsupple1 hitrate1 sortarr1 skip1 flush1) s3.

(** ** Lookup *)

(** What Lookup does that the claims about its paths speak of, in order. *)
Inductive Event :=
  | NegativeCheck      (* table_.Lookup before any lock is taken *)
  | ReadLock | AuxLookup | ReadUnlock
  | MutexLock | PrimaryLookup | WriteLock | WriteUnlock | MutexUnlock
  | SecondaryLookup.

#[export] Instance Event_eq_dec : EqDecision Event.
Proof. solve_decision. Defined.

Definition bump (a : list Z) (i : Z) : list Z := arr_set a i (arr_get a i + 1).

Definition ctl_set_state (v : list bool) (c : Controller) : Controller :=
  mkController v (totalhit c) (nohit c) (virtual_totalhit c) (virtual_nohit c)
    (N_ c) (Nsupple c) (hitrate c) (sortarr c) (DCAskip_hit c) (DCAflush_hit c).

Definition ctl_set_totalhit (v : list Z) (c : Controller) : Controller :=
  mkController (CBHTState c) v (nohit c) (virtual_totalhit c) (virtual_nohit c)
    (N_ c) (Nsupple c) (hitrate c) (sortarr c) (DCAskip_hit c) (DCAflush_hit c).

Definition ctl_set_nohit (v : list Z) (c : Controller) : Controller :=
  mkController (CBHTState c) (totalhit c) v (virtual_totalhit c) (virtual_nohit c)
    (N_ c) (Nsupple c) (hitrate c) (sortarr c) (DCAskip_hit c) (DCAflush_hit c).

Definition ctl_set_virtual (vt vn : list Z) (c : Controller) : Controller :=
  mkController (CBHTState c) (totalhit c) (nohit c) vt vn
    (N_ c) (Nsupple c) (hitrate c) (sortarr c) (DCAskip_hit c) (DCAflush_hit c).

Definition ctl_set_N (v : list Z) (c : Controller) : Controller :=
  mkController (CBHTState c) (totalhit c) (nohit c) (virtual_totalhit c) (virtual_nohit c)
    v (Nsupple c) (hitrate c) (sortarr c) (DCAskip_hit c) (DCAflush_hit c).

(** Whether the auxiliary table is consulted for this shard:
    [CBHTState[hashshard] || CBHTturnoff == 100]. *)
Definition aux_active (cfg : Tunables) (s : State) (hashshard : Z) : bool :=
  barr_get (CBHTState (ctl s)) hashshard || (CBHTturnoff cfg =? 100).

(** The block under [ReadLock rl(&rwmutex_)]: the auxiliary lookup and its
    counters. *)
Definition aux_path (cfg : Tunables) (k : Slice) (hs hashshard tid : Z) (s : State)
    : option ptr * State :=
  let '(t, e) := CBHT_Lookup cfg (heap s) (cbhtable_ (shard s)) k hs tid in
  let s1 := with_shard (set_cbhtable t (shard s)) s in
  let s2 := with_ctl (ctl_set_totalhit (bump (totalhit (ctl s1)) hashshard) (ctl s1)) s1 in
  match e with
  | Some p => (Some p, s2)
  | None =>
      let c3 := ctl_set_nohit (bump (nohit (ctl s2)) hashshard) (ctl s2) in
      let c4 :=
        if negb (CBHTturnoff cfg =? 100)
           && (arr_get (Nsupple c3) hashshard <? arr_get (nohit c3) hashshard)
        then ctl_set_state (barr_set (CBHTState c3) hashshard false) c3
        else c3 in
      (None, with_ctl c4 s2)
  end.

(** The block under [MutexLock l(&mutex_)], the vanilla path. *)
Definition vanilla_path (cfg : Tunables) (k : Slice) (hs hashshard tid : Z) (s : State)
    : option ptr * State * list Event :=
  match Table_Lookup (heap s) (table_ (shard s)) k hs with
  | None => (None, s, [MutexLock; PrimaryLookup; MutexUnlock])
  | Some e =>
      let in_aux := match heap s !! e with Some h => indca h | None => false end in
      let c1 := ctl_set_virtual
                  (bump (virtual_totalhit (ctl s)) hashshard)
                  (if in_aux then virtual_nohit (ctl s)
                   else bump (virtual_nohit (ctl s)) hashshard) (ctl s) in
      let s1 := LRU_Remove e (with_ctl c1 s) in
      let s2 := if in_aux then s1 else upd_handle e Ref s1 in
      let s3 := upd_handle e SetHit s2 in
      if CBHT_enabled cfg then
        let s4 := with_ctl (ctl_set_N (bump (N_ (ctl s3)) hashshard) (ctl s3)) s3 in
        if NLIMIT cfg <? arr_get (N_ (ctl s4)) hashshard
        then (Some e, adapt cfg hashshard e tid s4,
              [MutexLock; PrimaryLookup; WriteLock; WriteUnlock; MutexUnlock])
        else (Some e, s4, [MutexLock; PrimaryLookup; MutexUnlock])
      else (Some e, s3, [MutexLock; PrimaryLookup; MutexUnlock])
  end.

(** The end of Lookup, after the mutex is released: the secondary cache is
    asked when the handle table missed. [raw] is the content of the memory
    allocated for the new handle. *)
Definition secondary_path (cfg : Tunables) (k : Slice) (hs : Z)
    (hlp : option CacheItemHelper) (priority : Priority) (wait : bool)
    (raw : RawHandle) (tid : Z) (s : State) : option ptr * State * list Event :=
  match secondary_cache_ (shard s), hlp with
  | Some sc, Some hp =>
      if saveto_cb hp then
        match sc_Lookup sc k wait with
        | Some secondary_handle =>
            let e := next_addr s in
            let h := mkLRUHandle 0 hlp (Some secondary_handle) 0 k hs 1
                       false (match priority with HIGH => true | LOW => false end)
                       false false true false false false
                       (raw_indca raw) (raw_DCAstamp raw) (raw_DCAstamp_tc raw) in
            let s0 := alloc h s in
            if wait then
              let s1 := Promote cfg e tid s0 in
              match heap s1 !! e with
              | Some h1 =>
                  if value h1 =? 0
                  then (None, Free e (upd_handle e Unref s1),
                        [SecondaryLookup; MutexLock; MutexUnlock])
                  else (Some e, s1, [SecondaryLookup; MutexLock; MutexUnlock])
              | None => (None, s1, [SecondaryLookup; MutexLock; MutexUnlock])
              end
            else (Some e, upd_handle e (SetIncomplete true) s0, [SecondaryLookup])
        | None => (None, s, [SecondaryLookup])
        end
      else (None, s, [])
  | _, _ => (None, s, [])
  end.

(** [LRUCacheShard::Lookup], run by thread [tid]. The result is the handle
    returned, the state, and the events in the order they happen. *)
Definition Lookup (cfg : Tunables) (k : Slice) (hs : Z)
    (hlp : option CacheItemHelper) (priority : Priority) (wait : bool)
    (raw : RawHandle) (tid : Z) (s : State) : option ptr * State * list Event :=
  let hashshard := Shard cfg hs * PADDING cfg in
  let slow (pre : list Event) (s' : State) :=
    let '(e, s1, tr) := vanilla_path cfg k hs hashshard tid s' in
    match e with
    | Some _ => (e, s1, pre ++ tr)
    | None =>
        let '(e2, s2, tr2) := secondary_path cfg k hs hlp priority wait raw tid s1 in
        (e2, s2, pre ++ tr ++ tr2)
    end in
  if CBHT_enabled cfg then
    match Table_Lookup (heap s) (table_ (shard s)) k hs with
    | None => (None, s, [NegativeCheck])
    | Some _ =>
        if aux_active cfg s hashshard then
          let '(e, s1) := aux_path cfg k hs hashshard tid s in
          match e with
          | Some p => (Some p, s1, [NegativeCheck; ReadLock; AuxLookup; ReadUnlock])
          | None => slow [NegativeCheck; ReadLock; AuxLookup; ReadUnlock] s1
          end
        else slow [NegativeCheck] s
    end
  else slow [] s.

(** ** The other entry points of the shard *)

(** One iteration of the loop of EraseUnRefEntries, on the handle [old] at
    [lru_.next]: here the primary table is updated before the auxiliary
    one. *)
Definition erase_one (cfg : Tunables) (old : ptr) (s : State) : State :=
  let s1 := LRU_Remove old s in
  match heap s1 !! old with
  | Some h =>
      let s2 := shard_table_remove (key h) (hash h) s1 in
      let s3 := invalidate_in_aux cfg old s2 in
      let s4 := upd_handle old (SetInCache false) s3 in
      let total_charge := total_charge_of s4 h in
      with_shard (set_usage (wrap64 (usage_ (shard s4) - total_charge)) (shard s4)) s4
  | None => s1
  end.

Fixpoint EraseUnRefEntries_loop (cfg : Tunables) (fuel : nat) (s : State)
    (last_reference_list : list ptr) : State * list ptr :=
  match fuel with
  | O => (s, last_reference_list)
  | S fuel' =>
      match lru_ (shard s) with
      | [] => (s, last_reference_list)
      | old :: _ =>
          EraseUnRefEntries_loop cfg fuel' (erase_one cfg old s)
                                 (last_reference_list ++ [old])
      end
  end.

(** [LRUCacheShard::EraseUnRefEntries]: the loop runs until the LRU list is
    empty, taking one handle off per round, and the entries are then freed
    without being offered to the secondary cache. *)
Definition EraseUnRefEntries (cfg : Tunables) (s : State) : State :=
  let '(s1, last_reference_list) :=
    EraseUnRefEntries_loop cfg (length (lru_ (shard s))) s [] in
  foldl (fun s' e => Free e s') s1 last_reference_list.

(** [LRUCacheShard::TEST_GetLRUSize]: the number of handles between
    [lru_.next] and the sentinel. *)
Definition TEST_GetLRUSize (s : State) : Z := Z.of_nat (length (lru_ (shard s))).

(** [LRUCacheShard::GetUsage] and [GetPinnedUsage]. *)
Definition GetUsage (s : State) : Z := usage_ (shard s).

Definition GetPinnedUsage (s : State) : Z :=
  wrap64 (usage_ (shard s) - lru_usage_ (shard s)).

(** [LRUCacheShard::SetStrictCapacityLimit]. *)
Definition SetStrictCapacityLimit (strict_capacity_limit : bool) (s : State) : State :=
  let sh := shard s in
  with_shard
    (mkShard (capacity_ sh) (high_pri_pool_usage_ sh) strict_capacity_limit
       (high_pri_pool_ratio_ sh) (high_pri_pool_capacity_ sh)
       (table_ sh) (cbhtable_ sh) (usage_ sh) (lru_usage_ sh) (lru_ sh)
       (lru_low_pri_ sh) (metadata_charge_policy_ sh) (secondary_cache_ sh)) s.

(** [LRUCacheShard::SetHighPriorityPoolRatio]. *)
Definition SetHighPriorityPoolRatio (high_pri_pool_ratio : double) (s : State) : State :=
  let sh := shard s in
  MaintainPoolSize
    (with_shard
       (mkShard (capacity_ sh) (high_pri_pool_usage_ sh) (strict_capacity_limit_ sh)
          high_pri_pool_ratio (double_mul (double_of_size (capacity_ sh)) high_pri_pool_ratio)
          (table_ sh) (cbhtable_ sh) (usage_ sh) (lru_usage_ sh) (lru_ sh)
          (lru_low_pri_ sh) (metadata_charge_policy_ sh) (secondary_cache_ sh)) s).

(** The index arithmetic of [LRUCacheShard::ApplyToSomeEntries] for a table
    of [length_bits] bits: the range [index_begin, index_end) of buckets
    handed to ApplyToEntriesRange, and the value left in [*state]. *)
Definition ApplyToSomeEntries_range (length_bits average_entries_per_lock state : Z)
    : Z * Z * Z :=
  let length := wrap32 (Z.shiftl 1 length_bits) in
  let index_begin := Z.shiftr state (32 - length_bits) in
  let index_end := wrap32 (index_begin + average_entries_per_lock) in
  if length <=? index_end
  then (index_begin, length, 2 ^ 32 - 1)
  else (index_begin, index_end, wrap32 (Z.shiftl index_end (32 - length_bits))).

(** ** Construction *)

(** [LRUCacheShard::SetCapacity]. *)
Definition SetCapacity (cfg : Tunables) (capacity : Z) (s : State) : State :=
  let sh := shard s in
  let sh1 :=
    mkShard capacity (high_pri_pool_usage_ sh) (strict_capacity_limit_ sh)
      (high_pri_pool_ratio_ sh) (double_mul (double_of_size capacity) (high_pri_pool_ratio_ sh))
      (table_ sh) (cbhtable_ sh) (usage_ sh) (lru_usage_ sh) (lru_ sh)
      (lru_low_pri_ sh) (metadata_charge_policy_ sh) (secondary_cache_ sh) in
  let '(s1, last_reference_list) := EvictFromLRU cfg 0 (with_shard sh1 s) [] in
  free_all last_reference_list s1.

Definition Controller_zero (n : nat) : Controller :=
  mkController (replicate n false) (replicate n 0) (replicate n 0) (replicate n 0)
    (replicate n 0) (replicate n 0) (replicate n 0) (replicate n 0)
    (replicate n 0) (replicate n 0) (replicate n 0).

(** The constructor of LRUCacheShard; the list is the empty circle, with
    [lru_low_pri_] on the sentinel. *)
Definition LRUCacheShard_new (cfg : Tunables) (capacity : Z) (strict_capacity_limit : bool)
    (high_pri_pool_ratio : double) (metadata_charge_policy : CacheMetadataChargePolicy)
    (max_upper_hash_bits : Z) (secondary_cache : option SecondaryCache) : LRUCacheShard :=
  let sh0 :=
    mkShard 0 0 strict_capacity_limit high_pri_pool_ratio double_0
      (LRUHandleTable_new max_upper_hash_bits) (CBHTable_new cfg)
      0 0 [] None metadata_charge_policy secondary_cache in
  shard (SetCapacity cfg capacity (mkState ∅ 1%nat sh0 (Controller_zero 0) [] [])).

(** A state with one freshly built shard, an empty heap and controller
    arrays of [n] zeroed cells. *)
Definition State_new (sh : LRUCacheShard) (n : nat) : State :=
  mkState ∅ 1%nat sh (Controller_zero n) [] [].

Record LRUCache := mkCache {
  num_shards_ : Z;
  shards_ : list LRUCacheShard
}.

(** The constructor of LRUCache. *)
Definition LRUCache_new (cfg : Tunables) (capacity num_shard_bits : Z)
    (strict_capacity_limit : bool) (high_pri_pool_ratio : double)
    (metadata_charge_policy : CacheMetadataChargePolicy)
    (secondary_cache : option SecondaryCache) : LRUCache :=
  let num_shards := wrap_int (Z.shiftl 1 num_shard_bits) in
  let per_shard := Z.div (wrap64 (capacity + wrap64 (num_shards - 1))) (wrap64 num_shards) in
  mkCache num_shards
    (replicate (Z.to_nat num_shards)
       (LRUCacheShard_new cfg per_shard strict_capacity_limit high_pri_pool_ratio
          metadata_charge_policy (32 - num_shard_bits) secondary_cache)).

(** [NewLRUCache]; [None] is the null pointer it returns on failure. *)
Definition NewLRUCache (cfg : Tunables) (capacity num_shard_bits : Z)
    (strict_capacity_limit : bool) (high_pri_pool_ratio : double)
    (metadata_charge_policy : CacheMetadataChargePolicy)
    (secondary_cache : option SecondaryCache) : option LRUCache :=
  if 20 <=? num_shard_bits then None
  else if double_lt high_pri_pool_ratio double_0 || double_lt double_1 high_pri_pool_ratio
  then None
  else
    let num_shard_bits' :=
      if num_shard_bits <? 0 then GetDefaultCacheShardBits capacity else num_shard_bits in
    Some (LRUCache_new cfg capacity num_shard_bits' strict_capacity_limit
            high_pri_pool_ratio metadata_charge_policy secondary_cache).

End Shard.

(** ** Small configurations used to run the model *)

Definition no_meta (k : Slice) : Z := 0.

(** Auxiliary table switched off. *)
Definition cfg_off : Tunables := mkTunables 0 3 2 4 0 1 1 0.
(** Auxiliary table adaptive, 8 stamps, 2 threads. *)
Definition cfg_on : Tunables := mkTunables 50 3 2 4 20 1 1 0.

Definition raw0 : RawHandle := mkRaw false 0 0.

Definition shard_S1 : State :=
  State_new (LRUCacheShard_new no_meta cfg_off 100 false double_0 kDontChargeCacheMetadata 32 None) 1.

(** ** Statements shared by the properties *)

(** The call of Release freed the handle at [e]: LRUHandle::Free ran on it,
    once, and its memory is gone. *)
Definition entry_freed (e : ptr) (s s' : State) : Prop :=
  exists r, fr_ptr r = e /\ freed s' = freed s ++ [r] /\ heap s' !! e = None.

(** [X] has the free log of [s] and still holds the handle at [e]. *)
Definition keeps (e : ptr) (s X : State) : Prop :=
  freed X = freed s /\ is_Some (heap X !! e).

(** ** The tally matrix *)

Definition sumZ (l : list Z) : Z := foldr Z.add 0 l.

(** The cells [stamp_tc + start], ..., [stamp_tc + start + n - 1] of the
    pool. *)
Definition row_from (pool : list Z) (stamp_tc : Z) (start n : nat) : list Z :=
  map (fun i => arr_get pool (stamp_tc + Z.of_nat i)) (seq start n).

(** The row of a stamp: one cell per thread id. *)
Definition tally_row (cfg : Tunables) (pool : list Z) (stamp_tc : Z) : list Z :=
  row_from pool stamp_tc 0 (Z.to_nat (threadcount cfg)).

Definition zero_row (pool : list Z) (stamp_tc : Z) (start n : nat) : list Z :=
  foldl (fun a i => arr_set a (stamp_tc + Z.of_nat i) 0) pool (seq start n).

(** Remove as the spec words it, with [force] the negation of
    [dontforce]: in the branch that removes, every cell of the row is
    zero afterwards. *)
Definition Remove_as_claimed (cfg : Tunables) (hp : Heap) (t : CBHTable)
    (k : Slice) (hs : Z) (dontforce : bool) : Prop :=
  forall p h, CBHT_Find hp t k hs = Some p -> hp !! p = Some h ->
    let refstmp := sumZ (tally_row cfg (DCA_ref_pool t) (DCAstamp_tc h)) in
    let '(hp', t', r) := CBHT_Remove cfg hp t k hs dontforce in
    if dontforce && negb (refstmp =? 0) then
      r = None /\ CBHT_Find hp' t' k hs = Some p
    else
      r = Some p /\
      tally_row cfg (DCA_ref_pool t') (DCAstamp_tc h)
        = replicate (Z.to_nat (threadcount cfg)) 0 /\
      (exists h', hp' !! p = Some h' /\ refs h' = Z.max 0 (refs h + refstmp) /\
                  indca h' = false) /\
      arr_get (DCA_ref_pool t') (availindex t' + DCAstamp h) = 0.

(** ** The adaptive controller, as the spec words it *)

(** The hitrates of the shards: shard [i] keeps its hitrate at index
    [i * PADDING]. *)
Definition shard_hitrates (cfg : Tunables) (hitrate_ : list Z) : list Z :=
  map (fun k => arr_get hitrate_ (Z.of_nat k * PADDING cfg))
      (seq 0 (Z.to_nat (shardnumlimit cfg))).

(** The median over a sorted copy of the shards' hitrates:
    (sorted[(N_shards - 1) * pctl / 100] + pctl) / 2. *)
Definition median_spec (cfg : Tunables) (hitrate_ : list Z) (pctl : Z) : Z :=
  Z.quot (arr_get (foldr insert_sorted [] (shard_hitrates cfg hitrate_))
                  (Z.quot ((shardnumlimit cfg - 1) * pctl) 100) + pctl) 2.

(** ** The stamp invariant, as the spec words it *)

(** An entry in the auxiliary table has a stamp in range whose slot is
    marked taken; any other entry has stamp -1. *)
Definition stamp_invariant (cfg : Tunables) (s : State) : Prop :=
  forall e h, heap s !! e = Some h ->
    if indca h
    then 0 <= DCAstamp h < aux_capacity cfg /\
         arr_get (DCA_ref_pool (cbhtable_ (shard s)))
                 (availindex (cbhtable_ (shard s)) + DCAstamp h) = 1
    else DCAstamp h = -1.

(** ** The validation of NewCache, as the spec words it *)

(** [x <= y] on doubles; false when either side is a NaN. *)
Definition double_le (x y : double) : bool := SFleb x y.

Definition double_is_nan (x : double) : bool :=
  match x with S754_nan => true | _ => false end.

(** The ratio lies in [0.0, 1.0]. *)
Definition ratio_in_range (ratio : double) : bool :=
  double_le double_0 ratio && double_le ratio double_1.

Definition NewCache_rejects_spec (num_shard_bits : Z) (ratio : double) : Prop :=
  ~ (0 <= num_shard_bits <= 19) \/ ratio_in_range ratio = false.

(** ** The paths of Lookup, as the spec words them *)

(** The secondary cache is configured and the caller passed a helper that
    can save to it. *)
Definition secondary_configured (s : State) (hlp : option CacheItemHelper) : bool :=
  match secondary_cache_ (shard s), hlp with
  | Some _, Some hp => saveto_cb hp
  | _, _ => false
  end.

(** The fast path, which starts with the check of the primary table, is
    taken exactly when the auxiliary table is active for the shard; on it a
    primary miss returns null; off it a primary miss under the mutex leads
    to the secondary cache once the mutex is released. *)
Definition Lookup_as_claimed (meta_charge : Slice -> Z) (cfg : Tunables) (k : Slice) (hs : Z)
    (hlp : option CacheItemHelper) (priority : Priority) (wait : bool)
    (raw : RawHandle) (tid : Z) (s : State) : Prop :=
  let '(r, s', tr) := Lookup meta_charge cfg k hs hlp priority wait raw tid s in
  let active := aux_active cfg s (Shard cfg hs * PADDING cfg) in
  (In NegativeCheck tr <-> active = true) /\
  (In NegativeCheck tr -> Table_Lookup (heap s) (table_ (shard s)) k hs = None -> r = None) /\
  (~ In NegativeCheck tr ->
   Table_Lookup (heap s) (table_ (shard s)) k hs = None ->
   secondary_configured s hlp = true ->
   exists post, tr = [MutexLock; PrimaryLookup; MutexUnlock; SecondaryLookup] ++ post).

(** ** Tables, chains and the invariant of the eviction loop *)

(** Two versions of a handle that agree on what the tables and the
    accounting read. *)
Definition same_entry (h h' : LRUHandle) : Prop :=
  key h' = key h /\ hash h' = hash h /\ charge h' = charge h /\ value h' = value h.

Definition heap_ext (hp hp' : Heap) : Prop :=
  forall p, match hp !! p, hp' !! p with
            | Some h, Some h' => same_entry h h'
            | None, None => True
            | _, _ => False
            end.

(** The lookup that both tables run: the chain of the bucket of the hash,
    at the position FindPointer stops at. *)
Definition chain_lookup (hp : Heap) (l : list (list ptr)) (lb : Z)
    (k : Slice) (hs : Z) : option ptr :=
  bucket l (bucket_of lb hs) !! find_chain hp k hs (bucket l (bucket_of lb hs)).

(** The buckets after the handle found for [(k, hs)] is unlinked. *)
Definition unlink_found (hp : Heap) (l : list (list ptr)) (lb : Z)
    (k : Slice) (hs : Z) : list (list ptr) :=
  let b := bucket_of lb hs in
  <[b := unlink_at (bucket l b) (find_chain hp k hs (bucket l b))]> l.

Record evict_inv (cfg : Tunables) (s : State) : Prop := mk_evict_inv {
  inv_lru_nodup : NoDup (lru_ (shard s));
  inv_lru_indexed : forall p, p ∈ lru_ (shard s) ->
    exists h, heap s !! p = Some h /\
              Table_Lookup (heap s) (table_ (shard s)) (key h) (hash h) = Some p;
  inv_table_nodup : NoDup (concat (list_ (table_ (shard s))));
  inv_aux_nodup : NoDup (concat (cb_list_ (cbhtable_ (shard s))));
  inv_aux_indexed : CBHT_enabled cfg = true ->
    forall p h, p ∈ lru_ (shard s) -> heap s !! p = Some h -> indca h = true ->
      CBHT_Find (heap s) (cbhtable_ (shard s)) (key h) (hash h) = Some p /\
      stamp_ok cfg (DCAstamp h) = true;
  inv_aux_off : CBHT_enabled cfg = false -> concat (cb_list_ (cbhtable_ (shard s))) = []
}.

(** The charge that the shard accounts for the handle at [p]. *)
Definition charge_at (meta_charge : Slice -> Z) (s : State) (p : ptr) : Z :=
  match heap s !! p with
  | Some h => total_charge_of meta_charge s h
  | None => 0
  end.

Definition charge_sum (meta_charge : Slice -> Z) (s : State) (l : list ptr) : Z :=
  foldr Z.add 0 (map (charge_at meta_charge s) l).

(** What EvictFromLRU has done to an entry it evicted, between the states
    [s] and [s']. *)
Definition evicted_ok (s s' : State) (p : ptr) : Prop :=
  (p ∉ lru_ (shard s')) /\
  (p ∉ concat (list_ (table_ (shard s')))) /\
  (indca <$> heap s !! p = Some true -> p ∉ concat (cb_list_ (cbhtable_ (shard s')))) /\
  in_cache <$> heap s' !! p = Some false.

Definition indexed_in_table (s : State) (p : ptr) : bool :=
  match heap s !! p with
  | Some h =>
      bool_decide (Table_Lookup (heap s) (table_ (shard s)) (key h) (hash h) = Some p)
  | None => false
  end.

Definition indexed_in_aux (cfg : Tunables) (s : State) (p : ptr) : bool :=
  match heap s !! p with
  | Some h =>
      negb (indca h)
      || (bool_decide (CBHT_Find (heap s) (cbhtable_ (shard s)) (key h) (hash h) = Some p)
          && stamp_ok cfg (DCAstamp h))
  | None => true
  end.

(** The checks behind [evict_inv], as a function that runs. *)
Definition evict_wf (cfg : Tunables) (s : State) : bool :=
  bool_decide (NoDup (lru_ (shard s)))
  && forallb (indexed_in_table s) (lru_ (shard s))
  && bool_decide (NoDup (concat (list_ (table_ (shard s)))))
  && bool_decide (NoDup (concat (cb_list_ (cbhtable_ (shard s)))))
  && (if CBHT_enabled cfg then forallb (indexed_in_aux cfg s) (lru_ (shard s))
      else bool_decide (concat (cb_list_ (cbhtable_ (shard s))) = [])).

(** ** Concrete inputs *)

Definition lookup_plain (cfg : Tunables) (k : Slice) (hs : Z) (s : State) : State :=
  (Lookup no_meta cfg k hs None LOW true raw0 0 s).1.2.

(** A shard of capacity 100 with the auxiliary table in adaptive mode. *)
Definition shard_on : State :=
  State_new (LRUCacheShard_new no_meta cfg_on 100 false double_0 kDontChargeCacheMetadata 32 None) 1.

(** The shard after Insert of "K" with a handle and five Lookups of it: the
    fifth Lookup runs the controller, which promotes the entry (address 1)
    into the auxiliary table. *)
Definition state_hot : State :=
  let s1 := (Insert no_meta cfg_on "K" 1 11 10 None true LOW raw0 0 shard_on).2 in
  Nat.iter 5 (lookup_plain cfg_on "K" 1) s1.

(** Auxiliary table always on (ACTIVATE_PCTL = 100). *)
Definition cfg_always : Tunables := mkTunables 100 3 2 4 20 1 1 0.

Definition shard_always : State :=
  State_new (LRUCacheShard_new no_meta cfg_always 100 false double_0
               kDontChargeCacheMetadata 32 None) 1.

(** Insert of "K", five Lookups by thread 0 (the fifth promotes the entry,
    stamp 1), one more Lookup by thread 0 through the auxiliary table, and
    a Release of that handle by thread 1: the row of stamp 1 is [1; -1]. *)
Definition state_tally : State :=
  let s1 := (Insert no_meta cfg_always "K" 1 11 10 None false LOW raw0 0 shard_always).2 in
  let s2 := Nat.iter 5 (lookup_plain cfg_always "K" 1) s1 in
  let s3 := (Lookup no_meta cfg_always "K" 1 None LOW true raw0 0 s2).1.2 in
  (Release no_meta cfg_always (Some 1%nat) false 1 s3).2.

(** Four shards whose counters sit 16 cells apart, as on separate cache
    lines. *)
Definition cfg_pad : Tunables := mkTunables 50 3 2 4 20 16 4 2.

(** Shards 1, 2 and 3 have hitrates 80, 70 and 60; shard 0 has seen NLIMIT
    hits since its last decision. *)
Definition ctl_pad : Controller :=
  let z := replicate 64 0 in
  mkController (replicate 64 false) z z z z (<[0%nat := 4]> z) z
    (<[48%nat := 60]> (<[32%nat := 70]> (<[16%nat := 80]> z))) z z z.

Definition state_pad : State :=
  let sh := LRUCacheShard_new no_meta cfg_pad 100 false double_0
              kDontChargeCacheMetadata 30 None in
  let s1 := (Insert no_meta cfg_pad "K" 4 11 10 None false LOW raw0 0 (State_new sh 64)).2 in
  with_ctl ctl_pad s1.

(** An empty shard in adaptive mode with a secondary cache that answers
    every key. *)
Definition shard_sec : State :=
  State_new (LRUCacheShard_new no_meta cfg_on 100 false double_0 kDontChargeCacheMetadata 32
               (Some (mkSecondary (fun _ _ => Some (mkSecHandle 7 5))))) 1.

(** The shard of capacity 100 after Insert of "A" and of "B", 40 each,
    with no handle: both are on the LRU list. *)
Definition state_AB : State :=
  let s1 := (Insert no_meta cfg_off "A" 1 11 40 None false LOW raw0 0 shard_S1).2 in
  (Insert no_meta cfg_off "B" 2 22 40 None false LOW raw0 0 s1).2.

(** The handle of "K" in [state_tally]: five references, stamp 1. *)
Definition handle_K5 : LRUHandle :=
  mkLRUHandle 11 None None 10 "K" 1 5 true false false true false false false false true 1 2.

(** A strict shard of capacity 50 that holds "A" (charge 40), pinned by the
    handle its Insert returned. *)
Definition state_pinned : State :=
  (Insert no_meta cfg_off "A" 1 11 40 None true LOW raw0 0
     (State_new (LRUCacheShard_new no_meta cfg_off 50 true double_0
                   kDontChargeCacheMetadata 32 None) 1)).2.

(** ** Overwriting inserts *)

(** Two versions of a handle that moreover agree on in_cache. *)
Definition same_cached (h h' : LRUHandle) : Prop :=
  same_entry h h' /\ in_cache h' = in_cache h.

Definition heap_cached (hp hp' : Heap) : Prop :=
  forall p, match hp !! p, hp' !! p with
            | Some h, Some h' => same_cached h h'
            | None, None => True
            | _, _ => False
            end.


(** The second heap holds some of the handles of the first, each with its
    key, hash, charge and value. *)
Definition heap_sub (hp hp' : Heap) : Prop :=
  forall p h', hp' !! p = Some h' -> exists h, hp !! p = Some h /\ same_entry h h'.








(** ** The representation invariant of the hash tables *)

(** The buckets of a table in a heap: there are 2^lb of them, no handle is
    chained twice, and every chained handle is live, carries a 32-bit hash
    and is the one the lookup finds under its own key. *)
Definition chains_ok (hp : Heap) (l : list (list ptr)) (lb : Z) : Prop :=
  length l = Z.to_nat (2 ^ lb) /\ 0 <= lb <= 32 /\
  NoDup (concat l) /\
  forall p, p ∈ concat l ->
    exists h, hp !! p = Some h /\ 0 <= hash h < 2 ^ 32 /\
              chain_lookup hp l lb (key h) (hash h) = Some p.

Definition chained_ok (hp : Heap) (l : list (list ptr)) (lb : Z) (p : ptr) : bool :=
  match hp !! p with
  | Some h =>
      (0 <=? hash h) && (hash h <? 2 ^ 32)
      && bool_decide (chain_lookup hp l lb (key h) (hash h) = Some p)
  | None => false
  end.

(** [chains_ok] as a function that runs. *)
Definition chains_wf (hp : Heap) (l : list (list ptr)) (lb : Z) : bool :=
  bool_decide (length l = Z.to_nat (2 ^ lb)) && (0 <=? lb) && (lb <=? 32)
  && bool_decide (NoDup (concat l)) && forallb (chained_ok hp l lb) (concat l).

(** The primary table is well formed when its chains are and [elems_],
    a uint32_t, counts the chained handles, which is what Resize asserts. *)
Definition table_wf (hp : Heap) (t : LRUHandleTable) : bool :=
  chains_wf hp (list_ t) (length_bits_ t)
  && (elems_ t =? Z.of_nat (length (concat (list_ t))))
  && (elems_ t <? 2 ^ 32).

(** The table has grown as far as Resize lets it. *)
Definition table_at_limit (t : LRUHandleTable) : Prop :=
  max_length_bits_ t <= length_bits_ t \/ 31 <= length_bits_ t.

(** ** More concrete inputs *)

(** [state_AB] once a handle for "C" (hash 3, value 33, charge 10) has been
    allocated at address 3; "A", "B" and "C" share bucket 0. *)
Definition handle_C : LRUHandle := Insert_handle "C" 3 33 10 None LOW raw0.

Definition state_ABC : State := alloc handle_C state_AB.

(** The adaptive shard after Insert of "K" with a handle: the entry is at
    address 1 with one reference, and the auxiliary table is empty. *)
Definition state_on_K : State :=
  (Insert no_meta cfg_on "K" 1 11 10 None true LOW raw0 0 shard_on).2.

Definition handle_on_K : LRUHandle := Ref (Insert_handle "K" 1 11 10 None LOW raw0).

(** The handle of "A" in [state_AB]. *)
Definition handle_A : LRUHandle := Insert_handle "A" 1 11 40 None LOW raw0.

(** The calls of LRUHandle::Free that freeing the handles of [l], in order,
    makes in the heap [hp]. *)
Definition free_records (hp : Heap) (l : list ptr) : list FreeRecord :=
  omap (fun p => (fun h => mkFree p (key h) (value h)) <$> hp !! p) l.

(** An auxiliary table of two buckets, full with one entry. *)
Definition cfg_tiny : Tunables := mkTunables 50 1 2 4 20 1 1 0.

Definition state_tiny : State :=
  (Insert no_meta cfg_tiny "K" 1 11 10 None true LOW raw0 0
     (State_new (LRUCacheShard_new no_meta cfg_tiny 100 false double_0
                   kDontChargeCacheMetadata 32 None) 1)).2.

(** The heap and the auxiliary table of [state_tiny] once "K" has been
    inserted in the auxiliary table: the table is full and the row of "K"
    is [0; 0]. *)
Definition aux_tiny : Heap * CBHTable :=
  (CBHT_Insert cfg_tiny (heap state_tiny) (cbhtable_ (shard state_tiny)) 1 0).1.

(** * Properties *)

Section Proofs.

Variable meta_charge : Slice -> Z.

(** ** Frame lemmas for handle updates *)

Lemma upd_handle_lookup e f s p :
  heap (upd_handle e f s) !! p =
  if decide (p = e) then f <$> heap s !! e else heap s !! p.
Proof.
  unfold upd_handle. destruct (heap s !! e) eqn:E; simpl.
  - destruct (decide (p = e)) as [->|]; [by rewrite lookup_insert_eq|by rewrite lookup_insert_ne].
  - destruct (decide (p = e)) as [->|]; by rewrite ?E.
Qed.

Lemma upd_handle_freed e f s : freed (upd_handle e f s) = freed s.
Proof. unfold upd_handle. by destruct (heap s !! e). Qed.

Lemma upd_handle_shard e f s : shard (upd_handle e f s) = shard s.
Proof. unfold upd_handle. by destruct (heap s !! e). Qed.

Lemma upd_handle_is_Some e f s p :
  is_Some (heap (upd_handle e f s) !! p) <-> is_Some (heap s !! p).
Proof.
  rewrite upd_handle_lookup. destruct (decide (p = e)) as [->|]; [|done].
  by rewrite fmap_is_Some.
Qed.

Lemma MaintainPoolSize_loop_frame rest s :
  freed (MaintainPoolSize_loop meta_charge rest s) = freed s /\
  forall p, is_Some (heap (MaintainPoolSize_loop meta_charge rest s) !! p)
            <-> is_Some (heap s !! p).
Proof.
  revert s. induction rest as [|x rest IH]; intros s; simpl.
  - by destruct (double_lt _ _).
  - destruct (double_lt _ _); [|done].
    match goal with |- context [MaintainPoolSize_loop _ rest ?s0] =>
      destruct (IH s0) as [IH1 IH2] end.
    split.
    + rewrite IH1. simpl. apply upd_handle_freed.
    + intros p. rewrite IH2. simpl. apply upd_handle_is_Some.
Qed.

Lemma LRU_Insert_frame e s :
  freed (LRU_Insert meta_charge e s) = freed s /\
  forall p, is_Some (heap (LRU_Insert meta_charge e s) !! p) <-> is_Some (heap s !! p).
Proof.
  unfold LRU_Insert. case_bool_decide; [done|].
  destruct (heap s !! e) eqn:E; [|done].
  destruct (_ && _).
  - simpl. unfold MaintainPoolSize.
    match goal with |- context [MaintainPoolSize_loop _ ?r ?s0] =>
      destruct (MaintainPoolSize_loop_frame r s0) as [F1 F2] end.
    split.
    + rewrite F1. simpl. apply upd_handle_freed.
    + intros p. rewrite F2. simpl. apply upd_handle_is_Some.
  - simpl. split; [apply upd_handle_freed|intros p; apply upd_handle_is_Some].
Qed.

Lemma shard_table_remove_frame k hs s :
  freed (shard_table_remove k hs s) = freed s /\ heap (shard_table_remove k hs s) = heap s.
Proof. unfold shard_table_remove. by destruct (Table_Remove _ _ _ _). Qed.

Lemma Free_present e h s :
  heap s !! e = Some h ->
  freed (Free e s) = freed s ++ [mkFree e (key h) (value h)] /\
  heap (Free e s) !! e = None.
Proof.
  intros E. unfold Free. rewrite E. simpl. split; [done|]. apply lookup_delete_eq.
Qed.

Lemma keeps_refl e h s : heap s !! e = Some h -> keeps e s s.
Proof. intros E. split; [done|by rewrite E]. Qed.

Lemma keeps_upd e s X p f : keeps e s X -> keeps e s (upd_handle p f X).
Proof.
  intros [K1 K2]. split; [by rewrite upd_handle_freed|by apply upd_handle_is_Some].
Qed.

Lemma keeps_with_shard e s X sh : keeps e s X -> keeps e s (with_shard sh X).
Proof. by intros [K1 K2]. Qed.

Lemma keeps_table_remove e s X k hs : keeps e s X -> keeps e s (shard_table_remove k hs X).
Proof.
  intros [K1 K2]. destruct (shard_table_remove_frame k hs X) as [F1 F2].
  split; [by rewrite F1|by rewrite F2].
Qed.

Lemma keeps_LRU_Insert e s X p : keeps e s X -> keeps e s (LRU_Insert meta_charge p X).
Proof.
  intros [K1 K2]. destruct (LRU_Insert_frame p X) as [F1 F2].
  split; [by rewrite F1|by apply F2].
Qed.

Lemma keeps_Free e s X : keeps e s X -> entry_freed e s (Free e X).
Proof.
  intros [K1 [h K2]]. destruct (Free_present e h X K2) as [G1 G2].
  exists (mkFree e (key h) (value h)). by rewrite G1, K1.
Qed.

Lemma keeps_not_freed e s X : keeps e s X -> ~ entry_freed e s X.
Proof.
  intros [K1 _] [r [_ [R _]]]. rewrite K1 in R.
  apply (f_equal length) in R. rewrite length_app in R. simpl in R. lia.
Qed.

(** ** Chains, tables and the eviction loop *)

Lemma same_entry_refl h : same_entry h h.
Proof. by repeat split. Qed.

Lemma heap_ext_refl hp : heap_ext hp hp.
Proof. intros p. destruct (hp !! p); [apply same_entry_refl|done]. Qed.

Lemma heap_ext_trans hp1 hp2 hp3 : heap_ext hp1 hp2 -> heap_ext hp2 hp3 -> heap_ext hp1 hp3.
Proof.
  intros H1 H2 p. specialize (H1 p). specialize (H2 p).
  destruct (hp1 !! p), (hp2 !! p), (hp3 !! p); try done.
  unfold same_entry in *. intuition congruence.
Qed.

Lemma heap_ext_insert (hp : gmap ptr LRUHandle) p h h' :
  hp !! p = Some h -> same_entry h h' -> heap_ext hp (<[p := h']> hp).
Proof.
  intros E S q. destruct (decide (q = p)) as [->|N].
  - by rewrite E, lookup_insert_eq.
  - rewrite lookup_insert_ne by done. destruct (hp !! q); [apply same_entry_refl|done].
Qed.

Lemma matches_same k hs h h' : same_entry h h' -> matches k hs h' = matches k hs h.
Proof. intros (K & H & _). unfold matches. by rewrite K, H. Qed.

Lemma find_chain_ext hp hp' k hs c :
  heap_ext hp hp' -> find_chain hp' k hs c = find_chain hp k hs c.
Proof.
  intros X. induction c as [|x r IH]; [done|]. simpl.
  specialize (X x). destruct (hp !! x), (hp' !! x); try done.
  - rewrite (matches_same _ _ _ _ X). by rewrite IH.
  - by rewrite IH.
Qed.

Lemma find_chain_hit (hp : gmap ptr LRUHandle) k hs c p :
  c !! find_chain hp k hs c = Some p ->
  exists h, hp !! p = Some h /\ matches k hs h = true.
Proof.
  induction c as [|x r IH]; [done|]. simpl.
  destruct (hp !! x) as [h|] eqn:E.
  - destruct (matches k hs h) eqn:M; simpl; [|exact IH].
    intros [= <-]. eauto.
  - exact IH.
Qed.

Lemma find_chain_le hp k hs c : (find_chain hp k hs c <= length c)%nat.
Proof.
  induction c as [|x r IH]; simpl; [lia|].
  destruct (hp !! x) as [h|]; [destruct (matches k hs h)|]; simpl; lia.
Qed.

(** Unlinking the handle found for one key leaves the handle found for any
    other handle's key in place. *)
Lemma find_chain_delete_other (hp : gmap ptr LRUHandle) k1 hs1 k2 hs2 c p1 p2 :
  c !! find_chain hp k1 hs1 c = Some p1 ->
  c !! find_chain hp k2 hs2 c = Some p2 ->
  p1 <> p2 ->
  delete (find_chain hp k1 hs1 c) c
    !! find_chain hp k2 hs2 (delete (find_chain hp k1 hs1 c) c) = Some p2.
Proof.
  induction c as [|x r IH]; [done|]. simpl.
  destruct (hp !! x) as [h|] eqn:E.
  - destruct (matches k1 hs1 h) eqn:M1, (matches k2 hs2 h) eqn:M2; simpl.
    + intros [= <-] [= <-]. done.
    + intros [= <-] F2 N. done.
    + intros F1 [= <-] N. by rewrite E, M2.
    + intros F1 F2 N. rewrite E, M2. simpl. by apply IH.
  - simpl. intros F1 F2 N. rewrite E. simpl. by apply IH.
Qed.

(** Buckets *)
Lemma bucket_insert_eq (l : list (list ptr)) b c :
  (b < length l)%nat -> bucket (<[b := c]> l) b = c.
Proof. intros L. unfold bucket. by rewrite list_lookup_insert_eq. Qed.

Lemma bucket_insert_ne (l : list (list ptr)) b b' c :
  b <> b' -> bucket (<[b := c]> l) b' = bucket l b'.
Proof. intros N. unfold bucket. by rewrite list_lookup_insert_ne. Qed.

Lemma elem_of_concat (l : list (list ptr)) p :
  p ∈ concat l <-> exists c, p ∈ c /\ c ∈ l.
Proof.
  induction l as [|x l IH]; simpl.
  - split; [by intros ?%elem_of_nil|]. by intros (c & _ & ?%elem_of_nil).
  - rewrite elem_of_app, IH. split.
    + intros [H|(c & H1 & H2)]; [exists x|exists c]; split; try done;
        [apply list_elem_of_here|by apply list_elem_of_further].
    + intros (c & H1 & [->|H2]%elem_of_cons); [by left|right; by exists c].
Qed.

Lemma bucket_elem (l : list (list ptr)) b p : p ∈ bucket l b -> p ∈ concat l.
Proof.
  unfold bucket. destruct (l !! b) as [c|] eqn:E; simpl; [|by intros ?%elem_of_nil].
  intros H. apply elem_of_concat. exists c. split; [done|].
  by eapply list_elem_of_lookup_2.
Qed.

Lemma concat_insert_sublist (l : list (list ptr)) b c :
  c `sublist_of` bucket l b -> concat (<[b := c]> l) `sublist_of` concat l.
Proof.
  revert b. induction l as [|x l IH]; intros b S; [done|].
  destruct b as [|b]; simpl.
  - unfold bucket in S. simpl in S. by apply sublist_app.
  - apply sublist_app; [done|]. by apply IH.
Qed.

Lemma delete_sublist (c : list ptr) i : delete i c `sublist_of` c.
Proof. apply sublist_delete. Qed.

Lemma NoDup_delete_lookup (c : list ptr) i p :
  NoDup c -> c !! i = Some p -> p ∉ delete i c.
Proof.
  revert i. induction c as [|x r IH]; intros i ND E; [done|].
  apply NoDup_cons in ND as [NI ND].
  destruct i as [|i]; simpl in *.
  - by injection E as ->.
  - apply not_elem_of_cons. split.
    + intros ->. apply NI. by eapply list_elem_of_lookup_2.
    + by apply IH.
Qed.

Lemma concat_delete_not_elem (l : list (list ptr)) b i p :
  NoDup (concat l) -> bucket l b !! i = Some p ->
  p ∉ concat (<[b := delete i (bucket l b)]> l).
Proof.
  revert b. induction l as [|x l IH]; intros b ND E.
  - unfold bucket in E. by rewrite lookup_nil in E.
  - simpl in ND. apply NoDup_app in ND as (ND1 & ND2 & ND3).
    destruct b as [|b]; simpl.
    + unfold bucket in *. simpl in *. apply not_elem_of_app. split.
      * by apply NoDup_delete_lookup.
      * apply ND2. by eapply list_elem_of_lookup_2.
    + unfold bucket in *. simpl in *. apply not_elem_of_app. split.
      * intros X. apply (ND2 _ X).
        apply elem_of_concat. destruct (l !! b) as [c|] eqn:Eb; simpl in E; [|done].
        exists c. split; [by eapply list_elem_of_lookup_2|]. by eapply list_elem_of_lookup_2.
      * by apply IH.
Qed.

Lemma chain_lookup_ext hp hp' l lb k hs :
  heap_ext hp hp' -> chain_lookup hp' l lb k hs = chain_lookup hp l lb k hs.
Proof. intros X. unfold chain_lookup. by rewrite (find_chain_ext _ _ _ _ _ X). Qed.

Lemma chain_lookup_bucket hp l lb k hs p :
  chain_lookup hp l lb k hs = Some p -> (bucket_of lb hs < length l)%nat.
Proof.
  unfold chain_lookup, bucket. intros E.
  destruct (l !! bucket_of lb hs) eqn:B; [by eapply lookup_lt_Some|].
  simpl in E. done.
Qed.

Lemma chain_lookup_unlink_other hp l lb k hs p k2 hs2 p2 :
  chain_lookup hp l lb k hs = Some p ->
  chain_lookup hp l lb k2 hs2 = Some p2 ->
  p <> p2 ->
  chain_lookup hp (unlink_found hp l lb k hs) lb k2 hs2 = Some p2.
Proof.
  intros E1 E2 N. pose proof (chain_lookup_bucket _ _ _ _ _ _ E1) as L.
  unfold chain_lookup, unlink_found, unlink_at in *.
  destruct (decide (bucket_of lb hs2 = bucket_of lb hs)) as [Eb|Nb].
  - rewrite Eb in *. rewrite bucket_insert_eq by done.
    by eapply find_chain_delete_other.
  - by rewrite bucket_insert_ne.
Qed.

Lemma unlink_found_sublist hp l lb k hs :
  concat (unlink_found hp l lb k hs) `sublist_of` concat l.
Proof. apply concat_insert_sublist, sublist_delete. Qed.

Lemma unlink_found_not_elem hp l lb k hs p :
  NoDup (concat l) -> chain_lookup hp l lb k hs = Some p ->
  p ∉ concat (unlink_found hp l lb k hs).
Proof. intros ND E. by apply concat_delete_not_elem. Qed.

Lemma Table_Lookup_chain hp t k hs :
  Table_Lookup hp t k hs = chain_lookup hp (list_ t) (length_bits_ t) k hs.
Proof. done. Qed.

Lemma CBHT_Find_chain hp t k hs :
  CBHT_Find hp t k hs = chain_lookup hp (cb_list_ t) (cb_length_bits_ t) k hs.
Proof. done. Qed.

Lemma Table_Remove_found hp t k hs p :
  Table_Lookup hp t k hs = Some p ->
  Table_Remove hp t k hs =
    (mkTable (length_bits_ t) (unlink_found hp (list_ t) (length_bits_ t) k hs)
             (wrap32 (elems_ t - 1)) (max_length_bits_ t), Some p).
Proof. unfold Table_Lookup, Table_Remove. by intros ->. Qed.

Lemma CBHT_Remove_forced cfg (hp : gmap ptr LRUHandle) t k hs p h :
  CBHT_Find hp t k hs = Some p -> hp !! p = Some h ->
  stamp_ok cfg (DCAstamp h) = true ->
  exists h' pool,
    CBHT_Remove cfg hp t k hs false =
      (<[p := h']> hp,
       mkCBHT (wrap32 (cb_elems_ t - 1)) (cb_length_bits_ t)
              (unlink_found hp (cb_list_ t) (cb_length_bits_ t) k hs) (hashkeylist t)
              pool (stampincr t) (availindex t),
       Some p) /\
    same_entry h h' /\ in_cache h' = in_cache h /\ indca h' = false.
Proof.
  intros F E OK. unfold CBHT_Find, cb_chain in F. unfold CBHT_Remove.
  rewrite F, E, OK. destruct (tally_loop _ _ _ _) as [refstmp pool1]. simpl.
  eexists _, _. split; [reflexivity|]. by repeat split.
Qed.

Lemma unlink_head (old : ptr) rest : NoDup (old :: rest) -> unlink old (old :: rest) = rest.
Proof.
  intros [NI ND]%NoDup_cons. unfold unlink.
  rewrite filter_cons_False by (intros X; by apply X).
  induction rest as [|x r IH]; [done|].
  apply not_elem_of_cons in NI as [N1 N2]. apply NoDup_cons in ND as [_ ND].
  rewrite filter_cons_True by done. f_equal. by apply IH.
Qed.

Lemma unlink_found_ext hp hp' l lb k hs :
  heap_ext hp hp' -> unlink_found hp' l lb k hs = unlink_found hp l lb k hs.
Proof. intros X. unfold unlink_found. by rewrite (find_chain_ext _ _ _ _ _ X). Qed.

Lemma total_charge_same s s' h h' :
  metadata_charge_policy_ (shard s') = metadata_charge_policy_ (shard s) ->
  same_entry h h' ->
  total_charge_of meta_charge s' h' = total_charge_of meta_charge s h.
Proof.
  intros P (K & _ & C & _). unfold total_charge_of, CalcTotalCharge. by rewrite P, K, C.
Qed.

Lemma evict_one_effect cfg old rest h s :
  evict_inv cfg s -> lru_ (shard s) = old :: rest -> heap s !! old = Some h ->
  let s' := evict_one meta_charge cfg old s in
  exists h',
    heap s' = <[old := h']> (heap s) /\ same_entry h h' /\ in_cache h' = false /\
    lru_ (shard s') = rest /\
    list_ (table_ (shard s')) =
      unlink_found (heap s) (list_ (table_ (shard s))) (length_bits_ (table_ (shard s)))
                   (key h) (hash h) /\
    length_bits_ (table_ (shard s')) = length_bits_ (table_ (shard s)) /\
    cb_length_bits_ (cbhtable_ (shard s')) = cb_length_bits_ (cbhtable_ (shard s)) /\
    cb_list_ (cbhtable_ (shard s')) =
      (if CBHT_enabled cfg && indca h
       then unlink_found (heap s) (cb_list_ (cbhtable_ (shard s)))
                         (cb_length_bits_ (cbhtable_ (shard s))) (key h) (hash h)
       else cb_list_ (cbhtable_ (shard s))) /\
    usage_ (shard s') = wrap64 (usage_ (shard s) - total_charge_of meta_charge s h) /\
    capacity_ (shard s') = capacity_ (shard s) /\
    metadata_charge_policy_ (shard s') = metadata_charge_policy_ (shard s) /\
    freed s' = freed s.
Proof.
  intros I L E. 
  assert (IN : old ∈ lru_ (shard s)) by (rewrite L; apply list_elem_of_here).
  destruct (inv_lru_indexed _ _ I old IN) as (h0 & E0 & TL). rewrite E in E0. injection E0 as <-.
  (* LRU_Remove *)
  assert (S1 : exists s1, LRU_Remove meta_charge old s = s1 /\
            heap s1 = heap s /\ lru_ (shard s1) = rest /\
            table_ (shard s1) = table_ (shard s) /\ cbhtable_ (shard s1) = cbhtable_ (shard s) /\
            usage_ (shard s1) = usage_ (shard s) /\ capacity_ (shard s1) = capacity_ (shard s) /\
            metadata_charge_policy_ (shard s1) = metadata_charge_policy_ (shard s) /\
            freed s1 = freed s).
  { eexists. split; [reflexivity|]. unfold LRU_Remove.
    rewrite bool_decide_eq_true_2 by done. rewrite E. simpl.
    rewrite L, unlink_head; [done|]. rewrite <- L. apply I. }
  destruct S1 as (s1 & R1 & H1 & L1 & T1 & C1 & U1 & K1 & P1 & F1).
  (* the auxiliary table *)
  assert (S2 : exists s2 h2, invalidate_in_aux cfg old s1 = s2 /\
            heap s2 = <[old := h2]> (heap s) /\ same_entry h h2 /\ in_cache h2 = in_cache h /\
            lru_ (shard s2) = rest /\ table_ (shard s2) = table_ (shard s) /\
            cb_length_bits_ (cbhtable_ (shard s2)) = cb_length_bits_ (cbhtable_ (shard s)) /\
            cb_list_ (cbhtable_ (shard s2)) =
              (if CBHT_enabled cfg && indca h
               then unlink_found (heap s) (cb_list_ (cbhtable_ (shard s)))
                      (cb_length_bits_ (cbhtable_ (shard s))) (key h) (hash h)
               else cb_list_ (cbhtable_ (shard s))) /\
            usage_ (shard s2) = usage_ (shard s) /\ capacity_ (shard s2) = capacity_ (shard s) /\
            metadata_charge_policy_ (shard s2) = metadata_charge_policy_ (shard s) /\
            freed s2 = freed s).
  { unfold invalidate_in_aux. rewrite H1, E.
    destruct (CBHT_enabled cfg) eqn:EN; simpl.
    - destruct (indca h) eqn:A.
      + destruct (inv_aux_indexed _ _ I EN old h IN E A) as [FD OK].
        rewrite C1. unfold Remove_default_dontforce.
        destruct (CBHT_Remove_forced cfg (heap s) (cbhtable_ (shard s)) (key h) (hash h)
                    old h FD E OK) as (h' & pool & -> & SE & IC & _).
        eexists _, h'. split; [reflexivity|]. simpl. rewrite T1.
        destruct SE as (? & ? & ? & ?). by repeat split.
      + exists s1, h. rewrite H1, C1. repeat split; try done.
        by rewrite insert_id.
    - exists s1, h. rewrite H1, C1. repeat split; try done.
      by rewrite insert_id. }
  destruct S2 as (s2 & h2 & R2 & H2 & SE2 & IC2 & L2 & T2 & CB2 & CL2 & U2 & K2 & P2 & F2).
  simpl. unfold evict_one. rewrite R1, R2, H2, lookup_insert_eq.
  assert (X : heap_ext (heap s) (heap s2)).
  { rewrite H2. by eapply heap_ext_insert. }
  destruct SE2 as (Ek & Eh & Ec & Ev).
  unfold shard_table_remove. rewrite Ek, Eh, T2.
  rewrite (Table_Remove_found (heap s2) (table_ (shard s)) (key h) (hash h) old).
  2:{ rewrite Table_Lookup_chain, (chain_lookup_ext _ _ _ _ _ _ X). exact TL. }
  rewrite (unlink_found_ext _ _ _ _ _ _ X).
  exists (SetInCache false h2). unfold upd_handle. simpl.
  rewrite H2, lookup_insert_eq. simpl. rewrite insert_insert_eq.
  split; [done|]. split; [by repeat split|]. split; [done|].
  split; [done|]. split; [done|]. split; [done|]. split; [done|]. split; [done|].
  split; [|by repeat split].
  rewrite U2. f_equal. f_equal. unfold total_charge_of. simpl. rewrite P2.
  unfold CalcTotalCharge. simpl. by rewrite Ek, Ec.
Qed.

Lemma evict_one_inv cfg old rest s :
  evict_inv cfg s -> lru_ (shard s) = old :: rest ->
  evict_inv cfg (evict_one meta_charge cfg old s).
Proof.
  intros I L.
  assert (IN : old ∈ lru_ (shard s)) by (rewrite L; apply list_elem_of_here).
  destruct (inv_lru_indexed _ _ I old IN) as (h & E & TL).
  destruct (evict_one_effect cfg old rest h s I L E)
    as (h' & H' & SE & IC & L' & T' & LB' & CB' & CL' & U' & K' & P' & F').
  pose proof (inv_lru_nodup _ _ I) as ND. rewrite L in ND.
  apply NoDup_cons in ND as [NI ND].
  assert (X : heap_ext (heap s) (heap (evict_one meta_charge cfg old s))).
  { rewrite H'. by eapply heap_ext_insert. }
  assert (OTH : forall p, p ∈ rest -> p <> old /\ p ∈ lru_ (shard s) /\
                 heap (evict_one meta_charge cfg old s) !! p = heap s !! p).
  { intros p Hp. assert (p <> old) by (intros ->; done).
    split; [done|]. split; [rewrite L; by apply list_elem_of_further|].
    rewrite H'. by rewrite lookup_insert_ne. }
  constructor.
  - by rewrite L'.
  - rewrite L'. intros p Hp. destruct (OTH p Hp) as (N & INp & HP).
    destruct (inv_lru_indexed _ _ I p INp) as (hp & Ep & TLp).
    exists hp. split; [by rewrite HP|].
    rewrite Table_Lookup_chain, T', LB', (chain_lookup_ext _ _ _ _ _ _ X).
    rewrite Table_Lookup_chain in TL, TLp.
    by eapply chain_lookup_unlink_other.
  - rewrite T'. eapply sublist_NoDup; [apply (inv_table_nodup _ _ I)|].
    apply unlink_found_sublist.
  - rewrite CL'. destruct (_ && _); [|apply (inv_aux_nodup _ _ I)].
    eapply sublist_NoDup; [apply (inv_aux_nodup _ _ I)|]. apply unlink_found_sublist.
  - intros EN p hp Hp Ep A. rewrite L' in Hp. destruct (OTH p Hp) as (N & INp & HP).
    rewrite HP in Ep.
    destruct (inv_aux_indexed _ _ I EN p hp INp Ep A) as [FD OK]. split; [|done].
    rewrite CBHT_Find_chain, CL', CB', (chain_lookup_ext _ _ _ _ _ _ X).
    rewrite CBHT_Find_chain in FD. rewrite EN. simpl.
    destruct (indca h) eqn:Ah; [|done].
    destruct (inv_aux_indexed _ _ I EN old h IN E Ah) as [FDo _].
    rewrite CBHT_Find_chain in FDo. by eapply chain_lookup_unlink_other.
  - intros EN. rewrite CL', EN. simpl. by apply (inv_aux_off _ _ I).
Qed.

Lemma total_charge_range s h : 0 <= total_charge_of meta_charge s h < 2 ^ 64.
Proof.
  unfold total_charge_of, CalcTotalCharge, wrap64.
  destruct (metadata_charge_policy_ (shard s)); apply Z.mod_pos_bound; lia.
Qed.

Lemma charge_at_range s p : 0 <= charge_at meta_charge s p < 2 ^ 64.
Proof.
  unfold charge_at. destruct (heap s !! p); [apply total_charge_range|lia].
Qed.

Lemma charge_sum_nonneg s l : 0 <= charge_sum meta_charge s l.
Proof.
  induction l as [|x l IH]; simpl; [done|].
  unfold charge_sum in *. simpl. pose proof (charge_at_range s x). lia.
Qed.

Lemma charge_sum_same s s' l :
  metadata_charge_policy_ (shard s') = metadata_charge_policy_ (shard s) ->
  (forall p, p ∈ l -> heap s' !! p = heap s !! p) ->
  charge_sum meta_charge s' l = charge_sum meta_charge s l.
Proof.
  intros P H. unfold charge_sum. f_equal. apply map_ext_in. intros p Hp.
  unfold charge_at, total_charge_of. rewrite H, P; [done|]. by apply list_elem_of_In.
Qed.

Lemma charge_sum_app s l1 l2 :
  charge_sum meta_charge s (l1 ++ l2) = charge_sum meta_charge s l1 + charge_sum meta_charge s l2.
Proof.
  unfold charge_sum. induction l1 as [|x l IH]; simpl; [done|]. rewrite IH. lia.
Qed.

Lemma EvictFromLRU_loop_spec cfg chg fuel : forall s deleted,
  evict_inv cfg s -> fuel = length (lru_ (shard s)) ->
  0 <= chg -> 0 <= usage_ (shard s) -> usage_ (shard s) + chg < 2 ^ 64 ->
  charge_sum meta_charge s (lru_ (shard s)) <= usage_ (shard s) ->
  exists s' ev,
    EvictFromLRU_loop meta_charge cfg fuel chg s deleted = (s', deleted ++ ev) /\
    lru_ (shard s) = ev ++ lru_ (shard s') /\
    (usage_ (shard s') + chg <= capacity_ (shard s') \/ lru_ (shard s') = []) /\
    usage_ (shard s') = usage_ (shard s) - charge_sum meta_charge s ev /\
    evict_inv cfg s' /\
    capacity_ (shard s') = capacity_ (shard s) /\
    metadata_charge_policy_ (shard s') = metadata_charge_policy_ (shard s) /\
    freed s' = freed s /\
    heap_ext (heap s) (heap s') /\
    (forall p, p ∉ ev -> heap s' !! p = heap s !! p) /\
    concat (list_ (table_ (shard s'))) `sublist_of` concat (list_ (table_ (shard s))) /\
    concat (cb_list_ (cbhtable_ (shard s')))
      `sublist_of` concat (cb_list_ (cbhtable_ (shard s))) /\
    (forall p, p ∈ ev -> evicted_ok s s' p).
Proof.
  induction fuel as [|fuel IH]; intros s deleted I FL C0 U0 UC CS.
  - exists s, []. simpl. rewrite app_nil_r.
    symmetry in FL. apply nil_length_inv in FL.
    split_and!; try done; [by right|unfold charge_sum; simpl; lia|apply heap_ext_refl|].
    by intros p ?%elem_of_nil.
  - simpl. destruct (capacity_ (shard s) <? wrap64 (usage_ (shard s) + chg)) eqn:OV.
    2:{ exists s, []. rewrite app_nil_r.
        apply Z.ltb_ge in OV. unfold wrap64 in OV. rewrite Z.mod_small in OV by lia.
        split_and!; try done; [by left|unfold charge_sum; simpl; lia|apply heap_ext_refl|].
        by intros p ?%elem_of_nil. }
    destruct (lru_ (shard s)) as [|old rest] eqn:L; [done|].
    assert (IN : old ∈ lru_ (shard s)) by (rewrite L; apply list_elem_of_here).
    destruct (inv_lru_indexed _ _ I old IN) as (h & E & TL).
    destruct (evict_one_effect cfg old rest h s I L E)
      as (h' & H' & SE & IC & L' & T' & LB' & CB' & CL' & U' & K' & P' & F').
    pose proof (evict_one_inv cfg old rest s I L) as I'.
    set (s1 := evict_one meta_charge cfg old s) in *.
    pose proof (inv_lru_nodup _ _ I) as ND. rewrite L in ND.
    apply NoDup_cons in ND as [NI ND].
    assert (HO : forall p, p <> old -> heap s1 !! p = heap s !! p).
    { intros p N. rewrite H'. by rewrite lookup_insert_ne. }
    assert (CSr : charge_sum meta_charge s1 rest = charge_sum meta_charge s rest).
    { apply charge_sum_same; [done|]. intros p Hp. apply HO. by intros ->. }
    assert (CO : charge_at meta_charge s old = total_charge_of meta_charge s h).
    { unfold charge_at. by rewrite E. }
    pose proof (total_charge_range s h) as TR.
    pose proof (charge_sum_nonneg s rest) as RN.
    assert (CSo : charge_sum meta_charge s (old :: rest)
                  = total_charge_of meta_charge s h + charge_sum meta_charge s rest).
    { unfold charge_sum. simpl. by rewrite CO. }
    rewrite CSo in CS.
    assert (U1 : usage_ (shard s1) = usage_ (shard s) - total_charge_of meta_charge s h).
    { rewrite U'. unfold wrap64. rewrite Z.mod_small; lia. }
    destruct (IH s1 (deleted ++ [old]) I') as (s' & ev & R & Lr & EX & Us & Is & Ks & Ps & Fs
                                                & Xs & Hs & Ts & Cs & EV);
      [by rewrite L'; injection FL|done|lia|lia|rewrite L', CSr; lia|].
    exists s', (old :: ev). rewrite R, <- app_assoc. simpl.
    assert (X1 : heap_ext (heap s) (heap s1)).
    { rewrite H'. by eapply heap_ext_insert. }
    assert (EVr : forall p, p ∈ ev -> p ∈ rest).
    { intros p Hp. rewrite L' in Lr. rewrite Lr. apply elem_of_app. by left. }
    assert (NOE : old ∉ ev) by (intros Hp; apply NI; by apply EVr).
    split_and!; try done.
    + rewrite L' in Lr. by rewrite Lr.
    + rewrite Us, U1. unfold charge_sum. simpl. rewrite CO.
      fold (charge_sum meta_charge s1 ev). fold (charge_sum meta_charge s ev).
      rewrite (charge_sum_same s s1 ev); [lia|done|].
      intros p Hp. apply HO. intros ->. done.
    + by rewrite Ks.
    + by rewrite Ps.
    + by rewrite Fs.
    + by eapply heap_ext_trans.
    + intros p Hp. apply not_elem_of_cons in Hp as [N Hp]. rewrite (Hs p Hp). by apply HO.
    + etrans; [exact Ts|]. rewrite T'. apply unlink_found_sublist.
    + etrans; [exact Cs|]. rewrite CL'. destruct (_ && _); [apply unlink_found_sublist|done].
    + intros p [->|Hp]%elem_of_cons.
      * unfold evicted_ok. split_and!.
        -- intros Hp. apply NI. rewrite L' in Lr. rewrite Lr. apply elem_of_app. by right.
        -- intros Hp. eapply elem_of_sublist in Hp; [|exact Ts]. revert Hp. rewrite T'.
           apply unlink_found_not_elem; [apply (inv_table_nodup _ _ I)|].
           by rewrite <- Table_Lookup_chain.
        -- rewrite E. simpl. intros [= A] Hp.
           eapply elem_of_sublist in Hp; [|exact Cs]. revert Hp. rewrite CL'.
           destruct (CBHT_enabled cfg) eqn:EN.
           ++ rewrite A. simpl.
              destruct (inv_aux_indexed _ _ I EN old h IN E A) as [FD _].
              apply unlink_found_not_elem; [apply (inv_aux_nodup _ _ I)|].
              by rewrite <- CBHT_Find_chain.
           ++ simpl. rewrite (inv_aux_off _ _ I EN). apply not_elem_of_nil.
        -- rewrite (Hs old NOE), H', lookup_insert_eq. simpl. by rewrite IC.
      * destruct (EV p Hp) as (V1 & V2 & V3 & V4).
        unfold evicted_ok. split_and!; try done.
        intros A. apply V3. rewrite HO; [done|]. intros ->. done.
Qed.

Lemma evict_wf_inv cfg s : evict_wf cfg s = true -> evict_inv cfg s.
Proof.
  unfold evict_wf. rewrite !andb_true_iff.
  intros ((((W1 & W2) & W3) & W4) & W5).
  apply bool_decide_eq_true in W1, W3, W4.
  rewrite forallb_forall in W2.
  constructor; try done.
  - intros p Hp. apply list_elem_of_In in Hp. specialize (W2 p Hp).
    unfold indexed_in_table in W2. destruct (heap s !! p) as [h|]; [|done].
    apply bool_decide_eq_true in W2. eauto.
  - intros EN p h Hp E A. rewrite EN in W5. rewrite forallb_forall in W5.
    apply list_elem_of_In in Hp. specialize (W5 p Hp).
    unfold indexed_in_aux in W5. rewrite E, A in W5. simpl in W5.
    apply andb_true_iff in W5 as [W5 ?]. by apply bool_decide_eq_true in W5.
  - intros EN. rewrite EN in W5. by apply bool_decide_eq_true in W5.
Qed.


(** ** Frames of the eviction loop, and Insert over capacity *)

Lemma same_entry_trans h1 h2 h3 : same_entry h1 h2 -> same_entry h2 h3 -> same_entry h1 h3.
Proof. unfold same_entry. intuition congruence. Qed.

Lemma heap_ext_upd e f s :
  (forall h, same_entry h (f h)) -> heap_ext (heap s) (heap (upd_handle e f s)).
Proof.
  intros F. unfold upd_handle. destruct (heap s !! e) as [h|] eqn:E; [|apply heap_ext_refl].
  simpl. by eapply heap_ext_insert.
Qed.

Lemma heap_ext_is_Some hp hp' p : heap_ext hp hp' -> is_Some (hp !! p) -> is_Some (hp' !! p).
Proof.
  intros X [h E]. specialize (X p). rewrite E in X. destruct (hp' !! p); [eauto|done].
Qed.

Lemma CBHT_Remove_heap_ext cfg (hp : Heap) t k hs dontforce :
  heap_ext hp (CBHT_Remove cfg hp t k hs dontforce).1.1.
Proof.
  unfold CBHT_Remove.
  repeat case_match; simplify_eq; simpl; try apply heap_ext_refl.
  all: try (eapply heap_ext_insert; [done|]; by repeat split).
Qed.

Lemma LRU_Remove_frame e s :
  heap (LRU_Remove meta_charge e s) = heap s /\
  freed (LRU_Remove meta_charge e s) = freed s /\
  lru_ (shard (LRU_Remove meta_charge e s)) = unlink e (lru_ (shard s)) /\
  table_ (shard (LRU_Remove meta_charge e s)) = table_ (shard s) /\
  cbhtable_ (shard (LRU_Remove meta_charge e s)) = cbhtable_ (shard s).
Proof.
  unfold LRU_Remove. case_bool_decide as IN.
  - by destruct (heap s !! e).
  - split_and!; try done. unfold unlink. symmetry.
    induction (lru_ (shard s)) as [|x l IH]; [done|].
    apply not_elem_of_cons in IN as [N1 N2].
    rewrite filter_cons_True by done. f_equal. by apply IH.
Qed.

Lemma invalidate_in_aux_frame cfg old s :
  heap_ext (heap s) (heap (invalidate_in_aux cfg old s)) /\
  freed (invalidate_in_aux cfg old s) = freed s /\
  lru_ (shard (invalidate_in_aux cfg old s)) = lru_ (shard s) /\
  table_ (shard (invalidate_in_aux cfg old s)) = table_ (shard s).
Proof.
  unfold invalidate_in_aux.
  destruct (CBHT_enabled cfg); [|split; [apply heap_ext_refl|done]].
  destruct (heap s !! old) as [h|]; [|split; [apply heap_ext_refl|done]].
  destruct (indca h); [|split; [apply heap_ext_refl|done]].
  pose proof (CBHT_Remove_heap_ext cfg (heap s) (cbhtable_ (shard s)) (key h) (hash h)
                Remove_default_dontforce) as X.
  destruct (CBHT_Remove _ _ _ _ _ _) as [[hp t] r]. by simpl in *.
Qed.

Lemma evict_one_frame cfg old s :
  heap_ext (heap s) (heap (evict_one meta_charge cfg old s)) /\
  freed (evict_one meta_charge cfg old s) = freed s /\
  lru_ (shard (evict_one meta_charge cfg old s)) = unlink old (lru_ (shard s)).
Proof.
  unfold evict_one.
  destruct (LRU_Remove_frame old s) as (H1 & F1 & L1 & _).
  destruct (invalidate_in_aux_frame cfg old (LRU_Remove meta_charge old s)) as (X2 & F2 & L2 & _).
  rewrite H1 in X2.
  set (s2 := invalidate_in_aux cfg old (LRU_Remove meta_charge old s)) in *.
  destruct (heap s2 !! old) as [h|]; [|by rewrite F2, L2].
  simpl. rewrite upd_handle_freed, upd_handle_shard.
  destruct (shard_table_remove_frame (key h) (hash h) s2) as [F3 H3].
  split_and!.
  - eapply heap_ext_trans; [exact X2|]. rewrite <- H3.
    apply heap_ext_upd. intros h0. by repeat split.
  - by rewrite F3, F2.
  - unfold shard_table_remove. destruct (Table_Remove _ _ _ _). simpl. by rewrite L2.
Qed.

Lemma EvictFromLRU_loop_frame cfg chg fuel : forall s deleted,
  let r := EvictFromLRU_loop meta_charge cfg fuel chg s deleted in
  heap_ext (heap s) (heap r.1) /\ freed r.1 = freed s /\
  exists ev, r.2 = deleted ++ ev /\ forall p, p ∈ ev -> p ∈ lru_ (shard s).
Proof.
  induction fuel as [|fuel IH]; intros s deleted; simpl.
  - split; [apply heap_ext_refl|]. split; [done|]. exists []. rewrite app_nil_r.
    split; [done|]. by intros p ?%elem_of_nil.
  - assert (Z : heap_ext (heap s) (heap s) /\ freed s = freed s /\
                exists ev, deleted = deleted ++ ev /\ forall p, p ∈ ev -> p ∈ lru_ (shard s)).
    { split; [apply heap_ext_refl|]. split; [done|]. exists []. rewrite app_nil_r.
      split; [done|]. by intros p ?%elem_of_nil. }
    destruct (_ <? _); [|exact Z].
    destruct (lru_ (shard s)) as [|old rest] eqn:L; [exact Z|].
    destruct (evict_one_frame cfg old s) as (X1 & F1 & L1).
    destruct (IH (evict_one meta_charge cfg old s) (deleted ++ [old])) as (X2 & F2 & ev & E2 & S2).
    split; [by eapply heap_ext_trans|]. split; [by rewrite F2|].
    exists (old :: ev). rewrite E2, <- app_assoc. split; [done|].
    intros p [->|Hp]%elem_of_cons; [apply list_elem_of_here|].
    specialize (S2 p Hp). rewrite L1, L in S2.
    apply list_elem_of_filter in S2 as [_ S2]. done.
Qed.

Lemma Free_shard e s : shard (Free e s) = shard s.
Proof. unfold Free. by destruct (heap s !! e). Qed.

Lemma free_entry_shard s e : shard (free_entry s e) = shard s.
Proof.
  unfold free_entry. rewrite Free_shard. by repeat case_match.
Qed.

Lemma free_all_shard l s : shard (free_all l s) = shard s.
Proof.
  revert s. induction l as [|x l IH]; intros s; [done|].
  simpl. unfold free_all in *. simpl. by rewrite IH, free_entry_shard.
Qed.

Lemma free_entry_heap s e p :
  heap (free_entry s e) !! p = if decide (p = e) then None else heap s !! p.
Proof.
  unfold free_entry.
  match goal with |- context [Free e ?s1] => assert (H : heap s1 = heap s) by (by repeat case_match);
    generalize dependent s1 end.
  intros s1 H. unfold Free. rewrite H.
  destruct (heap s !! e) eqn:E; simpl.
  - destruct (decide (p = e)) as [->|]; [apply lookup_delete_eq|by rewrite lookup_delete_ne].
  - rewrite H. destruct (decide (p = e)) as [->|]; done.
Qed.

Lemma free_all_heap l s p :
  heap (free_all l s) !! p = if bool_decide (p ∈ l) then None else heap s !! p.
Proof.
  revert s. induction l as [|x l IH]; intros s.
  - done.
  - unfold free_all in *. simpl. rewrite IH, free_entry_heap.
    destruct (decide (p = x)) as [->|N].
    + rewrite (bool_decide_eq_true_2 (x ∈ x :: l)) by apply list_elem_of_here.
      by case_bool_decide.
    + case_bool_decide as I1; case_bool_decide as I2; try done.
      * exfalso. apply I2. by apply list_elem_of_further.
      * exfalso. apply elem_of_cons in I2 as [?|?]; done.
Qed.

Lemma free_all_app l1 l2 s : free_all (l1 ++ l2) s = free_all l2 (free_all l1 s).
Proof. unfold free_all. apply foldl_app. Qed.

Lemma free_all_snoc l e s : free_all (l ++ [e]) s = free_entry (free_all l s) e.
Proof. by rewrite free_all_app. Qed.

Lemma free_entry_last s e h :
  heap s !! e = Some h ->
  exists r, last (freed (free_entry s e)) = Some r /\ fr_ptr r = e.
Proof.
  intros E. unfold free_entry.
  match goal with |- context [Free e ?s1] => assert (H : heap s1 = heap s) by (by repeat case_match);
    generalize dependent s1 end.
  intros s1 H. unfold Free. rewrite H, E. simpl. eexists. rewrite last_snoc. done.
Qed.

(** C5, amended. Take an Insert and the state its eviction pass leaves,
    with usage + charge there below 2^64. When usage + charge exceeds
    capacity and the limit is strict or no handle is requested, the entry
    is not retained: the shard is as the eviction left it and the memory of
    the entry is released. With a handle requested Insert returns
    Incomplete and hands back null; with none it returns Ok and the entry
    is freed last, after the evicted entries, by the same loop. Insert
    returns Incomplete in no other situation. *)
Theorem Insert_over_capacity cfg k hs v chg hlp want_handle priority raw tid s :
  let e := next_addr s in
  let h := Insert_handle k hs v chg hlp priority raw in
  let s0 := alloc h s in
  let total_charge := total_charge_of meta_charge s0 h in
  let s1 := (EvictFromLRU meta_charge cfg total_charge s0 []).1 in
  let over := capacity_ (shard s1) < usage_ (shard s1) + total_charge /\
              (strict_capacity_limit_ (shard s1) = true \/ want_handle = false) in
  e ∉ lru_ (shard s) ->
  0 <= usage_ (shard s1) -> usage_ (shard s1) + total_charge < 2 ^ 64 ->
  let '(st, out, s') := Insert meta_charge cfg k hs v chg hlp want_handle priority raw tid s in
  (over ->
   shard s' = shard s1 /\ heap s' !! e = None /\
   (want_handle = true -> st = Incomplete /\ out = None) /\
   (want_handle = false ->
    st = Ok /\ exists r, last (freed s') = Some r /\ fr_ptr r = e)) /\
  (st = Incomplete <-> over /\ want_handle = true).
Proof.
  cbv zeta. unfold Insert.
  set (e := next_addr s). set (h := Insert_handle k hs v chg hlp priority raw).
  set (s0 := alloc h s). set (total_charge := total_charge_of meta_charge s0 h).
  assert (E0 : heap s0 !! e = Some h) by apply lookup_insert_eq.
  unfold InsertItem.
  destruct (heap s0 !! e) as [h'|] eqn:E0'; [|done].
  injection E0 as ->. rename E0' into E0. fold total_charge.
  pose proof (EvictFromLRU_loop_frame cfg total_charge (length (lru_ (shard s0))) s0 [])
    as (X1 & F1 & ev & EV & SUB).
  fold (EvictFromLRU meta_charge cfg total_charge s0 []) in *.
  destruct (EvictFromLRU meta_charge cfg total_charge s0 []) as [s1 lrl].
  simpl in X1, F1, EV, SUB |- *. subst lrl. intros NE U0 UC.
  assert (TCR := total_charge_range s0 h). fold total_charge in TCR.
  assert (W : wrap64 (usage_ (shard s1) + total_charge) = usage_ (shard s1) + total_charge).
  { unfold wrap64. rewrite Z.mod_small; lia. }
  rewrite W.
  assert (NEV : e ∉ ev) by (intros Hp; apply NE; by apply SUB).
  assert (is_Some (heap s1 !! e)) as [h1 E1]
    by (eapply heap_ext_is_Some; [exact X1|exists h; exact E0]).
  destruct (capacity_ (shard s1) <? usage_ (shard s1) + total_charge) eqn:OV.
  - apply Z.ltb_lt in OV.
    destruct (strict_capacity_limit_ (shard s1)) eqn:ST, want_handle eqn:WH; simpl.
    + split; [|intuition].
      intros _. rewrite free_all_shard. simpl. rewrite upd_handle_shard.
      split; [done|]. split; [|by split].
      rewrite free_all_heap. case_bool_decide; [done|]. simpl. apply lookup_delete_eq.
    + split; [|intuition discriminate].
      intros _. rewrite free_all_shard, upd_handle_shard. split; [done|].
      rewrite free_all_snoc. split; [|split; [done|]].
      * rewrite free_entry_heap. by rewrite decide_True.
      * intros _. split; [done|].
        eapply (free_entry_last _ e (SetInCache false h1)).
        rewrite free_all_heap, bool_decide_eq_false_2 by done.
        rewrite upd_handle_lookup, decide_True by done. by rewrite E1.
    + repeat case_match; simplify_eq;
        (split; [intros [_ [?|?]]; done|split; [done|intros [[_ [?|?]] _]; done]]).
    + split; [|intuition discriminate].
      intros _. rewrite free_all_shard, upd_handle_shard. split; [done|].
      rewrite free_all_snoc. split; [|split; [done|]].
      * rewrite free_entry_heap. by rewrite decide_True.
      * intros _. split; [done|].
        eapply (free_entry_last _ e (SetInCache false h1)).
        rewrite free_all_heap, bool_decide_eq_false_2 by done.
        rewrite upd_handle_lookup, decide_True by done. by rewrite E1.
  - apply Z.ltb_ge in OV. simpl.
    repeat case_match; simplify_eq;
      (split; [intros [? _]; lia|split; [done|intros [[? _] _]; lia]]).
Qed.

(** ** The auxiliary table *)

Lemma wrap_int_small x : in_int x -> wrap_int x = x.
Proof. unfold in_int, wrap_int. intros H. rewrite Z.mod_small; lia. Qed.

Lemma wrap_int_idem_l a b : wrap_int (wrap_int a + b) = wrap_int (a + b).
Proof.
  unfold wrap_int.
  replace ((a + 2 ^ 31) mod 2 ^ 32 - 2 ^ 31 + b + 2 ^ 31) with ((a + 2 ^ 31) mod 2 ^ 32 + b) by lia.
  rewrite Zplus_mod_idemp_l. f_equal. f_equal. lia.
Qed.

Lemma arr_get_set_ne a i j v : i <> j -> arr_get (arr_set a j v) i = arr_get a i.
Proof.
  intros N. unfold arr_get, arr_set.
  destruct (i <? 0) eqn:I; [done|]. destruct (j <? 0) eqn:J; [done|].
  apply Z.ltb_ge in I, J. rewrite list_lookup_insert_ne; [done|lia].
Qed.

Lemma arr_get_set_zero a j : arr_get (arr_set a j 0) j = 0.
Proof.
  unfold arr_get, arr_set. destruct (j <? 0) eqn:J; [done|].
  destruct (decide (Z.to_nat j < length a)%nat).
  - by rewrite list_lookup_insert_eq.
  - rewrite list_insert_ge by lia. by rewrite lookup_ge_None_2 by lia.
Qed.

Lemma row_from_set_below pool tc c v start n :
  c < tc + Z.of_nat start ->
  row_from (arr_set pool c v) tc start n = row_from pool tc start n.
Proof.
  intros L. unfold row_from. apply map_ext_in. intros i Hi.
  apply in_seq in Hi. apply arr_get_set_ne. lia.
Qed.


Lemma tally_fold tc dontforce n : forall start acc pool,
  (foldl (tally_step tc dontforce) (wrap_int acc, pool) (seq start n)).1 =
    wrap_int (acc + sumZ (row_from pool tc start n)) /\
  (foldl (tally_step tc dontforce) (wrap_int acc, pool) (seq start n)).2 =
    if dontforce then pool else zero_row pool tc start n.
Proof.
  induction n as [|n IH]; intros start acc pool.
  - simpl. split; [f_equal; lia|by destruct dontforce].
  - simpl seq. simpl foldl. unfold tally_step at 2 4. simpl fst. simpl snd.
    rewrite wrap_int_idem_l.
    destruct (IH (S start) (acc + arr_get pool (tc + Z.of_nat start))
                 (if dontforce then pool else arr_set pool (tc + Z.of_nat start) 0)) as [IH1 IH2].
    rewrite IH1, IH2. split.
    + f_equal. unfold row_from at 2. simpl. fold (row_from pool tc (S start) n).
      destruct dontforce; [lia|].
      rewrite row_from_set_below by lia. lia.
    + by destruct dontforce.
Qed.

Lemma tally_loop_spec cfg tc dontforce pool :
  tally_loop cfg tc dontforce pool =
  (wrap_int (sumZ (tally_row cfg pool tc)),
   if dontforce then pool else zero_row pool tc 0 (Z.to_nat (threadcount cfg))).
Proof.
  unfold tally_loop, tally_row.
  destruct (tally_fold tc dontforce (Z.to_nat (threadcount cfg)) 0%nat 0 pool) as [F1 F2].
  change (wrap_int 0) with 0 in F1, F2.
  destruct (foldl _ _ _) as [a b]. simpl in *. by subst.
Qed.

Lemma zero_row_get_out pool tc start n c :
  (c < tc + Z.of_nat start \/ tc + Z.of_nat start + Z.of_nat n <= c) ->
  arr_get (zero_row pool tc start n) c = arr_get pool c.
Proof.
  revert start pool. induction n as [|n IH]; intros start pool H; [done|].
  unfold zero_row. simpl. fold (zero_row (arr_set pool (tc + Z.of_nat start) 0) tc (S start) n).
  rewrite IH by lia. apply arr_get_set_ne. lia.
Qed.

Lemma zero_row_get_in pool tc start n i :
  (start <= i < start + n)%nat ->
  arr_get (zero_row pool tc start n) (tc + Z.of_nat i) = 0.
Proof.
  revert start pool. induction n as [|n IH]; intros start pool H; [lia|].
  unfold zero_row. simpl. fold (zero_row (arr_set pool (tc + Z.of_nat start) 0) tc (S start) n).
  destruct (decide (i = start)) as [->|].
  - rewrite zero_row_get_out by lia. apply arr_get_set_zero.
  - apply IH. lia.
Qed.

Lemma row_of_zero_row pool tc n :
  row_from (zero_row pool tc 0 n) tc 0 n = replicate n 0.
Proof.
  unfold row_from. 
  apply list_eq. intros i. rewrite list_lookup_fmap.
  destruct (decide (i < n)%nat).
  - rewrite lookup_seq_lt by done. simpl. rewrite zero_row_get_in by lia.
    by rewrite lookup_replicate_2.
  - rewrite lookup_seq_ge by lia. simpl. symmetry. apply lookup_replicate_None. lia.
Qed.

Lemma cb_set_pool_id t : cb_set_pool (DCA_ref_pool t) t = t.
Proof. by destruct t. Qed.

Lemma row_from_set_above pool tc c v n :
  tc + Z.of_nat n <= c ->
  row_from (arr_set pool c v) tc 0 n = row_from pool tc 0 n.
Proof.
  intros L. unfold row_from. apply map_ext_in. intros i Hi.
  apply in_seq in Hi. apply arr_get_set_ne. lia.
Qed.

Lemma row_zero_set pool tc c n :
  row_from pool tc 0 n = replicate n 0 ->
  row_from (arr_set pool c 0) tc 0 n = replicate n 0.
Proof.
  intros R. apply list_eq. intros i.
  assert (Ri := f_equal (fun l => l !! i) R). simpl in Ri.
  unfold row_from in *. rewrite list_lookup_fmap in *.
  destruct (seq 0 n !! i) as [j|] eqn:S; simpl in *; [|done].
  rewrite <- Ri. f_equal.
  destruct (decide (tc + Z.of_nat j = c)) as [<-|N].
  - rewrite arr_get_set_zero. 
    symmetry in Ri. apply lookup_replicate in Ri as [Ri _]. congruence.
  - by rewrite arr_get_set_ne.
Qed.

(** C1, amended. When Remove finds the entry (with a valid stamp, as Insert
    gives it), refstmp is the sum of the row of the stamp. With force=false
    and refstmp nonzero the call returns null and changes nothing.
    Otherwise it adds refstmp to refs, clamped at 0, clears in_auxiliary,
    resets the stamp, releases the slot and returns the entry; the row is
    zeroed when force=true, and left as it was (summing to 0) when
    force=false. *)
Theorem CBHT_Remove_spec cfg (hp : gmap ptr LRUHandle) t k hs dontforce p h refstmp :
  CBHT_Find hp t k hs = Some p ->
  hp !! p = Some h ->
  stamp_ok cfg (DCAstamp h) = true ->
  DCAstamp_tc h = DCAstamp h * threadcount cfg ->
  availindex t = aux_capacity cfg * threadcount cfg ->
  refstmp = sumZ (tally_row cfg (DCA_ref_pool t) (DCAstamp_tc h)) ->
  0 <= refs h < 2 ^ 31 -> in_int refstmp -> in_int (refs h + refstmp) ->
  let '(hp', t', r) := CBHT_Remove cfg hp t k hs dontforce in
  if dontforce && negb (refstmp =? 0) then
    r = None /\ hp' = hp /\ t' = t
  else
    r = Some p /\
    (exists h', hp' !! p = Some h' /\ refs h' = Z.max 0 (refs h + refstmp) /\
                indca h' = false /\ DCAstamp h' = -1) /\
    arr_get (DCA_ref_pool t') (availindex t' + DCAstamp h) = 0 /\
    tally_row cfg (DCA_ref_pool t') (DCAstamp_tc h) =
      if dontforce then tally_row cfg (DCA_ref_pool t) (DCAstamp_tc h)
      else replicate (Z.to_nat (threadcount cfg)) 0.
Proof.
  intros F E OK TC AV RS R1 R2 R3.
  unfold CBHT_Find, cb_chain in F. unfold CBHT_Remove.
  rewrite F, E, OK, tally_loop_spec, <- RS, (wrap_int_small refstmp R2).
  destruct (dontforce && negb (refstmp =? 0)) eqn:D.
  { apply andb_true_iff in D as [-> _]. by rewrite cb_set_pool_id. }
  split; [done|]. split; [|split].
  - eexists. rewrite lookup_insert_eq. split; [done|]. simpl. split; [|done].
    rewrite (wrap_int_small (refs h)) by (unfold in_int; lia).
    rewrite (wrap_int_small _ R3).
    destruct (refs h + refstmp <? 0) eqn:L.
    + apply Z.ltb_lt in L. lia.
    + apply Z.ltb_ge in L. unfold wrap32. unfold in_int in R3. rewrite Z.mod_small; lia.
  - simpl. apply arr_get_set_zero.
  - simpl. unfold tally_row.
    apply andb_true_iff in OK as [O1 O2]. apply Z.ltb_lt in O1, O2.
    destruct dontforce.
    + destruct (Z.le_gt_cases 0 (threadcount cfg)); [|by rewrite Z2Nat.nonpos by lia].
      apply row_from_set_above. rewrite AV, TC, Z2Nat.id by lia.
      unfold aux_capacity in *. nia.
    + apply row_zero_set. apply row_of_zero_row.
Qed.

(** ** Release *)

(** C10. Release of a null handle returns false and changes nothing, for
    both values of force_erase. *)
Theorem Release_null_handle cfg force_erase tid s :
  Release meta_charge cfg None force_erase tid s = (false, s).
Proof. reflexivity. Qed.

(** C2, amended. For a valid handle, Release returns true exactly when the
    call freed the entry, or when the auxiliary table is enabled and the
    entry is in it; in the second case the entry is not freed: the free
    log and the heap stay as they were. *)
Theorem Release_true_iff_freed_or_aux cfg e h force_erase tid s :
  heap s !! e = Some h ->
  let '(r, s') := Release meta_charge cfg (Some e) force_erase tid s in
  (r = true <-> entry_freed e s s' \/ (CBHT_enabled cfg = true /\ indca h = true)) /\
  (CBHT_enabled cfg = true /\ indca h = true ->
   r = true /\ freed s' = freed s /\ heap s' = heap s).
Proof.
  intros E. unfold Release. rewrite E.
  destruct (CBHT_enabled cfg && indca h) eqn:A.
  { apply andb_true_iff in A. split; [split; auto|auto]. }
  assert (NA : ~ (CBHT_enabled cfg = true /\ indca h = true)).
  { intros [A1 A2]. rewrite A1, A2 in A. done. }
  pose proof (keeps_refl e h s E) as K0.
  pose proof (keeps_upd e s s e Unref K0) as K1.
  cbv zeta.
  repeat match goal with
         | |- context [if ?c then _ else _] => destruct c eqn:?
         end;
    (split; [|tauto]);
    (split; [intros; try done; left; apply keeps_Free
            |intros [F|F]; [try done; exfalso; revert F; apply keeps_not_freed|tauto]]);
    eauto 10 using keeps_upd, keeps_with_shard, keeps_table_remove, keeps_LRU_Insert.
Qed.

(** ** Lookup *)

Lemma aux_path_frame cfg k hs hashshard tid s :
  heap (aux_path cfg k hs hashshard tid s).2 = heap s /\
  table_ (shard (aux_path cfg k hs hashshard tid s).2) = table_ (shard s).
Proof.
  unfold aux_path. by repeat case_match.
Qed.

Lemma secondary_path_trace cfg k hs hlp priority wait raw tid s :
  let '(_, _, tr) := secondary_path meta_charge cfg k hs hlp priority wait raw tid s in
  ~ In NegativeCheck tr /\ ~ In AuxLookup tr /\
  if secondary_configured s hlp
  then exists post, tr = SecondaryLookup :: post
  else tr = [].
Proof.
  unfold secondary_path, secondary_configured.
  repeat case_match; simplify_eq; simpl; split_and!;
    try (intuition (try discriminate); fail); by eexists.
Qed.

Lemma vanilla_path_trace cfg k hs hashshard tid s :
  let '(r, s', tr) := vanilla_path meta_charge cfg k hs hashshard tid s in
  r = Table_Lookup (heap s) (table_ (shard s)) k hs /\
  ~ In NegativeCheck tr /\ ~ In AuxLookup tr /\ ~ In SecondaryLookup tr /\
  (r = None -> s' = s /\ tr = [MutexLock; PrimaryLookup; MutexUnlock]).
Proof.
  unfold vanilla_path.
  repeat case_match; simplify_eq; simpl; repeat split; try done;
    intuition (try discriminate).
Qed.

Ltac fin :=
  simpl in *; try tauto;
  try (intuition (try discriminate; try congruence;
                  try (match goal with H : is_Some None |- _ => by destruct H end)); fail);
  try (split; [intros _; split_and!; eauto|tauto]; fail);
  eauto.

(** C7, amended. The check of the primary table before any lock runs
    exactly when the auxiliary table is enabled globally (ACTIVATE_PCTL is
    not 0), whatever the state of the shard, and a miss there returns null at
    once, with no other step. The auxiliary lookup runs exactly when,
    moreover, the primary table has the key and the shard is active. The
    secondary cache is consulted exactly when the auxiliary table is
    disabled, the primary lookup under the mutex misses, and a secondary
    cache and a helper with saveto_cb are present; it is consulted after the
    mutex is released. *)
Theorem Lookup_paths cfg k hs hlp priority wait raw tid s :
  let '(r, s', tr) := Lookup meta_charge cfg k hs hlp priority wait raw tid s in
  let hit := Table_Lookup (heap s) (table_ (shard s)) k hs in
  (In NegativeCheck tr <-> CBHT_enabled cfg = true) /\
  (CBHT_enabled cfg = true -> hit = None ->
   r = None /\ s' = s /\ tr = [NegativeCheck]) /\
  (In AuxLookup tr <->
   CBHT_enabled cfg = true /\ is_Some hit /\
   aux_active cfg s (Shard cfg hs * PADDING cfg) = true) /\
  (In SecondaryLookup tr <->
   CBHT_enabled cfg = false /\ hit = None /\ secondary_configured s hlp = true) /\
  (In SecondaryLookup tr ->
   exists post, tr = [MutexLock; PrimaryLookup; MutexUnlock; SecondaryLookup] ++ post).
Proof.
  unfold Lookup. set (hashshard := Shard cfg hs * PADDING cfg).
  destruct (CBHT_enabled cfg) eqn:EN.
  - destruct (Table_Lookup (heap s) (table_ (shard s)) k hs) as [e0|] eqn:HIT.
    + destruct (aux_active cfg s hashshard) eqn:ACT.
      * pose proof (aux_path_frame cfg k hs hashshard tid s) as [F1 F2].
        destruct (aux_path cfg k hs hashshard tid s) as [[p|] s1]; simpl in F1, F2.
        { simpl. split_and!; fin. }
        pose proof (vanilla_path_trace cfg k hs hashshard tid s1) as V.
        destruct (vanilla_path meta_charge cfg k hs hashshard tid s1) as [[r s2] tr].
        rewrite F1, F2, HIT in V. destruct V as (-> & V1 & V2 & V3 & V4).
        simpl. split_and!; fin.
      * pose proof (vanilla_path_trace cfg k hs hashshard tid s) as V.
        destruct (vanilla_path meta_charge cfg k hs hashshard tid s) as [[r s2] tr].
        rewrite HIT in V. destruct V as (-> & V1 & V2 & V3 & V4).
        simpl. split_and!; fin.
    + simpl. split_and!; fin.
  - pose proof (vanilla_path_trace cfg k hs hashshard tid s) as V.
    destruct (vanilla_path meta_charge cfg k hs hashshard tid s) as [[r s1] tr].
    destruct V as (-> & V1 & V2 & V3 & V4).
    destruct (Table_Lookup (heap s) (table_ (shard s)) k hs) as [e0|] eqn:HIT.
    + simpl. split_and!; fin.
    + destruct (V4 eq_refl) as [-> ->].
      pose proof (secondary_path_trace cfg k hs hlp priority wait raw tid s) as S.
      destruct (secondary_path meta_charge cfg k hs hlp priority wait raw tid s)
        as [[r2 s2] tr2].
      destruct (secondary_configured s hlp).
      * destruct S as (S1 & S2 & [post ->]). simpl.
        split_and!; fin.
      * destruct S as (_ & _ & ->). simpl. split_and!; fin.
Qed.

(** ** Construction *)

(** The comparison of doubles is antisymmetric, NaN included. *)
Lemma SFcompare_antisym (x y : double) : SFcompare y x = CompOpp <$> SFcompare x y.
Proof.
  clear meta_charge.
  destruct x as [sx|sx| |sx mx ex], y as [sy|sy| |sy my ey]; cbn; try done;
    try (by destruct sx); try (by destruct sy); try (by destruct sx, sy).
  f_equal. change (Pos.compare_cont Eq) with Pos.compare.
  rewrite (Z.compare_antisym ex ey), (Pos.compare_antisym mx my).
  destruct sx, sy; cbn; try done; destruct (ex ?= ey); cbn; try done;
    by destruct (mx ?= my)%positive.
Qed.

Lemma double_lt_le (x y : double) :
  double_is_nan x = false -> double_is_nan y = false ->
  double_lt x y = negb (double_le y x).
Proof.
  clear meta_charge. intros NX NY. unfold double_lt, double_le, SFltb, SFleb.
  rewrite (SFcompare_antisym x y).
  destruct (SFcompare x y) as [[]|] eqn:C; cbn; try done.
  by destruct x, y.
Qed.

Lemma ratio_tests (ratio : double) :
  double_is_nan ratio = false ->
  double_lt ratio double_0 || double_lt double_1 ratio = negb (ratio_in_range ratio).
Proof.
  clear meta_charge. intros N. unfold ratio_in_range.
  rewrite !double_lt_le by done. by rewrite negb_andb.
Qed.

(** C9, amended. Let high_pri_pool_ratio be a number. NewLRUCache returns
    null exactly when num_shard_bits is 20 or more, or the ratio lies
    outside [0.0, 1.0]. In every other case it returns the cache that the
    constructor builds with num_shard_bits shard bits, a negative
    num_shard_bits being replaced by GetDefaultCacheShardBits(capacity). *)
Theorem NewLRUCache_null_iff defbits cfg capacity num_shard_bits strict
    ratio policy sec :
  double_is_nan ratio = false ->
  let bits := if num_shard_bits <? 0 then defbits capacity else num_shard_bits in
  let r := NewLRUCache meta_charge defbits cfg capacity num_shard_bits strict ratio
             policy sec in
  (r = None <-> 20 <= num_shard_bits \/ ratio_in_range ratio = false) /\
  (r <> None ->
   r = Some (LRUCache_new meta_charge cfg capacity bits strict ratio policy sec) /\
   num_shards_ (LRUCache_new meta_charge cfg capacity bits strict ratio policy sec)
   = wrap_int (Z.shiftl 1 bits)).
Proof.
  intros N. cbv zeta. unfold NewLRUCache. rewrite (ratio_tests ratio N).
  destruct (20 <=? num_shard_bits) eqn:B.
  { apply Z.leb_le in B. split; [tauto|done]. }
  apply Z.leb_gt in B.
  destruct (ratio_in_range ratio); cbn.
  - split; [|done]. split; [done|]. intros [?|?]; [lia|done].
  - split; [tauto|done].
Qed.

(** ** Overwriting inserts *)

Lemma same_cached_refl h : same_cached h h.
Proof. split; [apply same_entry_refl|done]. Qed.

Lemma same_cached_trans h1 h2 h3 :
  same_cached h1 h2 -> same_cached h2 h3 -> same_cached h1 h3.
Proof.
  intros [E1 C1] [E2 C2]. split; [by eapply same_entry_trans|congruence].
Qed.

Lemma heap_cached_refl hp : heap_cached hp hp.
Proof. intros p. destruct (hp !! p); [apply same_cached_refl|done]. Qed.

Lemma heap_cached_trans hp1 hp2 hp3 :
  heap_cached hp1 hp2 -> heap_cached hp2 hp3 -> heap_cached hp1 hp3.
Proof.
  intros H1 H2 p. specialize (H1 p). specialize (H2 p).
  destruct (hp1 !! p), (hp2 !! p), (hp3 !! p); try done.
  by eapply same_cached_trans.
Qed.

Lemma heap_cached_insert (hp : Heap) p h h' :
  hp !! p = Some h -> same_cached h h' -> heap_cached hp (<[p := h']> hp).
Proof.
  intros E S q. destruct (decide (q = p)) as [->|N].
  - by rewrite E, lookup_insert_eq.
  - rewrite lookup_insert_ne by done. destruct (hp !! q); [apply same_cached_refl|done].
Qed.

Lemma heap_cached_ext hp hp' : heap_cached hp hp' -> heap_ext hp hp'.
Proof.
  intros H p. specialize (H p). destruct (hp !! p), (hp' !! p); try done. by destruct H.
Qed.





Lemma heap_cached_upd e f s :
  (forall h, same_cached h (f h)) -> heap_cached (heap s) (heap (upd_handle e f s)).
Proof.
  intros F. unfold upd_handle. destruct (heap s !! e) as [h|] eqn:E; [|apply heap_cached_refl].
  simpl. by eapply heap_cached_insert.
Qed.


Lemma CBHT_Remove_cached cfg (hp : Heap) t k hs dontforce :
  heap_cached hp (CBHT_Remove cfg hp t k hs dontforce).1.1.
Proof.
  unfold CBHT_Remove.
  repeat case_match; simplify_eq; simpl; try apply heap_cached_refl.
  all: eapply heap_cached_insert; [done|]; by repeat split.
Qed.



Lemma invalidate_in_aux_cached cfg old s :
  heap_cached (heap s) (heap (invalidate_in_aux cfg old s)).
Proof.
  unfold invalidate_in_aux.
  destruct (CBHT_enabled cfg); [|apply heap_cached_refl].
  destruct (heap s !! old) as [h|]; [|apply heap_cached_refl].
  destruct (indca h); [|apply heap_cached_refl].
  pose proof (CBHT_Remove_cached cfg (heap s) (cbhtable_ (shard s)) (key h) (hash h)
                Remove_default_dontforce) as X.
  destruct (CBHT_Remove _ _ _ _ _ _) as [[hp t] r]. by simpl in *.
Qed.






Lemma MaintainPoolSize_loop_shape rest : forall s,
  let s' := MaintainPoolSize_loop meta_charge rest s in
  heap_cached (heap s) (heap s') /\ lru_ (shard s') = lru_ (shard s) /\
  table_ (shard s') = table_ (shard s) /\ cbhtable_ (shard s') = cbhtable_ (shard s) /\
  usage_ (shard s') = usage_ (shard s) /\ ctl s' = ctl s.
Proof.
  induction rest as [|x rest IH]; intros s; simpl.
  - destruct (double_lt _ _); split; try done; apply heap_cached_refl.
  - destruct (double_lt _ _); [|split; [apply heap_cached_refl|done]].
    match goal with |- context [MaintainPoolSize_loop _ rest ?s0] =>
      destruct (IH s0) as (C & L & T & B & U & K) end.
    cbn in C, L, T, B, U, K. rewrite ?upd_handle_shard in *.
    split_and!; try done.
    + eapply heap_cached_trans; [|exact C]. apply heap_cached_upd.
      intros h. by repeat split.
    + rewrite K. unfold upd_handle. by destruct (heap s !! x).
Qed.

Lemma link_after_elem q e l p : p ∈ link_after q e l -> p = e \/ p ∈ l.
Proof.
  induction l as [|x l IH]; simpl.
  - intros H. apply list_elem_of_singleton in H. by left.
  - destruct (decide (x = q)).
    + intros [->|[->|H]%elem_of_cons]%elem_of_cons; auto.
      * right. apply list_elem_of_here.
      * right. by apply list_elem_of_further.
    + intros [->|H]%elem_of_cons; [right; apply list_elem_of_here|].
      destruct (IH H) as [?|?]; [by left|right; by apply list_elem_of_further].
Qed.

Lemma LRU_Insert_shape e s :
  let s' := LRU_Insert meta_charge e s in
  heap_cached (heap s) (heap s') /\
  (forall p, p ∈ lru_ (shard s') -> p = e \/ p ∈ lru_ (shard s)) /\
  table_ (shard s') = table_ (shard s) /\ cbhtable_ (shard s') = cbhtable_ (shard s) /\
  usage_ (shard s') = usage_ (shard s) /\ ctl s' = ctl s.
Proof.
  unfold LRU_Insert. case_bool_decide as IN.
  { split; [apply heap_cached_refl|]. split; [by right|done]. }
  destruct (heap s !! e) as [h|] eqn:E.
  2:{ split; [apply heap_cached_refl|]. split; [by right|done]. }
  assert (CU : forall b, heap_cached (heap s) (heap (upd_handle e (SetInHighPriPool b) s))).
  { intros b. apply heap_cached_upd. intros h0. by repeat split. }
  assert (KU : forall b, ctl (upd_handle e (SetInHighPriPool b) s) = ctl s).
  { intros b. unfold upd_handle. by destruct (heap s !! e). }
  destruct (_ && _).
  - unfold MaintainPoolSize.
    match goal with |- context [MaintainPoolSize_loop _ ?r ?s0] =>
      pose proof (MaintainPoolSize_loop_shape r s0) as M;
      generalize dependent (MaintainPoolSize_loop meta_charge r s0) end.
    intros s3 (C & L & T & B & U & K).
    cbn in C, L, T, B, U, K. rewrite ?upd_handle_shard in *. cbn.
    split_and!; try done.
    + eapply heap_cached_trans; [apply (CU true)|exact C].
    + intros p. rewrite L. intros [H|H]%elem_of_app; [by right|].
      apply list_elem_of_singleton in H. by left.
    + by rewrite K, KU.
  - simpl. rewrite ?upd_handle_shard. split_and!; try done; try apply (CU false); try apply KU.
    intros p. destruct (lru_low_pri_ (shard s)) as [q|]; [apply link_after_elem|].
    intros [->|H]%elem_of_cons; auto.
Qed.

Lemma heap_ext_sub hp hp' : heap_ext hp hp' -> heap_sub hp hp'.
Proof.
  intros X p h' E. specialize (X p). rewrite E in X.
  destruct (hp !! p) as [h|]; [eauto|done].
Qed.

Lemma heap_sub_trans hp1 hp2 hp3 : heap_sub hp1 hp2 -> heap_sub hp2 hp3 -> heap_sub hp1 hp3.
Proof.
  intros H1 H2 p h3 E3. destruct (H2 p h3 E3) as (h2 & E2 & S2).
  destruct (H1 p h2 E2) as (h1 & E1 & S1). exists h1. split; [done|].
  by eapply same_entry_trans.
Qed.



Lemma find_chain_sub_none (hp hp' : Heap) k hs c :
  heap_sub hp hp' ->
  c !! find_chain hp k hs c = None ->
  c !! find_chain hp' k hs c = None.
Proof.
  intros S. induction c as [|x r IH]; [done|]. simpl.
  destruct (hp !! x) as [h|] eqn:E.
  - destruct (matches k hs h) eqn:M; [done|]. simpl. intros F.
    destruct (hp' !! x) as [h'|] eqn:E'.
    + destruct (S x h' E') as (h0 & E0 & SE). rewrite E in E0. injection E0 as <-.
      rewrite (matches_same _ _ _ _ SE), M. simpl. by apply IH.
    + simpl. by apply IH.
  - simpl. intros F. destruct (hp' !! x) as [h'|] eqn:E'.
    + destruct (S x h' E') as (h0 & E0 & _). congruence.
    + simpl. by apply IH.
Qed.


Lemma chain_lookup_sub_none hp hp' l lb k hs :
  heap_sub hp hp' -> chain_lookup hp l lb k hs = None ->
  chain_lookup hp' l lb k hs = None.
Proof. intros S. unfold chain_lookup. by apply find_chain_sub_none. Qed.

(** [*ptr = h] at the slot FindPointer returned puts [h] where a later
    FindPointer for its key stops. *)
Lemma find_chain_store (hp : Heap) k hs c e h :
  hp !! e = Some h -> matches k hs h = true ->
  store_at c (find_chain hp k hs c) e
    !! find_chain hp k hs (store_at c (find_chain hp k hs c) e) = Some e.
Proof.
  intros E M. unfold store_at. induction c as [|x r IH]; simpl.
  - by rewrite E, M.
  - destruct (hp !! x) as [hx|] eqn:Ex.
    + destruct (matches k hs hx) eqn:Mx.
      * rewrite decide_True by (simpl; lia). simpl. by rewrite E, M.
      * destruct (decide (S (find_chain hp k hs r) < S (length r))%nat).
        -- simpl. rewrite Ex, Mx. simpl.
           rewrite decide_True in IH by lia. exact IH.
        -- simpl. rewrite Ex, Mx. simpl.
           rewrite decide_False in IH by lia. exact IH.
    + destruct (decide (S (find_chain hp k hs r) < S (length r))%nat).
      * simpl. rewrite Ex. simpl. rewrite decide_True in IH by lia. exact IH.
      * simpl. rewrite Ex. simpl. rewrite decide_False in IH by lia. exact IH.
Qed.

Lemma chain_lookup_store (hp : Heap) l lb k hs e h :
  hp !! e = Some h -> matches k hs h = true ->
  (bucket_of lb hs < length l)%nat ->
  chain_lookup hp
    (<[bucket_of lb hs :=
         store_at (bucket l (bucket_of lb hs))
                  (find_chain hp k hs (bucket l (bucket_of lb hs))) e]> l) lb k hs = Some e.
Proof.
  intros E M L. unfold chain_lookup. rewrite bucket_insert_eq by done.
  by eapply find_chain_store.
Qed.

Lemma matches_self h : matches (key h) (hash h) h = true.
Proof. unfold matches. by rewrite !bool_decide_eq_true_2. Qed.


Lemma CBHT_Insert_room cfg (hp : Heap) t e tid he :
  CBHT_IsTableFull t = false -> hp !! e = Some he ->
  (bucket_of (cb_length_bits_ t) (hash he) < length (cb_list_ t))%nat ->
  CBHT_Find (CBHT_Insert cfg hp t e tid).1.1 (CBHT_Insert cfg hp t e tid).1.2
            (key he) (hash he) = Some e.
Proof.
  intros NF E L. unfold CBHT_Insert. rewrite NF, NF, E.
  destruct (stamp_scan _ _ _ _ _ _) as [[pool1 stamptmp] incr1]. simpl.
  rewrite CBHT_Find_chain. simpl.
  assert (X : heap_ext hp
            (<[e := set_DCAstamp stamptmp (wrap_int (stamptmp * threadcount cfg))
                      (set_indca true he)]> hp)).
  { eapply heap_ext_insert; [done|]. by repeat split. }
  rewrite (chain_lookup_ext _ _ _ _ _ _ X).
  eapply chain_lookup_store; [exact E|apply matches_self|done].
Qed.

Lemma LRU_Remove_shape e s :
  let s' := LRU_Remove meta_charge e s in
  heap s' = heap s /\ freed s' = freed s /\ ctl s' = ctl s /\
  lru_ (shard s') = unlink e (lru_ (shard s)) /\
  table_ (shard s') = table_ (shard s) /\ cbhtable_ (shard s') = cbhtable_ (shard s) /\
  usage_ (shard s') = usage_ (shard s) /\
  metadata_charge_policy_ (shard s') = metadata_charge_policy_ (shard s).
Proof.
  destruct (LRU_Remove_frame e s) as (H & F & L & T & C).
  split_and!; try done; unfold LRU_Remove; repeat case_match; done.
Qed.

Lemma unlink_not_elem e l : e ∉ unlink e l.
Proof. unfold unlink. intros [H _]%list_elem_of_filter. by apply H. Qed.



(** *** A Lookup that hits returns the handle the tables hold *)








Lemma heap_cached_lookup (hp hp' : Heap) p h :
  heap_cached hp hp' -> hp !! p = Some h -> exists h', hp' !! p = Some h' /\ same_cached h h'.
Proof.
  intros X E. specialize (X p). rewrite E in X. destruct (hp' !! p); [eauto|done].
Qed.

Lemma free_entry_present s e h :
  heap s !! e = Some h ->
  freed (free_entry s e) = freed s ++ [mkFree e (key h) (value h)].
Proof.
  intros E. unfold free_entry.
  match goal with |- context [Free e ?s1] =>
    assert (H : heap s1 = heap s /\ freed s1 = freed s) by (by repeat case_match);
    generalize dependent s1 end.
  intros s1 [H F]. unfold Free. rewrite H, E. simpl. by rewrite F.
Qed.



(** ** The hash tables under their representation invariant *)

Lemma chains_wf_ok hp l lb : chains_wf hp l lb = true <-> chains_ok hp l lb.
Proof.
  unfold chains_wf, chains_ok. rewrite !andb_true_iff, !bool_decide_eq_true.
  rewrite Z.leb_le, Z.leb_le, forallb_forall. split.
  - intros ((((L & B0) & B1) & N) & F). split_and!; try done.
    intros p Hp. apply list_elem_of_In in Hp. specialize (F p Hp).
    unfold chained_ok in F. destruct (hp !! p) as [h|]; [|done].
    rewrite !andb_true_iff, bool_decide_eq_true, Z.leb_le, Z.ltb_lt in F.
    exists h. split; [done|]. split; [lia|]. apply F.
  - intros (L & B & N & F). split_and!; try done; try lia.
    intros p Hp. apply list_elem_of_In in Hp. destruct (F p Hp) as (h & E & R & C).
    unfold chained_ok. rewrite E.
    rewrite !andb_true_iff, bool_decide_eq_true, Z.leb_le, Z.ltb_lt. split; [lia|done].
Qed.

Lemma bucket_of_range lb hs :
  0 <= lb <= 32 -> 0 <= hs < 2 ^ 32 -> (bucket_of lb hs < Z.to_nat (2 ^ lb))%nat.
Proof.
  intros B H. unfold bucket_of. rewrite Z.shiftr_div_pow2 by lia.
  apply Z2Nat.inj_lt; [apply Z.div_pos; lia|lia|].
  apply Z.div_lt_upper_bound; [lia|].
  rewrite <- Z.pow_add_r by lia. replace (32 - lb + lb) with 32 by lia. lia.
Qed.

Lemma matches_iff k hs h : matches k hs h = true <-> hash h = hs /\ key h = k.
Proof. unfold matches. by rewrite andb_true_iff, !bool_decide_eq_true. Qed.

(** Under the invariant a lookup finds exactly the chained handle with the
    key and hash asked for. *)
Lemma chain_lookup_iff hp l lb k hs p :
  chains_ok hp l lb ->
  chain_lookup hp l lb k hs = Some p <->
  p ∈ concat l /\ exists h, hp !! p = Some h /\ matches k hs h = true.
Proof.
  intros (_ & _ & _ & F). split.
  - intros C. split.
    + unfold chain_lookup in C. apply list_elem_of_lookup_2 in C. by eapply bucket_elem.
    + unfold chain_lookup in C. by apply find_chain_hit in C.
  - intros (Hp & h & E & M). destruct (F p Hp) as (h' & E' & _ & C).
    simplify_eq. apply matches_iff in M as [<- <-]. exact C.
Qed.

Lemma option_eq_iff {A} (a b : option A) :
  (forall x, a = Some x <-> b = Some x) -> a = b.
Proof.
  intros H. destruct a as [x|].
  - symmetry. by apply H.
  - destruct b as [y|]; [|done]. by apply H.
Qed.

(** Two well-formed tables over the same heap that chain the same handles
    answer every lookup alike. *)
Lemma chain_lookup_same_elems hp l lb l' lb' k hs :
  chains_ok hp l lb -> chains_ok hp l' lb' ->
  (forall p, p ∈ concat l' <-> p ∈ concat l) ->
  chain_lookup hp l' lb' k hs = chain_lookup hp l lb k hs.
Proof.
  intros O O' S. apply option_eq_iff. intros p.
  rewrite (chain_lookup_iff hp l lb k hs p O), (chain_lookup_iff hp l' lb' k hs p O').
  by rewrite S.
Qed.

Lemma bucket_cons_0 (c : list ptr) l : bucket (c :: l) 0 = c.
Proof. done. Qed.

Lemma bucket_cons_S (c : list ptr) l i : bucket (c :: l) (S i) = bucket l i.
Proof. done. Qed.

Lemma concat_bucket_split (l : list (list ptr)) b :
  (b < length l)%nat ->
  concat l = concat (take b l) ++ bucket l b ++ concat (drop (S b) l) /\
  forall c', concat (<[b := c']> l) = concat (take b l) ++ c' ++ concat (drop (S b) l).
Proof.
  intros L. destruct (lookup_lt_is_Some_2 l b L) as [c E].
  unfold bucket. rewrite E. simpl. split.
  - rewrite <- (take_drop_middle l b c E) at 1. by rewrite concat_app.
  - intros c'. rewrite insert_take_drop by done. by rewrite concat_app.
Qed.

Lemma concat_replicate_nil n : concat (replicate n ([] : list ptr)) = [].
Proof. induction n; [done|]. by simpl. Qed.

Lemma concat_insert_perm (l : list (list ptr)) i p :
  (i < length l)%nat -> concat (<[i := p :: bucket l i]> l) ≡ₚ p :: concat l.
Proof.
  intros L. destruct (concat_bucket_split l i L) as [E1 E2].
  rewrite E2, E1. simpl. symmetry. apply Permutation_middle.
Qed.

Lemma find_chain_elem (hp : Heap) k hs c p h :
  p ∈ c -> hp !! p = Some h -> matches k hs h = true ->
  exists q, c !! find_chain hp k hs c = Some q.
Proof.
  induction c as [|x c IH]; intros Hp E M.
  - by apply elem_of_nil in Hp.
  - simpl. destruct (hp !! x) as [hx|] eqn:Ex.
    + destruct (matches k hs hx) eqn:Mx; [by exists x|].
      apply elem_of_cons in Hp as [->|Hp]; [congruence|]. simpl. by apply IH.
    + apply elem_of_cons in Hp as [->|Hp]; [congruence|]. simpl. by apply IH.
Qed.

(** *** Resize *)

Lemma rehash_one_length hp lb' acc p : length (rehash_one hp lb' acc p) = length acc.
Proof. unfold rehash_one. destruct (hp !! p); [|done]. by rewrite length_insert. Qed.

Lemma rehash_fold_length hp lb' ps : forall acc,
  length (foldl (rehash_one hp lb') acc ps) = length acc.
Proof.
  induction ps as [|q ps IH]; intros acc; [done|].
  simpl. by rewrite IH, rehash_one_length.
Qed.

Lemma rehash_fold_perm (hp : Heap) lb' ps : forall acc,
  (forall p, p ∈ ps -> exists h, hp !! p = Some h /\
                               (bucket_of lb' (hash h) < length acc)%nat) ->
  concat (foldl (rehash_one hp lb') acc ps) ≡ₚ ps ++ concat acc.
Proof.
  induction ps as [|q ps IH]; intros acc F; [done|].
  simpl. destruct (F q) as (h & E & L); [apply list_elem_of_here|].
  rewrite IH.
  - unfold rehash_one. rewrite E. rewrite concat_insert_perm by done.
    symmetry. apply Permutation_middle.
  - intros p Hp. destruct (F p) as (h' & E' & L'); [by apply list_elem_of_further|].
    exists h'. by rewrite rehash_one_length.
Qed.

Lemma rehash_one_bucket (hp : Heap) lb' acc q b p :
  p ∈ bucket (rehash_one hp lb' acc q) b <->
  p ∈ bucket acc b \/
  (p = q /\ exists h, hp !! q = Some h /\ bucket_of lb' (hash h) = b /\ (b < length acc)%nat).
Proof.
  unfold rehash_one. destruct (hp !! q) as [h|] eqn:E.
  - destruct (decide (bucket_of lb' (hash h) = b)) as [<-|NE].
    + destruct (decide (bucket_of lb' (hash h) < length acc)%nat) as [L|L].
      * rewrite bucket_insert_eq by done. rewrite elem_of_cons. split.
        -- intros [->|?]; [right|by left]. split; [done|]. by exists h.
        -- intros [?|[-> _]]; [by right|by left].
      * rewrite list_insert_ge by lia. split; [by left|].
        intros [?|(_ & h' & ? & ? & ?)]; [done|]. simplify_eq. lia.
    + rewrite bucket_insert_ne by done. split; [by left|].
      intros [?|(_ & h' & ? & ? & ?)]; [done|]. simplify_eq.
  - split; [by left|]. intros [?|(_ & h' & ? & _)]; [done|]. simplify_eq.
Qed.

Lemma rehash_fold_bucket (hp : Heap) lb' ps : forall acc b p,
  p ∈ bucket (foldl (rehash_one hp lb') acc ps) b <->
  p ∈ bucket acc b \/
  (p ∈ ps /\ exists h, hp !! p = Some h /\ bucket_of lb' (hash h) = b /\ (b < length acc)%nat).
Proof.
  induction ps as [|q ps IH]; intros acc b p.
  - simpl. split; [by left|]. intros [?|[H _]]; [done|]. by apply elem_of_nil in H.
  - simpl. rewrite IH, rehash_one_bucket, rehash_one_length, elem_of_cons. split.
    + intros [[?|(-> & h & ? & ? & ?)]|(? & h & ? & ? & ?)]; [by left|right..].
      * split; [by left|]. by exists h.
      * split; [by right|]. by exists h.
    + intros [?|([->|?] & h & ? & ? & ?)]; [by left; left|left; right|right].
      * split; [done|]. by exists h.
      * split; [done|]. by exists h.
Qed.

(** Rehashing the chained handles into twice as many buckets keeps the
    invariant and the set of chained handles. *)
Lemma rehash_ok (hp : Heap) l lb :
  chains_ok hp l lb -> lb < 32 ->
  let l' := foldl (rehash_one hp (lb + 1)) (replicate (Z.to_nat (2 ^ (lb + 1))) [])
                  (concat l) in
  chains_ok hp l' (lb + 1) /\ concat l' ≡ₚ concat l.
Proof.
  intros O B. pose proof O as (L & B0 & N & F). cbv zeta.
  set (n := Z.to_nat (2 ^ (lb + 1))).
  set (l' := foldl _ _ _).
  assert (P : concat l' ≡ₚ concat l).
  { subst l'. rewrite rehash_fold_perm.
    - by rewrite concat_replicate_nil, app_nil_r.
    - intros p Hp. destruct (F p Hp) as (h & E & R & _). exists h. split; [done|].
      rewrite length_replicate. apply bucket_of_range; [lia|done]. }
  split; [|done]. split_and!.
  - subst l'. by rewrite rehash_fold_length, length_replicate.
  - lia.
  - lia.
  - by rewrite P.
  - intros p Hp. rewrite P in Hp. destruct (F p Hp) as (h & E & R & C).
    exists h. split; [done|]. split; [done|].
    assert (Hb : p ∈ bucket l' (bucket_of (lb + 1) (hash h))).
    { subst l'. apply rehash_fold_bucket. right. split; [done|]. exists h.
      split; [done|]. split; [done|]. rewrite length_replicate.
      apply bucket_of_range; [lia|done]. }
    destruct (find_chain_elem hp (key h) (hash h) _ p h Hb E (matches_self h)) as [q Q].
    unfold chain_lookup. rewrite Q. f_equal.
    assert (Hq : q ∈ concat l).
    { rewrite <- P. eapply bucket_elem. by eapply list_elem_of_lookup_2. }
    apply find_chain_hit in Q as (hq & Eq & Mq).
    assert (C' : chain_lookup hp l lb (key h) (hash h) = Some q).
    { apply chain_lookup_iff; [done|]. split; [done|]. by exists hq. }
    congruence.
Qed.

Lemma Table_Resize_ok hp t :
  chains_ok hp (list_ t) (length_bits_ t) ->
  let t' := Table_Resize hp t in
  chains_ok hp (list_ t') (length_bits_ t') /\
  concat (list_ t') ≡ₚ concat (list_ t) /\ elems_ t' = elems_ t /\
  max_length_bits_ t' = max_length_bits_ t.
Proof.
  intros O. cbv zeta. unfold Table_Resize.
  destruct (max_length_bits_ t <=? length_bits_ t); [done|].
  destruct (31 <=? length_bits_ t) eqn:B; [done|]. apply Z.leb_gt in B.
  destruct (rehash_ok hp (list_ t) (length_bits_ t) O) as [O' P]; [lia|]. done.
Qed.

(** *** Storing and unlinking in a chain *)

Lemma mid_swap (A X B : list ptr) e :
  NoDup (A ++ X ++ B) -> e ∉ A ++ X ++ B ->
  NoDup (A ++ [e] ++ B) /\
  forall p, p ∈ A ++ [e] ++ B <-> p = e \/ (p ∈ A ++ X ++ B /\ p ∉ X).
Proof.
  rewrite !NoDup_app, !not_elem_of_app. intros (NA & D1 & NX & D2 & NB) (EA & EX & EB).
  split.
  - split_and!; try done.
    + intros x Hx. rewrite not_elem_of_app. split.
      * intros ->%list_elem_of_singleton. done.
      * specialize (D1 x Hx). rewrite not_elem_of_app in D1. by destruct D1.
    + apply NoDup_singleton.
    + by intros x ->%list_elem_of_singleton.
  - intros p. rewrite !elem_of_app, list_elem_of_singleton. split.
    + intros [Hp|[->|Hp]]; [right|by left|right].
      * split; [by left|]. specialize (D1 p Hp). rewrite not_elem_of_app in D1.
        by destruct D1.
      * split; [by right; right|]. intros Hx. by apply (D2 p Hx).
    + intros [->|[[?|[?|?]] NX']]; [by right; left|by left|done|by right; right].
Qed.

Lemma mid_drop (A B : list ptr) p :
  NoDup (A ++ [p] ++ B) ->
  NoDup (A ++ B) /\ forall q, q ∈ A ++ B <-> q ∈ A ++ [p] ++ B /\ q <> p.
Proof.
  rewrite !NoDup_app. intros (NA & D1 & _ & D2 & NB). split.
  - split_and!; try done. intros x Hx. specialize (D1 x Hx).
    rewrite not_elem_of_app in D1. by destruct D1.
  - intros q. rewrite !elem_of_app, list_elem_of_singleton. split.
    + intros [Hq|Hq].
      * split; [by left|]. intros ->. specialize (D1 p Hq).
        rewrite not_elem_of_app in D1. destruct D1 as [D1 _]. apply D1.
        apply list_elem_of_here.
      * split; [by right; right|]. intros ->. apply (D2 p); [apply list_elem_of_here|done].
    + intros [[?|[?|?]] ?]; [by left|done|by right].
Qed.

Lemma find_chain_app_found (hp : Heap) k hs c c2 p :
  c !! find_chain hp k hs c = Some p ->
  find_chain hp k hs (c ++ c2) = find_chain hp k hs c.
Proof.
  induction c as [|x c IH]; [done|]. simpl.
  destruct (hp !! x) as [hx|]; [destruct (matches k hs hx); [done|]|];
    simpl; intros H; f_equal; by apply IH.
Qed.

Lemma find_chain_insert_nonmatch (hp : Heap) k hs c : forall i o e,
  c !! i = Some o ->
  (forall ho, hp !! o = Some ho -> matches k hs ho = false) ->
  (forall h, hp !! e = Some h -> matches k hs h = false) ->
  find_chain hp k hs (<[i := e]> c) = find_chain hp k hs c.
Proof.
  induction c as [|x c IH]; intros i o e E Mo Me; [done|].
  destruct i as [|i]; simpl in *.
  - simplify_eq. destruct (hp !! e) as [he|] eqn:Ee, (hp !! o) as [ho|] eqn:Eo;
      rewrite ?(Me _ eq_refl), ?(Mo _ eq_refl); done.
  - destruct (hp !! x) as [hx|]; [destruct (matches k hs hx); [done|]|];
      f_equal; by eapply IH.
Qed.

(** Storing a handle that is not chained yet, at the slot FindPointer
    gives for its key, keeps the invariant; the handle that had the key,
    if any, leaves the chains. *)
Lemma store_ok (hp : Heap) l lb e h :
  chains_ok hp l lb -> hp !! e = Some h -> 0 <= hash h < 2 ^ 32 -> e ∉ concat l ->
  let b := bucket_of lb (hash h) in
  let c := bucket l b in
  let i := find_chain hp (key h) (hash h) c in
  let l' := <[b := store_at c i e]> l in
  chains_ok hp l' lb /\
  (forall p, p ∈ concat l' <-> p = e \/ (p ∈ concat l /\ c !! i <> Some p)) /\
  length (concat l')
  = match c !! i with Some _ => length (concat l) | None => S (length (concat l)) end.
Proof.
  intros O E R NE. pose proof O as (L & B0 & N & F). cbv zeta.
  set (b := bucket_of lb (hash h)). set (c := bucket l b).
  set (i := find_chain hp (key h) (hash h) c).
  assert (Lb : (b < length l)%nat) by (rewrite L; by apply bucket_of_range).
  destruct (concat_bucket_split l b Lb) as [S1 S2]. fold c in S1.
  set (l' := <[b := store_at c i e]> l).
  (* the two lists of chained handles differ in one cell *)
  assert (SH : exists A X B,
             concat l = A ++ X ++ B /\ concat l' = A ++ [e] ++ B /\
             (forall p, p ∈ X <-> c !! i = Some p) /\
             length X = match c !! i with Some _ => 1%nat | None => 0%nat end).
  { subst l'. rewrite (S2 _). unfold store_at. destruct (c !! i) as [o|] eqn:Ci.
    - pose proof (lookup_lt_Some _ _ _ Ci) as Li. rewrite decide_True by done.
      exists (concat (take b l) ++ take i c), [o], (drop (S i) c ++ concat (drop (S b) l)).
      split_and!.
      + rewrite S1. rewrite <- (take_drop_middle c i o Ci) at 1.
        by rewrite <- !app_assoc.
      + rewrite insert_take_drop by done. by rewrite <- !app_assoc.
      + intros p. rewrite list_elem_of_singleton. split; [by intros ->|by intros [= ->]].
      + done.
    - pose proof (lookup_ge_None_1 _ _ Ci) as Li. rewrite decide_False by lia.
      exists (concat (take b l) ++ c), [], (concat (drop (S b) l)). split_and!.
      + rewrite S1. by rewrite <- !app_assoc.
      + by rewrite <- !app_assoc.
      + intros p. split; [by intros ?%elem_of_nil|done].
      + done. }
  destruct SH as (A & X & B & C1 & C2 & CX & LX).
  rewrite C1 in N, NE. destruct (mid_swap A X B e N NE) as [N' M'].
  assert (MEM : forall p, p ∈ concat l' <-> p = e \/ (p ∈ concat l /\ c !! i <> Some p)).
  { intros p. rewrite C2, C1, M'. by rewrite CX. }
  split; [|split; [done|]].
  - split_and!.
    + subst l'. by rewrite length_insert.
    + lia.
    + lia.
    + by rewrite C2.
    + intros p [->|[Hp NX]]%MEM.
      * exists h. split; [done|]. split; [done|].
        subst l' c i b. eapply chain_lookup_store; [done|apply matches_self|done].
      * destruct (F p Hp) as (hp_ & Ep & Rp & Cp).
        exists hp_. split; [done|]. split; [done|].
        unfold chain_lookup in *. subst l'.
        destruct (decide (bucket_of lb (hash hp_) = b)) as [Eb|Nb].
        2:{ by rewrite bucket_insert_ne. }
        rewrite Eb in *. rewrite bucket_insert_eq by done. fold c in Cp.
        unfold store_at. destruct (c !! i) as [o|] eqn:Ci.
        -- pose proof (lookup_lt_Some _ _ _ Ci) as Li. rewrite decide_True by done.
           assert (NM : forall hx, matches (key h) (hash h) hx = true ->
                                   matches (key hp_) (hash hp_) hx = false).
           { intros hx [H1 H2]%matches_iff.
             destruct (matches (key hp_) (hash hp_) hx) eqn:Mx; [|done].
             apply matches_iff in Mx as [H3 H4]. exfalso. apply NX.
             rewrite <- Ci. subst i. rewrite <- H1, <- H2, H3, H4. exact Cp. }
           destruct (find_chain_hit _ _ _ _ _ Ci) as (ho & Eo & Mo).
           rewrite (find_chain_insert_nonmatch hp _ _ c i o e Ci).
           ++ rewrite list_lookup_insert_ne; [done|]. intros Eq. rewrite <- Eq in Cp.
              congruence.
           ++ intros ho' ?. simplify_eq. by apply NM.
           ++ intros h' ?. simplify_eq. apply NM, matches_self.
        -- pose proof (lookup_ge_None_1 _ _ Ci) as Li. rewrite decide_False by lia.
           rewrite (find_chain_app_found _ _ _ _ _ _ Cp).
           rewrite lookup_app_l; [done|]. by eapply lookup_lt_Some.
  - rewrite C2, C1, !length_app, LX. simpl. destruct (c !! i); lia.
Qed.

(** Unlinking the handle found for a key keeps the invariant. *)
Lemma unlink_ok (hp : Heap) l lb k hs p :
  chains_ok hp l lb -> chain_lookup hp l lb k hs = Some p ->
  let l' := unlink_found hp l lb k hs in
  chains_ok hp l' lb /\ (forall q, q ∈ concat l' <-> q ∈ concat l /\ q <> p) /\
  S (length (concat l')) = length (concat l).
Proof.
  intros O C. pose proof O as (L & B0 & N & F). cbv zeta.
  pose proof (chain_lookup_bucket _ _ _ _ _ _ C) as Lb.
  destruct (concat_bucket_split l _ Lb) as [S1 S2].
  unfold unlink_found, unlink_at. unfold chain_lookup in C.
  set (b := bucket_of lb hs) in *. set (c := bucket l b) in *.
  set (i := find_chain hp k hs c) in *.
  assert (C1 : concat l = (concat (take b l) ++ take i c) ++ [p]
                          ++ (drop (S i) c ++ concat (drop (S b) l))).
  { rewrite S1. rewrite <- (take_drop_middle c i p C) at 1. by rewrite <- !app_assoc. }
  assert (C2 : concat (<[b := delete i c]> l)
               = (concat (take b l) ++ take i c) ++ (drop (S i) c ++ concat (drop (S b) l))).
  { rewrite (S2 _), delete_take_drop. by rewrite <- !app_assoc. }
  rewrite C1 in N. destruct (mid_drop _ _ _ N) as [N' M'].
  assert (MEM : forall q, q ∈ concat (<[b := delete i c]> l) <-> q ∈ concat l /\ q <> p).
  { intros q. by rewrite C2, C1, M'. }
  split; [|split; [done|]].
  - split_and!.
    + by rewrite length_insert.
    + lia.
    + lia.
    + by rewrite C2.
    + intros q [Hq NEq]%MEM. destruct (F q Hq) as (hq & Eq & Rq & Cq).
      exists hq. split; [done|]. split; [done|].
      pose proof (chain_lookup_unlink_other hp l lb k hs p (key hq) (hash hq) q) as U.
      unfold unlink_found, unlink_at, chain_lookup in U. by apply U.
  - rewrite C2, C1, !length_app. simpl. lia.
Qed.

(** *** LRUHandleTable *)

Lemma table_wf_ok hp t :
  table_wf hp t = true <->
  chains_ok hp (list_ t) (length_bits_ t) /\
  elems_ t = Z.of_nat (length (concat (list_ t))) /\ elems_ t < 2 ^ 32.
Proof.
  unfold table_wf. rewrite !andb_true_iff, chains_wf_ok, Z.eqb_eq, Z.ltb_lt. tauto.
Qed.

Lemma Table_Insert_shape (hp : Heap) t e h :
  chains_ok hp (list_ t) (length_bits_ t) ->
  hp !! e = Some h -> 0 <= hash h < 2 ^ 32 -> e ∉ concat (list_ t) ->
  let r := Table_Insert hp t e h in
  let old := Table_Lookup hp t (key h) (hash h) in
  r.2 = old /\ chains_ok hp (list_ r.1) (length_bits_ r.1) /\
  (forall p, p ∈ concat (list_ r.1) <-> p = e \/ (p ∈ concat (list_ t) /\ old <> Some p)) /\
  length (concat (list_ r.1))
  = match old with
    | Some _ => length (concat (list_ t))
    | None => S (length (concat (list_ t)))
    end /\
  elems_ r.1 = match old with Some _ => elems_ t | None => wrap32 (elems_ t + 1) end /\
  max_length_bits_ r.1 = max_length_bits_ t.
Proof.
  intros O E R NE. cbv zeta.
  destruct (store_ok hp (list_ t) (length_bits_ t) e h O E R NE) as (O1 & M1 & L1).
  unfold Table_Insert, Table_Lookup.
  set (b := bucket_of (length_bits_ t) (hash h)) in *.
  set (c := bucket (list_ t) b) in *.
  set (i := find_chain hp (key h) (hash h) c) in *.
  destruct (c !! i) as [o|] eqn:Ci; simpl; [done|].
  match goal with |- context [Table_Resize hp ?x] => set (t2 := x) end.
  destruct (0 <? _); simpl; [|done].
  destruct (Table_Resize_ok hp t2 O1) as (O2 & P2 & E2 & X2).
  split; [done|]. split; [done|]. split; [|split; [|done]].
  - intros p. rewrite P2. apply M1.
  - rewrite P2. apply L1.
Qed.

(** X1. LRUHandleTable::Insert and Lookup. On a well-formed table, Insert
    of a handle that is not chained yet returns the handle that Lookup
    found under its key before (null if none); afterwards Lookup of that
    key finds the new handle, whether or not the table was resized, and
    Lookup of any other key answers as before. *)
Theorem Table_Insert_then_Lookup (hp : Heap) t e h :
  table_wf hp t = true -> hp !! e = Some h -> 0 <= hash h < 2 ^ 32 ->
  e ∉ concat (list_ t) ->
  let '(t', old) := Table_Insert hp t e h in
  old = Table_Lookup hp t (key h) (hash h) /\
  Table_Lookup hp t' (key h) (hash h) = Some e /\
  forall k hs, (k, hs) <> (key h, hash h) ->
               Table_Lookup hp t' k hs = Table_Lookup hp t k hs.
Proof.
  intros (O & _ & _)%table_wf_ok E R NE.
  destruct (Table_Insert_shape hp t e h O E R NE) as (R1 & O1 & M1 & _).
  destruct (Table_Insert hp t e h) as [t' old]. cbn [fst snd] in *.
  split; [done|]. rewrite !Table_Lookup_chain in *. split.
  - apply chain_lookup_iff; [done|]. split; [apply M1; by left|].
    exists h. split; [done|apply matches_self].
  - intros k hs NK. rewrite !Table_Lookup_chain. apply option_eq_iff. intros p.
    rewrite (chain_lookup_iff hp _ _ k hs p O), (chain_lookup_iff hp _ _ k hs p O1), M1.
    split.
    + intros [[->|[Hp _]] (hp_ & Ep & Mp)].
      * simplify_eq. apply matches_iff in Mp as [<- <-]. done.
      * split; [done|]. by exists hp_.
    + intros [Hp (hp_ & Ep & Mp)]. split; [|by exists hp_].
      right. split; [done|]. intros C.
      apply (chain_lookup_iff hp _ _ _ _ p O) in C as (_ & h' & E' & [H1 H2]%matches_iff).
      simplify_eq. apply matches_iff in Mp as [<- <-]. apply NK. by rewrite H1, H2.
Qed.

(** X2. LRUHandleTable::Insert keeps the table well formed: the chains stay
    consistent, elems_ still counts the chained handles (it grows by one
    exactly when no handle had the key), and, because Insert calls Resize
    once elems_ reaches the number of buckets, elems_ stays below the
    number of buckets until the table has reached its largest size. *)
Theorem Table_Insert_wf (hp : Heap) t e h :
  table_wf hp t = true -> hp !! e = Some h -> 0 <= hash h < 2 ^ 32 ->
  e ∉ concat (list_ t) -> elems_ t + 1 < 2 ^ 32 ->
  let t' := (Table_Insert hp t e h).1 in
  table_wf hp t' = true /\
  elems_ t' = match Table_Lookup hp t (key h) (hash h) with
              | Some _ => elems_ t
              | None => elems_ t + 1
              end /\
  (elems_ t < 2 ^ length_bits_ t \/ table_at_limit t ->
   elems_ t' < 2 ^ length_bits_ t' \/ table_at_limit t').
Proof.
  intros (O & EL & EB)%table_wf_ok E R NE NW. cbv zeta.
  destruct (Table_Insert_shape hp t e h O E R NE) as (R1 & O1 & M1 & L1 & E1 & X1).
  assert (W : wrap32 (elems_ t + 1) = elems_ t + 1).
  { unfold wrap32. apply Z.mod_small. lia. }
  rewrite W in E1. split; [|split].
  - apply table_wf_ok. split; [done|]. rewrite E1, L1.
    destruct (Table_Lookup hp t (key h) (hash h)); lia.
  - exact E1.
  - intros LD. clear M1 L1 E1 R1 O1 X1. unfold Table_Insert, Table_Lookup in *.
    destruct O as (_ & B & _).
    destruct (bucket _ _ !! _); simpl; [done|]. rewrite W.
    destruct (0 <? Z.shiftr (elems_ t + 1) (length_bits_ t)) eqn:TR; simpl.
    + unfold Table_Resize. simpl. unfold table_at_limit in *.
      destruct (max_length_bits_ t <=? length_bits_ t) eqn:C1; simpl.
      { right. left. by apply Z.leb_le. }
      destruct (31 <=? length_bits_ t) eqn:C2; simpl.
      { right. right. by apply Z.leb_le. }
      apply Z.leb_gt in C1, C2. left.
      destruct LD as [LD|[?|?]]; [|lia..].
      rewrite Z.pow_add_r by lia. lia.
    + left. apply Z.ltb_ge in TR. rewrite Z.shiftr_div_pow2 in TR by lia.
      assert (P : 0 < 2 ^ length_bits_ t) by (apply Z.pow_pos_nonneg; lia).
      assert (D : (elems_ t + 1) / 2 ^ length_bits_ t = 0).
      { pose proof (Z.div_pos (elems_ t + 1) _ ltac:(lia) P). lia. }
      apply Z.div_small_iff in D; lia.
Qed.

(** X3. LRUHandleTable::Remove. On a well-formed table, Remove returns the
    handle Lookup finds (null for a key that is not there, and then the
    table is unchanged); afterwards Lookup of the key finds nothing,
    Lookup of any other key answers as before, the table is well formed
    and elems_ has dropped by one if a handle was removed. *)
Theorem Table_Remove_then_Lookup (hp : Heap) t k hs :
  table_wf hp t = true ->
  let '(t', r) := Table_Remove hp t k hs in
  r = Table_Lookup hp t k hs /\ table_wf hp t' = true /\
  Table_Lookup hp t' k hs = None /\
  (forall k2 hs2, (k2, hs2) <> (k, hs) ->
                  Table_Lookup hp t' k2 hs2 = Table_Lookup hp t k2 hs2) /\
  (r = None -> t' = t) /\
  (r <> None -> elems_ t' = elems_ t - 1).
Proof.
  clear meta_charge. intros W. pose proof W as (O & EL & EB)%table_wf_ok.
  destruct (Table_Lookup hp t k hs) as [p|] eqn:TL.
  - rewrite (Table_Remove_found hp t k hs p TL).
    rewrite Table_Lookup_chain in TL.
    destruct (unlink_ok hp _ _ k hs p O TL) as (O1 & M1 & L1).
    assert (W1 : wrap32 (elems_ t - 1) = elems_ t - 1).
    { unfold wrap32. apply Z.mod_small. lia. }
    split; [done|]. split; [|split; [|split; [|split]]].
    + apply table_wf_ok. simpl. split; [done|]. rewrite W1. lia.
    + rewrite Table_Lookup_chain. cbn [list_ length_bits_].
      destruct (chain_lookup hp (unlink_found _ _ _ _ _) _ k hs) as [q|] eqn:C; [|done].
      apply (chain_lookup_iff hp _ _ _ _ q O1) in C as ([Hq NQ]%M1 & Hm).
      exfalso. apply NQ.
      assert (chain_lookup hp (list_ t) (length_bits_ t) k hs = Some q)
        by (by apply chain_lookup_iff).
      congruence.
    + intros k2 hs2 NK. rewrite !Table_Lookup_chain. cbn [list_ length_bits_].
      apply option_eq_iff.
      intros q. rewrite (chain_lookup_iff hp _ _ k2 hs2 q O),
        (chain_lookup_iff hp _ _ k2 hs2 q O1), M1.
      split; [tauto|]. intros [Hq (hq & Eq & Mq)]. split; [|by exists hq].
      split; [done|]. intros ->.
      apply (chain_lookup_iff hp _ _ _ _ p O) in TL as (_ & h' & E' & [H1 H2]%matches_iff).
      simplify_eq. apply matches_iff in Mq as [<- <-]. done.
    + done.
    + intros _. simpl. exact W1.
  - assert (TR : Table_Remove hp t k hs = (t, None)).
    { unfold Table_Remove, Table_Lookup in *. by rewrite TL. }
    rewrite TR. by split_and!.
Qed.

(** X4. LRUHandleTable::Resize. On a well-formed table Resize changes no
    answer of Lookup and keeps the table well formed, so the count it
    asserts equals elems_. It leaves the table alone once length_bits_ has
    reached max_length_bits_ or 31, and otherwise doubles the number of
    buckets. *)
Theorem Table_Resize_keeps_lookups (hp : Heap) t :
  table_wf hp t = true ->
  let t' := Table_Resize hp t in
  table_wf hp t' = true /\
  (forall k hs, Table_Lookup hp t' k hs = Table_Lookup hp t k hs) /\
  (table_at_limit t -> t' = t) /\
  (~ table_at_limit t ->
   length_bits_ t' = length_bits_ t + 1 /\ length (list_ t') = (2 * length (list_ t))%nat).
Proof.
  intros (O & EL & EB)%table_wf_ok. cbv zeta.
  destruct (Table_Resize_ok hp t O) as (O1 & P1 & E1 & X1).
  split; [|split; [|split]].
  - apply table_wf_ok. split; [done|]. by rewrite E1, P1.
  - intros k hs. rewrite !Table_Lookup_chain.
    apply chain_lookup_same_elems; [done..|]. intros p. by rewrite P1.
  - unfold table_at_limit, Table_Resize. intros [L|L].
    + by rewrite (proj2 (Z.leb_le _ _) L).
    + rewrite (proj2 (Z.leb_le _ _) L). by destruct (_ <=? _).
  - unfold table_at_limit, Table_Resize. intros NL.
    destruct (max_length_bits_ t <=? length_bits_ t) eqn:C1.
    { apply Z.leb_le in C1. tauto. }
    destruct (31 <=? length_bits_ t) eqn:C2.
    { apply Z.leb_le in C2. tauto. }
    simpl. split; [done|]. rewrite rehash_fold_length, length_replicate.
    destruct O as (L & B & _). rewrite L, Z.pow_add_r by lia.
    rewrite Z2Nat.inj_mul by lia. simpl. lia.
Qed.

(** ** Shard selection and construction *)

(** X5. Shard and GetNumShards. With numshardbits between 0 and 31, the
    shard of a 32-bit hash is the hash modulo 2^numshardbits: it is below
    GetNumShards, which is 2^numshardbits. *)
Theorem Shard_below_GetNumShards cfg hs :
  0 <= numshardbits cfg < 32 -> 0 <= hs < 2 ^ 32 ->
  Shard cfg hs = hs mod 2 ^ numshardbits cfg /\
  GetNumShards cfg = 2 ^ numshardbits cfg /\
  0 <= Shard cfg hs < GetNumShards cfg.
Proof.
  clear meta_charge. intros B H. unfold Shard, GetNumShards, wrap32.
  rewrite Z.shiftl_1_l.
  assert (P : 0 < 2 ^ numshardbits cfg < 2 ^ 32).
  { split; [apply Z.pow_pos_nonneg; lia|apply Z.pow_lt_mono_r; lia]. }
  rewrite (Z.mod_small (2 ^ numshardbits cfg)) by lia.
  rewrite (Z.mod_small (2 ^ numshardbits cfg - 1)) by lia.
  replace (2 ^ numshardbits cfg - 1 + 1) with (2 ^ numshardbits cfg) by lia.
  rewrite (Z.mod_small (2 ^ numshardbits cfg)) by lia.
  replace (2 ^ numshardbits cfg - 1) with (Z.ones (numshardbits cfg))
    by (rewrite Z.ones_equiv; lia).
  rewrite Z.land_ones by lia. split; [done|]. split; [done|].
  apply Z.mod_pos_bound. lia.
Qed.

(** X6. NewLRUCache. For num_shard_bits between 0 and 19 and a ratio in
    [0.0, 1.0], the cache has 2^num_shard_bits shards; each one is empty
    and has capacity (capacity + 2^num_shard_bits - 1) / 2^num_shard_bits,
    the sum being taken in size_t. When capacity + 2^num_shard_bits does
    not exceed 2^64 the sum does not wrap and this is the capacity divided
    by the number of shards, rounded up: together the shards hold at least
    the capacity asked for and less than one more unit per shard. *)
Theorem NewLRUCache_shards defbits cfg capacity num_shard_bits strict ratio policy sec :
  0 <= num_shard_bits < 20 -> ratio_in_range ratio = true -> 0 <= capacity ->
  exists c,
    NewLRUCache meta_charge defbits cfg capacity num_shard_bits strict ratio policy sec
      = Some c /\
    num_shards_ c = 2 ^ num_shard_bits /\
    length (shards_ c) = Z.to_nat (2 ^ num_shard_bits) /\
    let per_shard := wrap64 (capacity + (2 ^ num_shard_bits - 1)) / 2 ^ num_shard_bits in
    (capacity + 2 ^ num_shard_bits <= 2 ^ 64 ->
     capacity <= per_shard * 2 ^ num_shard_bits < capacity + 2 ^ num_shard_bits) /\
    forall sh, sh ∈ shards_ c ->
      capacity_ sh = per_shard /\ usage_ sh = 0 /\ lru_ sh = [] /\
      strict_capacity_limit_ sh = strict /\
      max_length_bits_ (table_ sh) = 32 - num_shard_bits.
Proof.
  intros B R C0. unfold NewLRUCache.
  assert (P : 1 <= 2 ^ num_shard_bits < 2 ^ 20).
  { split; [|apply Z.pow_lt_mono_r; lia].
    pose proof (Z.pow_pos_nonneg 2 num_shard_bits). lia. }
  rewrite (proj2 (Z.leb_gt _ _)) by lia.
  assert (N0 : double_is_nan ratio = false) by (by destruct ratio).
  rewrite (ratio_tests ratio N0), R. simpl.
  rewrite (proj2 (Z.ltb_ge _ _)) by lia.
  eexists. split; [reflexivity|]. unfold LRUCache_new. simpl.
  assert (N : wrap_int (Z.shiftl 1 num_shard_bits) = 2 ^ num_shard_bits).
  { rewrite Z.shiftl_1_l. apply wrap_int_small. unfold in_int. lia. }
  rewrite N. split; [done|]. split; [by rewrite length_replicate|].
  assert (W1 : wrap64 (2 ^ num_shard_bits - 1) = 2 ^ num_shard_bits - 1)
    by (unfold wrap64; apply Z.mod_small; lia).
  assert (W2 : wrap64 (2 ^ num_shard_bits) = 2 ^ num_shard_bits)
    by (unfold wrap64; apply Z.mod_small; lia).
  rewrite W1, W2.
  set (n := 2 ^ num_shard_bits) in *. split.
  - intros C1.
    assert (W3 : wrap64 (capacity + (n - 1)) = capacity + (n - 1))
      by (unfold wrap64; apply Z.mod_small; lia).
    rewrite W3.
    pose proof (Z.div_mod (capacity + (n - 1)) n ltac:(lia)) as D.
    pose proof (Z.mod_pos_bound (capacity + (n - 1)) n ltac:(lia)) as M. nia.
  - intros sh [-> _]%elem_of_replicate. done.
Qed.

(** X7. The bucket ranges of ApplyToSomeEntries. For a table of 1 to 31
    length bits, a state that is 0 or was left by an earlier call, and a
    positive average that is below the number of buckets (or any, when the
    state is 0), the range is not empty and lies within the table; the
    state is set to UINT32_MAX exactly when the range reaches the end, and
    otherwise the next call starts where this one stopped. *)
Theorem ApplyToSomeEntries_range_next length_bits average state :
  1 <= length_bits <= 31 -> 0 <= state < 2 ^ 32 -> 0 < average < 2 ^ 32 ->
  average < 2 ^ length_bits \/ state = 0 ->
  let '(index_begin, index_end, state') :=
    ApplyToSomeEntries_range length_bits average state in
  0 <= index_begin < index_end /\ index_end <= 2 ^ length_bits /\
  (index_end = 2 ^ length_bits <-> state' = 2 ^ 32 - 1) /\
  (index_end < 2 ^ length_bits ->
   (ApplyToSomeEntries_range length_bits average state').1.1 = index_end).
Proof.
  clear meta_charge. intros B S A AS. unfold ApplyToSomeEntries_range, wrap32.
  rewrite Z.shiftl_1_l.
  assert (P : 2 <= 2 ^ length_bits <= 2 ^ 31).
  { split; [change 2 with (2 ^ 1) at 1|]; apply Z.pow_le_mono_r; lia. }
  assert (Q : 2 <= 2 ^ (32 - length_bits)).
  { change 2 with (2 ^ 1) at 1. apply Z.pow_le_mono_r; lia. }
  assert (PQ : 2 ^ length_bits * 2 ^ (32 - length_bits) = 2 ^ 32).
  { rewrite <- Z.pow_add_r by lia. f_equal. lia. }
  rewrite (Z.mod_small (2 ^ length_bits)) by lia.
  rewrite Z.shiftr_div_pow2 by lia.
  set (b := state / 2 ^ (32 - length_bits)).
  assert (Hb : 0 <= b < 2 ^ length_bits).
  { subst b. split; [apply Z.div_pos; lia|]. apply Z.div_lt_upper_bound; lia. }
  assert (Hb0 : state = 0 -> b = 0) by (intros ->; done).
  rewrite (Z.mod_small (b + average)) by (destruct AS; lia).
  destruct (2 ^ length_bits <=? b + average) eqn:C.
  - apply Z.leb_le in C. split; [lia|]. split; [lia|]. split; [done|lia].
  - apply Z.leb_gt in C. rewrite Z.shiftl_mul_pow2 by lia.
    assert (M : 0 <= (b + average) * 2 ^ (32 - length_bits) < 2 ^ 32 - 1) by nia.
    rewrite (Z.mod_small ((b + average) * _)) by lia.
    split; [lia|]. split; [lia|]. split; [lia|].
    intros _. rewrite Z.shiftr_div_pow2 by lia.
    rewrite Z.div_mul by lia.
    destruct (_ <=? _); done.
Qed.

(** ** The auxiliary table *)

Lemma arr_set_set a c x y : arr_set (arr_set a c x) c y = arr_set a c y.
Proof. unfold arr_set. destruct (c <? 0); [done|]. apply list_insert_insert_eq. Qed.

Lemma arr_set_get_id a c : arr_set a c (arr_get a c) = a.
Proof.
  unfold arr_set, arr_get. destruct (c <? 0); [done|].
  destruct (a !! Z.to_nat c) as [v|] eqn:E; simpl.
  - by apply list_insert_id.
  - apply list_insert_ge. by apply lookup_ge_None_1.
Qed.

Lemma arr_get_set_eq a c v :
  0 <= c < Z.of_nat (length a) -> arr_get (arr_set a c v) c = v.
Proof.
  intros R. unfold arr_set, arr_get. rewrite (proj2 (Z.ltb_ge _ _)) by lia.
  rewrite list_lookup_insert_eq by lia. done.
Qed.

Lemma arr_get_out a c : Z.of_nat (length a) <= c -> arr_get a c = 0.
Proof.
  intros R. unfold arr_get. destruct (c <? 0); [done|].
  rewrite lookup_ge_None_2 by lia. done.
Qed.

(** X8. CBHTable::Lookup and Unref. A Lookup that finds an entry adds one
    to the tally cell of the calling thread in the row of the entry's
    stamp; Unref on that entry by the same thread takes it back, so the
    pair leaves the auxiliary table exactly as it was. *)
Theorem CBHT_Lookup_then_Unref cfg (hp : Heap) t k hs tid p h :
  CBHT_Find hp t k hs = Some p -> hp !! p = Some h ->
  in_int (arr_get (DCA_ref_pool t) (DCAstamp_tc h + tid)) ->
  let '(t1, r) := CBHT_Lookup cfg hp t k hs tid in
  r = Some p /\
  (stamp_ok cfg (DCAstamp h) = true ->
   0 <= DCAstamp_tc h + tid < Z.of_nat (length (DCA_ref_pool t)) ->
   arr_get (DCA_ref_pool t1) (DCAstamp_tc h + tid)
   = wrap_int (arr_get (DCA_ref_pool t) (DCAstamp_tc h + tid) + 1)) /\
  CBHT_Unref cfg t1 h tid = t.
Proof.
  clear meta_charge. intros F E I. unfold CBHT_Lookup, CBHT_Unref. rewrite F, E.
  destruct (stamp_ok cfg (DCAstamp h)) eqn:SO; [|done].
  split; [done|]. cbn [DCA_ref_pool cb_set_pool]. split.
  - intros _ R. by apply arr_get_set_eq.
  - set (c := DCAstamp_tc h + tid) in *. set (pool := DCA_ref_pool t) in *.
    assert (P : arr_set (arr_set pool c (wrap_int (arr_get pool c + 1))) c
                  (wrap_int (arr_get (arr_set pool c (wrap_int (arr_get pool c + 1))) c - 1))
                = pool).
    { rewrite arr_set_set.
      destruct (decide (0 <= c < Z.of_nat (length pool))) as [R|R].
      - rewrite arr_get_set_eq by done.
        replace (wrap_int (arr_get pool c + 1) - 1)
          with (wrap_int (arr_get pool c + 1) + (-1)) by lia.
        rewrite wrap_int_idem_l.
        replace (arr_get pool c + 1 + -1) with (arr_get pool c) by lia.
        rewrite wrap_int_small by done. apply arr_set_get_id.
      - unfold arr_set. destruct (c <? 0) eqn:C; [done|]. apply Z.ltb_ge in C.
        apply list_insert_ge. lia. }
    unfold cb_set_pool. cbn. rewrite P. by destruct t.
Qed.

(** The scan for a stamp, started [n] probes before the end. *)
Lemma stamp_scan_spec cap avail pool incr :
  0 < cap < 2 ^ 32 -> forall n i, 0 <= i < cap ->
  (exists d, 1 <= d <= Z.of_nat n /\ arr_get pool (avail + (i + d) mod cap) = 0) ->
  exists stamp,
    stamp_scan cap avail n i pool incr = (arr_set pool (avail + stamp) 1, stamp, stamp) /\
    0 <= stamp < cap /\ arr_get pool (avail + stamp) = 0.
Proof.
  intros C. induction n as [|n IH]; intros i I (d & D & Z0); [lia|].
  simpl. assert (W : wrap32 (i + 1) = i + 1) by (unfold wrap32; apply Z.mod_small; lia).
  rewrite W.
  assert (N : (if cap <=? i + 1 then 0 else i + 1) = (i + 1) mod cap).
  { destruct (cap <=? i + 1) eqn:X.
    - apply Z.leb_le in X. replace (i + 1) with cap by lia. by rewrite Z.mod_same by lia.
    - apply Z.leb_gt in X. by rewrite Z.mod_small by lia. }
  rewrite N. pose proof (Z.mod_pos_bound (i + 1) cap ltac:(lia)) as B.
  destruct (arr_get pool (avail + (i + 1) mod cap) =? 0) eqn:G.
  - apply Z.eqb_eq in G. by exists ((i + 1) mod cap).
  - apply Z.eqb_neq in G. apply IH; [done|].
    exists (d - 1). split.
    + assert (d <> 1) by (intros ->; done). lia.
    + rewrite Zplus_mod_idemp_l. by replace (i + 1 + (d - 1)) with (i + d) by lia.
Qed.

Lemma stamp_scan_none cap avail pool incr :
  0 < cap < 2 ^ 32 ->
  (forall j, 0 <= j < cap -> arr_get pool (avail + j) <> 0) ->
  forall n i, 0 <= i < cap -> stamp_scan cap avail n i pool incr = (pool, 0, incr).
Proof.
  intros C F. induction n as [|n IH]; intros i I; [done|].
  simpl. assert (W : wrap32 (i + 1) = i + 1) by (unfold wrap32; apply Z.mod_small; lia).
  rewrite W.
  set (i2 := if cap <=? i + 1 then 0 else i + 1).
  assert (B : 0 <= i2 < cap).
  { subst i2. destruct (cap <=? i + 1) eqn:X; [lia|]. apply Z.leb_gt in X. lia. }
  rewrite (proj2 (Z.eqb_neq _ _) (F i2 B)). by apply IH.
Qed.

Lemma free_slot_dec cap avail pool :
  0 < cap ->
  (exists j, 0 <= j < cap /\ arr_get pool (avail + j) = 0) \/
  (forall j, 0 <= j < cap -> arr_get pool (avail + j) <> 0).
Proof.
  intros C.
  destruct (decide (Exists (fun j => arr_get pool (avail + Z.of_nat j) = 0)
                           (seq 0 (Z.to_nat cap)))) as [EX|NEX].
  - left. apply Exists_exists in EX as (j & Hj & Zj). apply elem_of_seq in Hj.
    exists (Z.of_nat j). split; [lia|done].
  - right. intros j J G. apply NEX. apply Exists_exists. exists (Z.to_nat j).
    split; [apply elem_of_seq; lia|]. by rewrite Z2Nat.id by lia.
Qed.

(** Every slot is within [cap] probes of the starting point. *)
Lemma slot_reached cap i j :
  0 < cap -> 0 <= i < cap -> 0 <= j < cap ->
  exists d, 1 <= d <= cap /\ (i + d) mod cap = j.
Proof.
  intros C I J. destruct (decide (j - i <= 0)).
  - exists (j - i + cap). split; [lia|].
    replace (i + (j - i + cap)) with (j + 1 * cap) by lia.
    by rewrite Z.mod_add, Z.mod_small by lia.
  - exists (j - i). split; [lia|]. replace (i + (j - i)) with j by lia.
    by rewrite Z.mod_small by lia.
Qed.

Lemma stamp_scan_range cap avail pool incr :
  0 < cap < 2 ^ 32 -> 0 <= incr < cap ->
  let r := stamp_scan cap avail (Z.to_nat cap) incr pool incr in
  0 <= r.1.2 < cap /\
  ((exists j, 0 <= j < cap /\ arr_get pool (avail + j) = 0) ->
   arr_get pool (avail + r.1.2) = 0).
Proof.
  intros C I. cbv zeta. destruct (free_slot_dec cap avail pool) as [(j & J & G)|F]; [lia|..].
  - destruct (slot_reached cap incr j) as (d & D & Ed); [lia..|].
    destruct (stamp_scan_spec cap avail pool incr C (Z.to_nat cap) incr I)
      as (stamp & -> & R & G').
    { exists d. split; [lia|]. by rewrite Ed. }
    done.
  - rewrite (stamp_scan_none cap avail pool incr C F _ incr I). simpl.
    split; [lia|]. intros (j & J & G). by destruct (F j J).
Qed.

(** X9. The stamp scan of CBHTable::Insert. Started from a stampincr
    within range, the scan probes every slot once: if a slot is free it
    returns a free one, marks it taken and remembers it in stampincr; if
    every slot is taken it changes nothing and the stamp it hands out is 0,
    which is taken. *)
Theorem stamp_scan_finds_free cap avail pool incr :
  0 < cap < 2 ^ 32 -> 0 <= incr < cap ->
  let '(pool', stamp, incr') := stamp_scan cap avail (Z.to_nat cap) incr pool incr in
  0 <= stamp < cap /\
  ((exists j, 0 <= j < cap /\ arr_get pool (avail + j) = 0) ->
   arr_get pool (avail + stamp) = 0 /\ pool' = arr_set pool (avail + stamp) 1 /\
   incr' = stamp) /\
  ((forall j, 0 <= j < cap -> arr_get pool (avail + j) <> 0) ->
   stamp = 0 /\ pool' = pool /\ incr' = incr).
Proof.
  clear meta_charge. intros C I.
  destruct (free_slot_dec cap avail pool) as [(j & J & G)|F]; [lia|..].
  - destruct (slot_reached cap incr j) as (d & D & Ed); [lia..|].
    destruct (stamp_scan_spec cap avail pool incr C (Z.to_nat cap) incr I)
      as (stamp & -> & R & G').
    { exists d. split; [lia|]. by rewrite Ed. }
    split; [done|]. split; [done|]. intros F. by destruct (F stamp R).
  - rewrite (stamp_scan_none cap avail pool incr C F _ incr I).
    split; [lia|]. split; [|done]. intros (j & J & G). by destruct (F j J).
Qed.

(** X10. CBHTable::Insert on a table that is not full. The handle is
    chained (Lookup of its key finds it, the handle that had the key is
    returned), its in_auxiliary flag is set, it carries a stamp within
    range with the row offset stamp * threadcount, and its key is pushed
    on the FIFO queue. *)
Theorem CBHT_Insert_then_Find cfg (hp : Heap) t e tid h :
  CBHT_IsTableFull t = false -> hp !! e = Some h ->
  (bucket_of (cb_length_bits_ t) (hash h) < length (cb_list_ t))%nat ->
  0 < aux_capacity cfg < 2 ^ 32 -> 0 <= stampincr t < aux_capacity cfg ->
  let '(hp', t', old) := CBHT_Insert cfg hp t e tid in
  old = CBHT_Find hp t (key h) (hash h) /\
  CBHT_Find hp' t' (key h) (hash h) = Some e /\
  (exists h', hp' !! e = Some h' /\ indca h' = true /\
              stamp_ok cfg (DCAstamp h') = true /\
              DCAstamp_tc h' = wrap_int (DCAstamp h' * threadcount cfg) /\
              ((exists j, 0 <= j < aux_capacity cfg /\
                          arr_get (DCA_ref_pool t) (availindex t + j) = 0) ->
               arr_get (DCA_ref_pool t) (availindex t + DCAstamp h') = 0)) /\
  hashkeylist t' = hashkeylist t ++ [(key h, hash h)].
Proof.
  intros NF E L C I.
  pose proof (CBHT_Insert_room cfg hp t e tid h NF E L) as FR.
  pose proof (stamp_scan_range (aux_capacity cfg) (availindex t) (DCA_ref_pool t)
                (stampincr t) C I) as SC.
  unfold CBHT_Insert in *. rewrite NF, NF, E in *.
  destruct (stamp_scan _ _ _ _ _ _) as [[pool1 stamptmp] incr1].
  cbn [fst snd] in *. destruct SC as (R & S1).
  split; [done|]. split; [exact FR|]. split; [|done].
  eexists. rewrite lookup_insert_eq. split; [reflexivity|]. cbn.
  split; [done|]. split; [|split; [done|]].
  - unfold stamp_ok. apply andb_true_iff. split; apply Z.ltb_lt; lia.
  - exact S1.
Qed.

Lemma row_sum_bump pool tc c v :
  0 <= c < Z.of_nat (length pool) -> forall n start,
  sumZ (row_from (arr_set pool c v) tc start n) =
  sumZ (row_from pool tc start n) +
  (if bool_decide (tc + Z.of_nat start <= c < tc + Z.of_nat start + Z.of_nat n)
   then v - arr_get pool c else 0).
Proof.
  intros R. induction n as [|n IH]; intros start.
  - simpl. rewrite bool_decide_eq_false_2 by lia. done.
  - unfold row_from. simpl seq. simpl map.
    fold (row_from (arr_set pool c v) tc (S start) n). fold (row_from pool tc (S start) n).
    simpl sumZ. rewrite IH.
    destruct (decide (tc + Z.of_nat start = c)) as [E|NE].
    + rewrite E, arr_get_set_eq by done.
      rewrite bool_decide_eq_false_2 by lia. rewrite bool_decide_eq_true_2 by lia. lia.
    + rewrite arr_get_set_ne by done.
      repeat case_bool_decide; lia.
Qed.

Lemma CBHT_Find_pool hp t pool k hs :
  CBHT_Find hp (cb_set_pool pool t) k hs = CBHT_Find hp t k hs.
Proof. done. Qed.

Lemma CBHT_Find_queue hp t q k hs :
  CBHT_Find hp (cb_set_queue q t) k hs = CBHT_Find hp t k hs.
Proof. done. Qed.

(** X11. One probe of CBHTable::EvictFIFO. The probe pops the key at the
    front of the queue and looks it up, which adds one to the caller's
    cell in the row of the entry's stamp; the non-forced Remove that
    follows then sees the row sum of before plus one. So the entry is
    evicted exactly when its row summed to -1 before the call; otherwise
    (an entry whose tallies cancel included) it stays chained with the
    cell raised, its key goes to the back of the queue and the loop goes
    on. *)
Theorem EvictFIFO_probe cfg n (hp : Heap) t tid k hs q p h :
  hashkeylist t = (k, hs) :: q ->
  CBHT_Find hp t k hs = Some p -> hp !! p = Some h ->
  stamp_ok cfg (DCAstamp h) = true ->
  0 <= tid < threadcount cfg ->
  0 <= DCAstamp_tc h ->
  DCAstamp_tc h + tid < Z.of_nat (length (DCA_ref_pool t)) ->
  let c := DCAstamp_tc h + tid in
  let sum := sumZ (tally_row cfg (DCA_ref_pool t) (DCAstamp_tc h)) in
  in_int (arr_get (DCA_ref_pool t) c + 1) -> in_int (sum + 1) -> 0 <= refs h < 2 ^ 31 ->
  let bumped :=
    cb_set_pool (arr_set (DCA_ref_pool t) c (arr_get (DCA_ref_pool t) c + 1)) t in
  if sum =? -1 then
    exists hp' t' h',
      EvictFIFO_loop cfg (S n) hp t tid = (hp', t', Some p) /\
      hp' !! p = Some h' /\ indca h' = false /\ DCAstamp h' = -1 /\
      refs h' = refs h /\ hashkeylist t' = q
  else
    EvictFIFO_loop cfg (S n) hp t tid
    = EvictFIFO_loop cfg n hp (cb_set_queue (q ++ [(k, hs)]) bumped) tid.
Proof.
  clear meta_charge. intros HQ F E SO TID TC0 LEN c sum I1 I2 RF bumped.
  assert (F' := F). unfold CBHT_Find, cb_chain in F'.
  assert (S2 : sumZ (tally_row cfg (arr_set (DCA_ref_pool t) c
                                      (arr_get (DCA_ref_pool t) c + 1)) (DCAstamp_tc h))
               = sum + 1).
  { unfold tally_row. rewrite row_sum_bump by (subst c; lia).
    rewrite bool_decide_eq_true_2 by (subst c; lia). subst sum. unfold tally_row. lia. }
  simpl EvictFIFO_loop. rewrite HQ. cbn [fst snd].
  unfold CBHT_Lookup. rewrite CBHT_Find_queue, F, E, SO. fold c.
  cbn [DCA_ref_pool cb_set_queue]. rewrite (wrap_int_small _ I1).
  unfold CBHT_Remove. cbn [cb_length_bits_ cb_list_ cb_set_pool cb_set_queue DCA_ref_pool].
  rewrite F', E, SO, tally_loop_spec, S2, (wrap_int_small _ I2).
  cbn [andb].
  destruct (sum =? -1) eqn:SM.
  - apply Z.eqb_eq in SM. rewrite SM. cbn [Z.add Z.eqb negb].
    replace (-1 + 1) with 0 by lia. cbn [Z.eqb negb].
    eexists _, _, _. split; [reflexivity|]. rewrite lookup_insert_eq.
    split; [reflexivity|]. cbn. split; [done|]. split; [done|]. split; [|done].
    rewrite !Z.add_0_r. rewrite !(wrap_int_small (refs h)) by (unfold in_int; lia).
    rewrite (proj2 (Z.ltb_ge _ _)) by lia. unfold wrap32. apply Z.mod_small. lia.
  - apply Z.eqb_neq in SM. rewrite (proj2 (Z.eqb_neq (sum + 1) 0)) by lia.
    cbn [negb]. reflexivity.
Qed.

(** ** Reference counts *)

Lemma with_heap_id s : with_heap (heap s) s = s.
Proof. by destruct s. Qed.

Lemma Unref_Ref h : 0 <= refs h < 2 ^ 32 - 1 -> Unref (Ref h) = h.
Proof.
  intros R. destruct h. unfold Unref, Ref, set_refs, wrap32 in *. cbn in *. f_equal.
  rewrite (Z.mod_small (refs0 + 1)) by lia.
  replace (refs0 + 1 - 1) with refs0 by lia. apply Z.mod_small. lia.
Qed.

Lemma upd_handle_upd e f g s :
  upd_handle e g (upd_handle e f s) = upd_handle e (fun h => g (f h)) s.
Proof.
  unfold upd_handle. destruct (heap s !! e) as [h|] eqn:E; cbn.
  - rewrite lookup_insert_eq. cbn. unfold with_heap. cbn. by rewrite insert_insert_eq.
  - by rewrite E.
Qed.

Lemma upd_handle_same e f s h :
  heap s !! e = Some h -> f h = h -> upd_handle e f s = s.
Proof.
  intros E F. unfold upd_handle. rewrite E, F, insert_id by done. apply with_heap_id.
Qed.

(** X12. Ref and Release. For an entry that already has a reference and
    is not served by the auxiliary table, Ref followed by Release gives
    back the state Ref started from, and Release answers false. When the
    auxiliary table is enabled and the entry is flagged in_auxiliary, the
    pair does not cancel: Release answers true, leaves the reference Ref
    took in place and only lowers the caller's tally cell. *)
Theorem Ref_then_Release cfg e force_erase tid s h :
  heap s !! e = Some h -> 0 < refs h < 2 ^ 32 - 1 ->
  let s1 := (Shard_Ref e s).2 in
  if CBHT_enabled cfg && indca h then
    exists s2, Release meta_charge cfg (Some e) force_erase tid s1 = (true, s2) /\
               heap s2 !! e = Some (Ref h) /\ freed s2 = freed s /\
               cbhtable_ (shard s2) = CBHT_Unref cfg (cbhtable_ (shard s)) (Ref h) tid
  else Release meta_charge cfg (Some e) force_erase tid s1 = (false, s).
Proof.
  intros E R. cbv zeta. unfold Shard_Ref. cbn [snd].
  assert (E1 : heap (upd_handle e Ref s) !! e = Some (Ref h)).
  { rewrite upd_handle_lookup, decide_True by done. by rewrite E. }
  unfold Release. rewrite E1. change (indca (Ref h)) with (indca h).
  destruct (CBHT_enabled cfg && indca h) eqn:A.
  - eexists. split; [reflexivity|]. cbn. rewrite upd_handle_shard, upd_handle_freed.
    by split_and!.
  - rewrite upd_handle_upd, (upd_handle_same e _ s h E) by (by apply Unref_Ref; lia).
    rewrite Unref_Ref by lia.
    rewrite (proj2 (Z.eqb_neq (refs h) 0)) by lia. done.
Qed.

(** ** Erase *)

Lemma with_shard_table_id s : with_shard (set_table (table_ (shard s)) (shard s)) s = s.
Proof. destruct s as [? ? sh ? ? ?]. by destruct sh. Qed.

(** After the handle found for a key is unlinked, the key is not found. *)
Lemma unlink_lookup_none (hp : Heap) l lb k hs p :
  chains_ok hp l lb -> chain_lookup hp l lb k hs = Some p ->
  chain_lookup hp (unlink_found hp l lb k hs) lb k hs = None.
Proof.
  intros O C. destruct (unlink_ok hp l lb k hs p O C) as (O1 & M1 & _).
  destruct (chain_lookup hp (unlink_found _ _ _ _ _) _ k hs) as [q|] eqn:C'; [|done].
  apply (chain_lookup_iff hp _ _ _ _ q O1) in C' as ([Hq NQ]%M1 & Hm).
  exfalso. apply NQ.
  assert (chain_lookup hp l lb k hs = Some q) by (by apply chain_lookup_iff).
  congruence.
Qed.

(** A Lookup that misses the primary table returns null and changes
    nothing, unless the auxiliary table is disabled and the secondary cache
    can be asked. *)
Lemma Lookup_miss cfg k hs hlp priority wait raw tid s :
  Table_Lookup (heap s) (table_ (shard s)) k hs = None ->
  CBHT_enabled cfg = true \/ secondary_configured s hlp = false ->
  exists tr, Lookup meta_charge cfg k hs hlp priority wait raw tid s = (None, s, tr).
Proof.
  intros TL H. unfold Lookup. destruct (CBHT_enabled cfg) eqn:EN.
  - rewrite TL. by eexists.
  - destruct H as [?|SC]; [done|].
    unfold vanilla_path. rewrite TL. unfold secondary_path.
    unfold secondary_configured in SC.
    destruct (secondary_cache_ (shard s)) as [sc|]; [|by eexists].
    destruct hlp as [hp|]; [|by eexists]. rewrite SC. by eexists.
Qed.

Lemma invalidate_in_aux_fields cfg old s :
  let s' := invalidate_in_aux cfg old s in
  usage_ (shard s') = usage_ (shard s) /\
  secondary_cache_ (shard s') = secondary_cache_ (shard s) /\
  capacity_ (shard s') = capacity_ (shard s) /\
  metadata_charge_policy_ (shard s') = metadata_charge_policy_ (shard s) /\
  ctl s' = ctl s.
Proof.
  cbv zeta. unfold invalidate_in_aux.
  destruct (CBHT_enabled cfg); [|done]. destruct (heap s !! old) as [h|]; [|done].
  destruct (indca h); [|done]. by destruct (CBHT_Remove _ _ _ _ _ _) as [[? ?] ?].
Qed.

Lemma LRU_Remove_fields e s :
  let s' := LRU_Remove meta_charge e s in
  secondary_cache_ (shard s') = secondary_cache_ (shard s) /\
  capacity_ (shard s') = capacity_ (shard s) /\
  strict_capacity_limit_ (shard s') = strict_capacity_limit_ (shard s) /\
  high_pri_pool_ratio_ (shard s') = high_pri_pool_ratio_ (shard s) /\
  high_pri_pool_capacity_ (shard s') = high_pri_pool_capacity_ (shard s).
Proof. cbv zeta. unfold LRU_Remove. by repeat case_match. Qed.

Lemma Erase_found cfg k hs s e h :
  Table_Lookup (heap s) (table_ (shard s)) k hs = Some e -> heap s !! e = Some h ->
  let s' := Erase meta_charge cfg k hs s in
  table_ (shard s') = (Table_Remove (heap s) (table_ (shard s)) k hs).1 /\
  heap_sub (heap s) (heap s') /\
  secondary_cache_ (shard s') = secondary_cache_ (shard s) /\
  (if negb (HasRefs h) || (CBHT_enabled cfg && indca h)
   then heap s' !! e = None /\ freed s' = freed s ++ [mkFree e (key h) (value h)]
   else in_cache <$> heap s' !! e = Some false /\ freed s' = freed s) /\
  usage_ (shard s')
  = (if HasRefs h then usage_ (shard s)
     else wrap64 (usage_ (shard s) - total_charge_of meta_charge s h)) /\
  (HasRefs h = false -> e ∉ lru_ (shard s')).
Proof.
  intros TL E. cbv zeta. unfold Erase.
  rewrite (Table_Remove_found _ _ _ _ _ TL). cbn [fst].
  set (t := mkTable _ _ _ _).
  set (s1 := with_shard (set_table t (shard s)) s).
  set (s2 := upd_handle e (SetInCache false) s1).
  assert (E2 : heap s2 !! e = Some (SetInCache false h)).
  { subst s2. rewrite upd_handle_lookup, decide_True by done. subst s1. cbn. by rewrite E. }
  rewrite E2. change (HasRefs (SetInCache false h)) with (HasRefs h).
  change (indca (SetInCache false h)) with (indca h).
  assert (SH2 : shard s2 = shard s1) by (subst s2; apply upd_handle_shard).
  assert (H12 : heap_ext (heap s) (heap s2)).
  { subst s2. change (heap s) with (heap s1). apply heap_ext_upd. intros h0. by repeat split. }
  destruct (HasRefs h) eqn:HR; cbn [negb orb].
  - (* the entry is referenced *)
    destruct (invalidate_in_aux_frame cfg e s2) as (_ & F4 & L4 & T4).
    pose proof (invalidate_in_aux_cached cfg e s2) as C4.
    assert (U4 : usage_ (shard (invalidate_in_aux cfg e s2)) = usage_ (shard s)
                 /\ secondary_cache_ (shard (invalidate_in_aux cfg e s2))
                    = secondary_cache_ (shard s)).
    { destruct (invalidate_in_aux_fields cfg e s2) as (-> & -> & _).
      subst s2. by rewrite upd_handle_shard. }
    destruct (heap_cached_lookup _ _ e _ C4 E2) as (h4 & E4 & [SE4 IC4]).
    destruct (CBHT_enabled cfg && indca h) eqn:A.
    + rewrite Free_shard, T4. destruct (Free_present e h4 _ E4) as [FF FH].
      split; [by rewrite SH2|]. split.
      { eapply heap_sub_trans; [apply heap_ext_sub, H12|].
        eapply heap_sub_trans; [apply heap_ext_sub, heap_cached_ext, C4|].
        intros p h' Hp. unfold Free in Hp. rewrite E4 in Hp. cbn in Hp.
        apply lookup_delete_Some in Hp as [_ Hp]. exists h'. split; [done|].
        apply same_entry_refl. }
      split; [apply U4|]. split; [|split; [apply U4|done]].
      split; [done|]. rewrite FF, F4. subst s2. rewrite upd_handle_freed.
      destruct SE4 as (K & _ & _ & V). cbn in K, V. by rewrite K, V.
    + assert (N4 : invalidate_in_aux cfg e s2 = s2).
      { unfold invalidate_in_aux. rewrite E2. cbn.
        destruct (CBHT_enabled cfg); [|done]. cbn in A. by rewrite A. }
      rewrite N4, SH2. split; [done|]. split; [by apply heap_ext_sub|].
      split; [done|]. split; [|done]. rewrite E2. split; [done|].
      subst s2. by rewrite upd_handle_freed.
  - (* no reference: off the LRU list, uncharged, freed *)
    destruct (LRU_Remove_shape e s2) as (H3 & F3 & _ & L3 & T3 & B3 & U3 & P3).
    set (s3 := with_shard _ (LRU_Remove meta_charge e s2)).
    assert (H3' : heap s3 = heap s2) by exact H3.
    destruct (invalidate_in_aux_frame cfg e s3) as (_ & F4 & L4 & T4).
    pose proof (invalidate_in_aux_cached cfg e s3) as C4. rewrite H3' in C4.
    assert (U4 : usage_ (shard (invalidate_in_aux cfg e s3)) = usage_ (shard s3)
                 /\ secondary_cache_ (shard (invalidate_in_aux cfg e s3))
                    = secondary_cache_ (shard s3)).
    { by destruct (invalidate_in_aux_fields cfg e s3) as (-> & -> & _). }
    destruct (heap_cached_lookup _ _ e _ C4 E2) as (h4 & E4 & [SE4 IC4]).
    rewrite Free_shard, T4. destruct (Free_present e h4 _ E4) as [FF FH].
    split; [subst s3; cbn; by rewrite T3, SH2|]. split.
    { eapply heap_sub_trans; [apply heap_ext_sub, H12|].
      eapply heap_sub_trans; [apply heap_ext_sub, heap_cached_ext, C4|].
      intros p h' Hp. unfold Free in Hp. rewrite E4 in Hp. cbn in Hp.
      apply lookup_delete_Some in Hp as [_ Hp]. exists h'. split; [done|].
      apply same_entry_refl. }
    split.
    { destruct U4 as [_ ->]. subst s3. cbn.
      destruct (LRU_Remove_fields e s2) as [-> _]. by rewrite SH2. }
    split; [|split].
    + split; [done|]. rewrite FF, F4. subst s3. cbn. rewrite F3. subst s2.
      rewrite upd_handle_freed. destruct SE4 as (K & _ & _ & V). cbn in K, V.
      by rewrite K, V.
    + destruct U4 as [-> _]. subst s3. cbn. rewrite U3, SH2. subst s1. cbn.
      f_equal. f_equal.
      apply total_charge_same; [by rewrite P3, SH2|]. by repeat split.
    + intros _. rewrite L4. subst s3. cbn. rewrite L3. apply unlink_not_elem.
Qed.

(** X13. Erase, then Lookup. On a well-formed primary table, after
    Erase(key) the table has no entry for the key, and a Lookup of the key
    returns null and changes nothing (with the auxiliary table disabled,
    provided no secondary cache can be asked). Erase of a key that has no
    entry leaves the shard as it was. *)
Theorem Erase_then_Lookup cfg k hs s hlp priority wait raw tid :
  table_wf (heap s) (table_ (shard s)) = true ->
  CBHT_enabled cfg = true \/ secondary_configured s hlp = false ->
  let s' := Erase meta_charge cfg k hs s in
  Table_Lookup (heap s') (table_ (shard s')) k hs = None /\
  (exists tr, Lookup meta_charge cfg k hs hlp priority wait raw tid s' = (None, s', tr)) /\
  (Table_Lookup (heap s) (table_ (shard s)) k hs = None -> s' = s).
Proof.
  intros (O & _)%table_wf_ok SC. cbv zeta.
  destruct (Table_Lookup (heap s) (table_ (shard s)) k hs) as [e|] eqn:TL.
  - pose proof TL as TL'. rewrite Table_Lookup_chain in TL'.
    pose proof (proj1 (chain_lookup_iff _ _ _ _ _ _ O) TL') as (_ & h & E & _).
    destruct (Erase_found cfg k hs s e h TL E) as (T & HS & SEC & _).
    assert (N : Table_Lookup (heap (Erase meta_charge cfg k hs s))
                  (table_ (shard (Erase meta_charge cfg k hs s))) k hs = None).
    { rewrite T, (Table_Remove_found _ _ _ _ _ TL). cbn [fst].
      rewrite Table_Lookup_chain. cbn [list_ length_bits_].
      eapply chain_lookup_sub_none; [exact HS|]. by eapply unlink_lookup_none. }
    split; [exact N|]. split; [|done].
    apply Lookup_miss; [exact N|]. destruct SC as [?|SC]; [by left|right].
    unfold secondary_configured in *. by rewrite SEC.
  - assert (ES : Erase meta_charge cfg k hs s = s).
    { unfold Erase, Table_Remove. unfold Table_Lookup in TL. rewrite TL.
      apply with_shard_table_id. }
    rewrite ES. split; [done|]. split; [|done]. by apply Lookup_miss.
Qed.

(** X14. What Erase does to the entry it finds. The entry leaves the
    primary table with in_cache cleared. If it has no external reference
    it is taken off the LRU list, its charge is subtracted from usage and
    it is freed. If the auxiliary table is enabled and the entry is
    flagged in_auxiliary it is freed as well, even when references to it
    are outstanding. Otherwise it stays allocated until its last Release,
    and usage keeps its charge. *)
Theorem Erase_entry cfg k hs s e h :
  Table_Lookup (heap s) (table_ (shard s)) k hs = Some e -> heap s !! e = Some h ->
  let s' := Erase meta_charge cfg k hs s in
  (if negb (HasRefs h) || (CBHT_enabled cfg && indca h)
   then heap s' !! e = None /\ freed s' = freed s ++ [mkFree e (key h) (value h)]
   else in_cache <$> heap s' !! e = Some false /\ freed s' = freed s) /\
  usage_ (shard s')
  = (if HasRefs h then usage_ (shard s)
     else wrap64 (usage_ (shard s) - total_charge_of meta_charge s h)) /\
  (HasRefs h = false -> e ∉ lru_ (shard s')).
Proof.
  intros TL E. by destruct (Erase_found cfg k hs s e h TL E) as (_ & _ & _ & F & U & L).
Qed.

(** ** Freeing lists of entries *)

Lemma free_records_same (hp hp' : Heap) l :
  (forall p, p ∈ l -> match hp !! p, hp' !! p with
                      | Some h, Some h' => same_entry h h'
                      | None, None => True
                      | _, _ => False
                      end) ->
  free_records hp' l = free_records hp l.
Proof.
  induction l as [|x l IH]; intros H; [done|].
  unfold free_records in *. cbn [omap list_omap]. rewrite IH.
  - specialize (H x (list_elem_of_here _ _)).
    destruct (hp !! x) as [h|], (hp' !! x) as [h'|]; try done.
    cbn. destruct H as (K & _ & _ & V). by rewrite K, V.
  - intros p Hp. apply H. by apply list_elem_of_further.
Qed.

Lemma free_records_cons (hp : Heap) x l :
  free_records hp (x :: l) = free_records hp [x] ++ free_records hp l.
Proof. unfold free_records. cbn. by destruct (hp !! x). Qed.

Lemma free_entry_freed_exact s e :
  freed (free_entry s e) = freed s ++ free_records (heap s) [e].
Proof.
  unfold free_records. cbn. destruct (heap s !! e) as [h|] eqn:E.
  - by rewrite (free_entry_present s e h E).
  - cbn. rewrite app_nil_r. unfold free_entry, Free. rewrite E.
    destruct (secondary_cache_ (shard s)); cbn; by rewrite E.
Qed.

Lemma free_all_freed_exact l :
  NoDup l -> forall s, freed (free_all l s) = freed s ++ free_records (heap s) l.
Proof.
  induction l as [|x l IH]; intros ND s.
  - by rewrite app_nil_r.
  - apply NoDup_cons in ND as [NI ND]. cbn [free_all foldl].
    fold (free_all l (free_entry s x)). rewrite (IH ND), free_entry_freed_exact.
    rewrite <- app_assoc, (free_records_cons (heap s) x l). do 2 f_equal.
    apply free_records_same. intros p Hp. rewrite free_entry_heap.
    rewrite decide_False by (by intros ->).
    destruct (heap s !! p); [apply same_entry_refl|done].
Qed.

Lemma foldl_Free_spec l :
  NoDup l -> forall s,
  let s' := foldl (fun s' e => Free e s') s l in
  freed s' = freed s ++ free_records (heap s) l /\ shard s' = shard s /\
  forall p, heap s' !! p = if bool_decide (p ∈ l) then None else heap s !! p.
Proof.
  induction l as [|x l IH]; intros ND s.
  - cbn. rewrite app_nil_r. split_and!; try done.
  - apply NoDup_cons in ND as [NI ND]. cbn [foldl].
    destruct (IH ND (Free x s)) as (F & S & H). cbv zeta in *.
    assert (HF : forall p, heap (Free x s) !! p
                           = if decide (p = x) then None else heap s !! p).
    { intros p. unfold Free. destruct (heap s !! x) as [h|] eqn:E; cbn.
      - destruct (decide (p = x)) as [->|N]; [apply lookup_delete_eq|].
        by rewrite lookup_delete_ne.
      - destruct (decide (p = x)) as [->|N]; done. }
    split; [|split].
    + rewrite F, (free_records_cons (heap s) x l).
      assert (FR : freed (Free x s) = freed s ++ free_records (heap s) [x]).
      { unfold Free, free_records. cbn. destruct (heap s !! x); cbn; [done|].
        by rewrite app_nil_r. }
      rewrite FR, <- app_assoc. do 2 f_equal.
      apply free_records_same. intros p Hp. rewrite HF, decide_False by (by intros ->).
      destruct (heap s !! p); [apply same_entry_refl|done].
    + by rewrite S, Free_shard.
    + intros p. rewrite H, HF. destruct (decide (p = x)) as [->|N].
      * rewrite (bool_decide_eq_true_2 (x ∈ x :: l)) by apply list_elem_of_here.
        by destruct (bool_decide _).
      * destruct (bool_decide (p ∈ l)) eqn:B.
        -- apply bool_decide_eq_true in B.
           by rewrite bool_decide_eq_true_2 by (by apply list_elem_of_further).
        -- apply bool_decide_eq_false in B. rewrite bool_decide_eq_false_2; [done|].
           by intros [?|?]%elem_of_cons.
Qed.

(** ** SetCapacity and EraseUnRefEntries *)

(** X15. SetCapacity. On a shard that satisfies its representation
    invariant, SetCapacity(c) stores c and evicts from the cold end of the
    LRU list until usage fits under c or the list is empty. The evicted
    entries are a prefix of the list; their charges leave usage and each
    of them is freed, in list order; no other entry is touched. *)
Theorem SetCapacity_spec cfg capacity s :
  evict_wf cfg s = true -> 0 <= usage_ (shard s) < 2 ^ 64 ->
  charge_sum meta_charge s (lru_ (shard s)) <= usage_ (shard s) ->
  let s' := SetCapacity meta_charge cfg capacity s in
  capacity_ (shard s') = capacity /\
  (usage_ (shard s') <= capacity \/ lru_ (shard s') = []) /\
  exists ev,
    lru_ (shard s) = ev ++ lru_ (shard s') /\
    usage_ (shard s') = usage_ (shard s) - charge_sum meta_charge s ev /\
    freed s' = freed s ++ free_records (heap s) ev /\
    (forall p, heap s' !! p = if bool_decide (p ∈ ev) then None else heap s !! p).
Proof.
  intros W U CS. apply evict_wf_inv in W. cbv zeta. unfold SetCapacity.
  set (s0 := with_shard _ s).
  assert (I0 : evict_inv cfg s0) by (destruct W; by constructor).
  destruct (EvictFromLRU_loop_spec cfg 0 (length (lru_ (shard s0))) s0 [] I0 eq_refl)
    as (s1 & ev & R & L & EX & Us & _ & Ks & _ & Fs & Xs & Hs & _); [lia|apply U|..].
  { subst s0. cbn. lia. }
  { exact CS. }
  unfold EvictFromLRU. rewrite R. cbn [app]. rewrite free_all_shard.
  split; [by rewrite Ks|]. split.
  { rewrite Ks in EX. destruct EX as [EX|EX]; [left|by right]. subst s0. cbn in EX. lia. }
  exists ev. split; [exact L|]. split; [exact Us|].
  assert (ND : NoDup ev).
  { pose proof (inv_lru_nodup _ _ I0) as N. rewrite L in N. by apply NoDup_app in N as [N _]. }
  split.
  - rewrite (free_all_freed_exact ev ND), Fs. f_equal.
    apply free_records_same. intros p _. apply Xs.
  - intros p. rewrite free_all_heap. destruct (bool_decide (p ∈ ev)) eqn:B; [done|].
    apply bool_decide_eq_false in B. by rewrite Hs.
Qed.

Lemma Table_Remove_ext hp hp' t k hs :
  heap_ext hp hp' -> Table_Remove hp' t k hs = Table_Remove hp t k hs.
Proof. intros X. unfold Table_Remove. by rewrite (find_chain_ext _ _ _ _ _ X). Qed.

(** Removing from the primary table and invalidating in the auxiliary one
    can be done in either order. *)
Lemma invalidate_table_comm cfg old k hs s :
  invalidate_in_aux cfg old (shard_table_remove k hs s)
  = shard_table_remove k hs (invalidate_in_aux cfg old s).
Proof.
  unfold invalidate_in_aux. destruct (CBHT_enabled cfg); [|done].
  destruct (shard_table_remove_frame k hs s) as [_ H]. rewrite H.
  destruct (heap s !! old) as [h|]; [|done]. destruct (indca h); [|done].
  pose proof (CBHT_Remove_heap_ext cfg (heap s) (cbhtable_ (shard s)) (key h) (hash h)
                Remove_default_dontforce) as X.
  unfold shard_table_remove at 1 2.
  destruct (Table_Remove (heap s) (table_ (shard s)) k hs) as [t1 r1] eqn:TR. cbn.
  destruct (CBHT_Remove _ _ _ _ _ _) as [[hp t] r]. cbn in X.
  unfold shard_table_remove. cbn. by rewrite (Table_Remove_ext _ _ _ _ _ X), TR.
Qed.

Lemma erase_one_evict_one cfg old s :
  erase_one meta_charge cfg old s = evict_one meta_charge cfg old s.
Proof.
  unfold erase_one, evict_one. set (s1 := LRU_Remove meta_charge old s).
  pose proof (invalidate_in_aux_cached cfg old s1) as C.
  destruct (heap s1 !! old) as [h|] eqn:E.
  - destruct (heap_cached_lookup _ _ old h C E) as (h2 & E2 & [(K & H & CH & V) IC]).
    rewrite E2, invalidate_table_comm, K, H. do 3 f_equal.
    unfold total_charge_of, CalcTotalCharge. cbn. by rewrite K, CH.
  - assert (N : invalidate_in_aux cfg old s1 = s1).
    { unfold invalidate_in_aux. rewrite E. by destruct (CBHT_enabled cfg). }
    by rewrite N, E.
Qed.

Lemma EraseUnRefEntries_loop_spec cfg fuel : forall s lrl,
  evict_inv cfg s -> fuel = length (lru_ (shard s)) ->
  0 <= usage_ (shard s) < 2 ^ 64 ->
  charge_sum meta_charge s (lru_ (shard s)) <= usage_ (shard s) ->
  exists s',
    EraseUnRefEntries_loop meta_charge cfg fuel s lrl = (s', lrl ++ lru_ (shard s)) /\
    lru_ (shard s') = [] /\
    usage_ (shard s') = usage_ (shard s) - charge_sum meta_charge s (lru_ (shard s)) /\
    freed s' = freed s /\ heap_ext (heap s) (heap s') /\
    (forall p, p ∉ lru_ (shard s) -> heap s' !! p = heap s !! p) /\
    concat (list_ (table_ (shard s'))) `sublist_of` concat (list_ (table_ (shard s))) /\
    (forall p, p ∈ lru_ (shard s) -> p ∉ concat (list_ (table_ (shard s')))).
Proof.
  induction fuel as [|fuel IH]; intros s lrl I FL U CS.
  - symmetry in FL. apply nil_length_inv in FL. exists s. cbn. rewrite FL, app_nil_r.
    split_and!; try done; [unfold charge_sum; cbn; lia|apply heap_ext_refl|].
    by intros p ?%elem_of_nil.
  - cbn [EraseUnRefEntries_loop].
    destruct (lru_ (shard s)) as [|old rest] eqn:L; [done|].
    rewrite erase_one_evict_one.
    assert (IN : old ∈ lru_ (shard s)) by (rewrite L; apply list_elem_of_here).
    destruct (inv_lru_indexed _ _ I old IN) as (h & E & TL).
    destruct (evict_one_effect cfg old rest h s I L E)
      as (h' & H' & SE & IC & L' & T' & LB' & CB' & CL' & U' & K' & P' & F').
    pose proof (evict_one_inv cfg old rest s I L) as I'.
    set (s1 := evict_one meta_charge cfg old s) in *.
    pose proof (inv_lru_nodup _ _ I) as ND. rewrite L in ND.
    apply NoDup_cons in ND as [NI ND].
    assert (HO : forall p, p <> old -> heap s1 !! p = heap s !! p).
    { intros p N. rewrite H'. by rewrite lookup_insert_ne. }
    assert (CSr : charge_sum meta_charge s1 rest = charge_sum meta_charge s rest).
    { apply charge_sum_same; [done|]. intros p Hp. apply HO. by intros ->. }
    assert (CO : charge_at meta_charge s old = total_charge_of meta_charge s h).
    { unfold charge_at. by rewrite E. }
    pose proof (total_charge_range s h) as TR.
    pose proof (charge_sum_nonneg s rest) as RN.
    assert (CSo : charge_sum meta_charge s (old :: rest)
                  = total_charge_of meta_charge s h + charge_sum meta_charge s rest).
    { unfold charge_sum. cbn. by rewrite CO. }
    rewrite CSo in CS.
    assert (U1 : usage_ (shard s1) = usage_ (shard s) - total_charge_of meta_charge s h).
    { rewrite U'. unfold wrap64. rewrite Z.mod_small; lia. }
    destruct (IH s1 (lrl ++ [old]) I') as (s' & R & Le & Us & Fs & Xs & Hs & Ts & Ns);
      [by rewrite L'; injection FL|lia|rewrite L', CSr; lia|].
    rewrite L' in *.
    exists s'. rewrite R, <- app_assoc. cbn [app].
    assert (X1 : heap_ext (heap s) (heap s1)).
    { rewrite H'. by eapply heap_ext_insert. }
    split_and!; try done.
    + rewrite Us, U1, CSo, CSr. lia.
    + by rewrite Fs.
    + by eapply heap_ext_trans.
    + intros p Hp. apply not_elem_of_cons in Hp as [N Hp]. rewrite (Hs p Hp). by apply HO.
    + etrans; [exact Ts|]. rewrite T'. apply unlink_found_sublist.
    + intros p [->|Hp]%elem_of_cons; [|by apply Ns].
      intros Hp. eapply elem_of_sublist in Hp; [|exact Ts]. revert Hp. rewrite T'.
      apply unlink_found_not_elem; [apply (inv_table_nodup _ _ I)|].
      by rewrite <- Table_Lookup_chain.
Qed.

(** X16. EraseUnRefEntries. On a shard that satisfies its representation
    invariant, the call empties the LRU list: every entry that was on it
    (the entries without external reference) is out of the primary table,
    uncharged and freed, in list order; entries that are not on the list
    are left as they were. *)
Theorem EraseUnRefEntries_spec cfg s :
  evict_wf cfg s = true -> 0 <= usage_ (shard s) < 2 ^ 64 ->
  charge_sum meta_charge s (lru_ (shard s)) <= usage_ (shard s) ->
  let s' := EraseUnRefEntries meta_charge cfg s in
  TEST_GetLRUSize s' = 0 /\
  usage_ (shard s') = usage_ (shard s) - charge_sum meta_charge s (lru_ (shard s)) /\
  freed s' = freed s ++ free_records (heap s) (lru_ (shard s)) /\
  (forall p, heap s' !! p
             = if bool_decide (p ∈ lru_ (shard s)) then None else heap s !! p) /\
  (forall p, p ∈ lru_ (shard s) -> p ∉ concat (list_ (table_ (shard s')))).
Proof.
  intros W U CS. apply evict_wf_inv in W. cbv zeta. unfold EraseUnRefEntries.
  destruct (EraseUnRefEntries_loop_spec cfg (length (lru_ (shard s))) s [] W eq_refl U CS)
    as (s1 & R & L1 & U1 & F1 & X1 & H1 & _ & N1).
  rewrite R. cbn [app].
  destruct (foldl_Free_spec (lru_ (shard s)) (inv_lru_nodup _ _ W) s1) as (FF & SF & HF).
  cbv zeta in *. unfold TEST_GetLRUSize. rewrite SF, L1. split; [done|].
  split; [exact U1|]. split; [|split].
  - rewrite FF, F1. f_equal. apply free_records_same. intros p _. apply X1.
  - intros p. rewrite HF. destruct (bool_decide (p ∈ lru_ (shard s))) eqn:B; [done|].
    apply bool_decide_eq_false in B. by apply H1.
  - exact N1.
Qed.

(** ** Insert of a new key *)



Lemma link_after_self q e l : e ∈ link_after q e l.
Proof.
  induction l as [|x l IH]; cbn; [apply list_elem_of_here|].
  destruct (decide (x = q)).
  - apply list_elem_of_further, list_elem_of_here.
  - by apply list_elem_of_further.
Qed.

Lemma LRU_Insert_elem e s :
  is_Some (heap s !! e) -> e ∈ lru_ (shard (LRU_Insert meta_charge e s)).
Proof.
  intros [h E]. unfold LRU_Insert.
  destruct (bool_decide (e ∈ lru_ (shard s))) eqn:B; [by apply bool_decide_eq_true in B|].
  rewrite E. destruct (_ && _).
  - cbn. unfold MaintainPoolSize.
    match goal with |- context [MaintainPoolSize_loop _ ?r ?x] =>
      destruct (MaintainPoolSize_loop_shape r x) as (_ & -> & _) end.
    cbn. apply elem_of_app. right. apply list_elem_of_here.
  - cbn. destruct (lru_low_pri_ (shard s)); [apply link_after_self|apply list_elem_of_here].
Qed.


(** ** Recency *)

Lemma prev_of_snoc e l : forall b,
  e ∉ l -> prev_of b e (l ++ [e]) = match last l with Some x => Some x | None => b end.
Proof.
  induction l as [|x l IH]; intros b NI; cbn.
  - by rewrite decide_True.
  - apply not_elem_of_cons in NI as [N NI]. rewrite decide_False by done.
    rewrite (IH _ NI). destruct l as [|y l]; [done|].
    change (last (x :: y :: l)) with (last (y :: l)).
    destruct (last (y :: l)) eqn:LY; [done|]. apply last_None in LY. discriminate.
Qed.

Lemma unlink_snoc e l : e ∉ l -> unlink e (l ++ [e]) = l.
Proof.
  intros NI. unfold unlink. rewrite filter_app.
  rewrite filter_cons_False by (intros H; by apply H). rewrite filter_nil, app_nil_r.
  induction l as [|x l IH]; [done|]. apply not_elem_of_cons in NI as [N NI].
  rewrite filter_cons_True by done. by rewrite IH.
Qed.

Lemma last_unlink_ne e l x : last l = Some x -> x <> e -> last (unlink e l) = Some x.
Proof.
  intros L N. apply last_Some in L as (l0 & ->). unfold unlink.
  rewrite filter_app, filter_cons_True by done. rewrite filter_nil. apply last_snoc.
Qed.

(** With the boundary of the low-priority pool on the last handle, taking
    a handle off the list leaves the boundary on the last handle. *)
Lemma low_after_unlink e l (low : option ptr) :
  NoDup l -> low = last l ->
  (if bool_decide (low = Some e) then prev_of None e l else low) = last (unlink e l).
Proof.
  intros ND ->. case_bool_decide as B.
  - apply last_Some in B as (l0 & ->). apply NoDup_app in ND as (_ & D & _).
    assert (NI : e ∉ l0) by (intros H; apply (D e H), list_elem_of_here).
    rewrite prev_of_snoc, unlink_snoc by done. by destruct (last l0).
  - destruct (last l) as [x|] eqn:L.
    + symmetry. apply last_unlink_ne; [done|]. by intros ->.
    + apply last_None in L. by subst l.
Qed.

Lemma link_after_last q e l : NoDup l -> last l = Some q -> link_after q e l = l ++ [e].
Proof.
  induction l as [|x l IH]; intros ND L; [done|]. cbn.
  apply NoDup_cons in ND as [NI ND]. destruct l as [|y l].
  - cbn in L. injection L as ->. by rewrite decide_True.
  - change (last (x :: y :: l)) with (last (y :: l)) in L.
    rewrite decide_False.
    + by rewrite (IH ND L).
    + intros ->. apply NI. apply last_Some in L as (l0 & ->).
      apply elem_of_app. right. apply list_elem_of_here.
Qed.

Lemma LRU_Remove_on e s h :
  e ∈ lru_ (shard s) -> heap s !! e = Some h ->
  let s' := LRU_Remove meta_charge e s in
  lru_low_pri_ (shard s')
  = (if bool_decide (lru_low_pri_ (shard s) = Some e)
     then prev_of None e (lru_ (shard s)) else lru_low_pri_ (shard s)) /\
  capacity_ (shard s') = capacity_ (shard s) /\
  high_pri_pool_ratio_ (shard s') = high_pri_pool_ratio_ (shard s).
Proof.
  intros IN E. cbv zeta. unfold LRU_Remove. rewrite bool_decide_eq_true_2 by done.
  by rewrite E.
Qed.

Lemma LRU_Insert_low e s h :
  e ∉ lru_ (shard s) -> heap s !! e = Some h ->
  double_lt double_0 (high_pri_pool_ratio_ (shard s)) = false ->
  let s' := LRU_Insert meta_charge e s in
  lru_ (shard s')
  = match lru_low_pri_ (shard s) with
    | Some q => link_after q e (lru_ (shard s))
    | None => e :: lru_ (shard s)
    end /\
  lru_low_pri_ (shard s') = Some e /\
  heap s' = <[e := SetInHighPriPool false h]> (heap s) /\
  freed s' = freed s.
Proof.
  intros NI E R. cbv zeta. unfold LRU_Insert. rewrite bool_decide_eq_false_2 by done.
  rewrite E, R. cbn. unfold upd_handle. by rewrite E.
Qed.

(** X18. A hit refreshes recency. With the auxiliary table disabled and no
    high-priority pool (ratio 0, so that the pool boundary is the last
    handle of the list), take an unreferenced entry on the LRU list of a
    shard that is not over capacity. Lookup returns it and takes it off
    the list; the Release of that handle answers false and links the entry
    at the most-recently-used end, the other entries keeping their order.
    Usage, the primary table and the free log are unchanged. *)
Theorem Lookup_then_Release_refreshes cfg k hs hlp priority wait raw tid tid' s e h :
  CBHT_enabled cfg = false ->
  Table_Lookup (heap s) (table_ (shard s)) k hs = Some e -> heap s !! e = Some h ->
  refs h = 0 -> in_cache h = true -> indca h = false ->
  e ∈ lru_ (shard s) -> NoDup (lru_ (shard s)) ->
  lru_low_pri_ (shard s) = last (lru_ (shard s)) ->
  double_lt double_0 (high_pri_pool_ratio_ (shard s)) = false ->
  usage_ (shard s) <= capacity_ (shard s) ->
  let '(r, s1, _) := Lookup meta_charge cfg k hs hlp priority wait raw tid s in
  let '(b, s2) := Release meta_charge cfg r false tid' s1 in
  r = Some e /\ (e ∉ lru_ (shard s1)) /\ refs <$> heap s1 !! e = Some 1 /\
  b = false /\
  lru_ (shard s2) = unlink e (lru_ (shard s)) ++ [e] /\
  lru_low_pri_ (shard s2) = last (lru_ (shard s2)) /\
  usage_ (shard s2) = usage_ (shard s) /\ table_ (shard s2) = table_ (shard s) /\
  freed s2 = freed s /\
  heap s2 = <[e := SetInHighPriPool false (SetHit h)]> (heap s).
Proof.
  intros EN TL E RF IC A IN ND LOW RT UC.
  unfold Lookup. rewrite EN. unfold vanilla_path. rewrite TL, E, A, EN. cbn [app].
  set (s0 := with_ctl _ s).
  assert (E0 : heap s0 !! e = Some h) by exact E.
  destruct (LRU_Remove_shape e s0) as (H1 & F1 & _ & L1 & T1 & _ & U1 & _).
  destruct (LRU_Remove_on e s0 h IN E0) as (W1 & K1 & R1).
  set (sa := LRU_Remove meta_charge e s0) in *.
  set (sb := upd_handle e SetHit (upd_handle e Ref sa)).
  assert (Eb : heap sb !! e = Some (SetHit (Ref h))).
  { subst sb. rewrite upd_handle_upd, upd_handle_lookup, decide_True by done.
    by rewrite H1, E0. }
  assert (Sb : shard sb = shard sa) by (subst sb; by rewrite !upd_handle_shard).
  lazy beta iota zeta. unfold Release. rewrite Eb, EN. cbn [andb].
  assert (RU : refs (Unref (SetHit (Ref h))) = 0) by (cbn; by rewrite RF).
  rewrite RU. cbn [Z.eqb andb]. change (in_cache (SetHit (Ref h))) with (in_cache h).
  change (indca (SetHit (Ref h))) with (indca h). rewrite IC, A.
  set (sc := upd_handle e Unref sb).
  assert (Sc : shard sc = shard sa) by (subst sc; by rewrite upd_handle_shard).
  rewrite Sc, U1, K1. change (usage_ (shard s0)) with (usage_ (shard s)).
  change (capacity_ (shard s0)) with (capacity_ (shard s)).
  rewrite (proj2 (Z.ltb_ge _ _)) by lia. cbn [orb andb].
  assert (Ec : heap sc !! e = Some (SetHit h)).
  { subst sc. rewrite upd_handle_lookup, decide_True by done. rewrite Eb. cbn.
    f_equal. destruct h. cbn in *. subst. done. }
  assert (NIc : e ∉ lru_ (shard sc)) by (rewrite Sc, L1; apply unlink_not_elem).
  destruct (LRU_Insert_low e sc (SetHit h) NIc Ec) as (L2 & W2 & H2 & F2).
  { by rewrite Sc, R1. }
  destruct (LRU_Insert_shape e sc) as (_ & _ & T2 & _ & U2 & _).
  assert (LL : lru_ (shard (LRU_Insert meta_charge e sc))
               = unlink e (lru_ (shard s)) ++ [e]).
  { rewrite L2, Sc, W1, L1. change (lru_low_pri_ (shard s0)) with (lru_low_pri_ (shard s)).
    change (lru_ (shard s0)) with (lru_ (shard s)).
    rewrite (low_after_unlink e _ _ ND LOW).
    destruct (last (unlink e (lru_ (shard s)))) as [q|] eqn:LQ.
    - apply link_after_last; [|done]. unfold unlink. by apply NoDup_filter.
    - apply last_None in LQ. by rewrite LQ. }
  split; [done|]. split; [rewrite Sb, L1; apply unlink_not_elem|].
  split; [cbn; by rewrite RF|]. split; [done|]. split; [exact LL|].
  split; [by rewrite W2, LL, last_snoc|]. split; [by rewrite U2, Sc, U1|].
  split; [by rewrite T2, Sc, T1|]. split.
  - rewrite F2. subst sc sb. by rewrite !upd_handle_freed, F1.
  - rewrite H2. apply map_eq. intros p. destruct (decide (p = e)) as [->|N].
    + by rewrite !lookup_insert_eq.
    + rewrite !lookup_insert_ne by done. subst sc sb.
      rewrite !upd_handle_lookup, !decide_False by done. by rewrite H1.
Qed.

(** X19. The early returns of LRU_Remove and LRU_Insert. A handle that is
    not on the LRU list is left alone by LRU_Remove, and one that is on it
    by LRU_Insert; so removing twice is removing once, and inserting twice
    is inserting once: no handle is linked twice or accounted twice. *)
Theorem LRU_list_idempotent e s :
  (e ∉ lru_ (shard s) -> LRU_Remove meta_charge e s = s) /\
  (e ∈ lru_ (shard s) -> LRU_Insert meta_charge e s = s) /\
  LRU_Remove meta_charge e (LRU_Remove meta_charge e s) = LRU_Remove meta_charge e s /\
  LRU_Insert meta_charge e (LRU_Insert meta_charge e s) = LRU_Insert meta_charge e s.
Proof.
  assert (R : forall x, e ∉ lru_ (shard x) -> LRU_Remove meta_charge e x = x).
  { intros x NI. unfold LRU_Remove. by rewrite bool_decide_eq_false_2. }
  assert (I : forall x, e ∈ lru_ (shard x) -> LRU_Insert meta_charge e x = x).
  { intros x IN. unfold LRU_Insert. by rewrite bool_decide_eq_true_2. }
  split; [apply R|]. split; [apply I|]. split.
  - apply R. destruct (LRU_Remove_shape e s) as (_ & _ & _ & -> & _).
    apply unlink_not_elem.
  - destruct (decide (e ∈ lru_ (shard s))) as [IN|NI].
    + by rewrite !(I s IN).
    + destruct (heap s !! e) as [h|] eqn:E.
      * apply I. apply LRU_Insert_elem. by rewrite E.
      * assert (N : LRU_Insert meta_charge e s = s).
        { unfold LRU_Insert. rewrite E. by destruct (bool_decide _). }
        by rewrite !N.
Qed.

Lemma CBHT_Remove_elems cfg (hp : Heap) t k hs dontforce :
  let r := CBHT_Remove cfg hp t k hs dontforce in
  cb_length_bits_ r.1.2 = cb_length_bits_ t /\
  (cb_elems_ r.1.2 = cb_elems_ t \/
   (cb_elems_ r.1.2 = wrap32 (cb_elems_ t - 1) /\ is_Some r.2)).
Proof.
  cbv zeta. unfold CBHT_Remove.
  destruct (bucket _ _ !! _) as [p|]; [|by split; [|left]].
  destruct (hp !! p) as [h|]; [|by split; [|left]].
  destruct (stamp_ok cfg (DCAstamp h)); [|by split; [|left]].
  destruct (tally_loop _ _ _ _) as [refstmp pool1].
  destruct (dontforce && negb (refstmp =? 0)); cbn; [by split; [|left]|].
  split; [done|]. right. by split.
Qed.

Lemma CBHT_Lookup_elems cfg (hp : Heap) t k hs tid :
  cb_length_bits_ (CBHT_Lookup cfg hp t k hs tid).1 = cb_length_bits_ t /\
  cb_elems_ (CBHT_Lookup cfg hp t k hs tid).1 = cb_elems_ t.
Proof. unfold CBHT_Lookup. by repeat case_match. Qed.

(** EvictFIFO unlinks at most one handle. *)
Lemma EvictFIFO_loop_elems cfg n : forall (hp : Heap) t tid,
  let t' := (EvictFIFO_loop cfg n hp t tid).1.2 in
  cb_length_bits_ t' = cb_length_bits_ t /\
  (cb_elems_ t' = cb_elems_ t \/ cb_elems_ t' = wrap32 (cb_elems_ t - 1)).
Proof.
  induction n as [|n IH]; intros hp t tid; cbn; [by split; [|left]|].
  destruct (hashkeylist t) as [|temp q]; [by split; [|left]|].
  destruct (CBHT_Lookup_elems cfg hp (cb_set_queue q t) temp.1 temp.2 tid) as [L1 L2].
  destruct (CBHT_Lookup cfg hp (cb_set_queue q t) temp.1 temp.2 tid) as [t2 e].
  cbn in L1, L2. destruct e as [p|].
  - destruct (CBHT_Remove_elems cfg hp t2 temp.1 temp.2 true) as [R1 R2].
    destruct (CBHT_Remove cfg hp t2 temp.1 temp.2 true) as [[hp3 t3] r]. cbn in R1, R2.
    destruct r as [r|]; cbn.
    + rewrite R1, L1. split; [done|]. rewrite L2 in R2. destruct R2 as [?|[? _]]; auto.
    + assert (Z : cb_elems_ t3 = cb_elems_ t).
      { rewrite L2 in R2. destruct R2 as [?|[_ [? ?]]]; done. }
      destruct (IH hp3 (cb_set_queue (hashkeylist t3 ++ [temp]) t3) tid) as [I1 I2].
      cbn in I1, I2. rewrite I1, R1, L1. split; [done|]. by rewrite Z in I2.
  - destruct (IH hp t2 tid) as [I1 I2]. rewrite I1, L1. split; [done|]. by rewrite L2 in I2.
Qed.

Lemma IsTableFull_iff t :
  1 <= cb_length_bits_ t -> 0 <= cb_elems_ t ->
  CBHT_IsTableFull t = true <-> 2 ^ (cb_length_bits_ t - 1) <= cb_elems_ t.
Proof.
  intros B E. unfold CBHT_IsTableFull. rewrite Z.ltb_lt, Z.shiftr_div_pow2 by lia.
  assert (P : 0 < 2 ^ (cb_length_bits_ t - 1)) by (apply Z.pow_pos_nonneg; lia).
  split.
  - intros D. destruct (Z_lt_le_dec (cb_elems_ t) (2 ^ (cb_length_bits_ t - 1))); [|done].
    rewrite Z.div_small in D by lia. lia.
  - intros L. apply Z.div_str_pos. lia.
Qed.

(** X20. The auxiliary table is never more than half full. IsTableFull
    answers true exactly when elems_ has reached half the number of
    buckets, and an Insert, whatever it evicts or refuses, leaves elems_
    between 0 and half the number of buckets if it was so before. *)
Theorem CBHT_Insert_capacity cfg (hp : Heap) t p tid :
  1 <= cb_length_bits_ t <= 32 ->
  0 <= cb_elems_ t <= 2 ^ (cb_length_bits_ t - 1) ->
  let t' := (CBHT_Insert cfg hp t p tid).1.2 in
  (CBHT_IsTableFull t = true <-> cb_elems_ t = 2 ^ (cb_length_bits_ t - 1)) /\
  cb_length_bits_ t' = cb_length_bits_ t /\
  0 <= cb_elems_ t' <= 2 ^ (cb_length_bits_ t - 1).
Proof.
  clear meta_charge. intros B E. cbv zeta.
  assert (P : 0 < 2 ^ (cb_length_bits_ t - 1) <= 2 ^ 31).
  { split; [apply Z.pow_pos_nonneg; lia|apply Z.pow_le_mono_r; lia]. }
  split; [rewrite IsTableFull_iff by lia; lia|].
  assert (X : exists hp1 t1,
             (if CBHT_IsTableFull t
              then let '(hp0, t0, _) := CBHT_EvictFIFO cfg hp t tid in (hp0, t0)
              else (hp, t)) = (hp1, t1) /\
             cb_length_bits_ t1 = cb_length_bits_ t /\
             0 <= cb_elems_ t1 <= 2 ^ (cb_length_bits_ t - 1)).
  { destruct (CBHT_IsTableFull t) eqn:F; [|by eexists _, _].
    apply IsTableFull_iff in F; [|lia..].
    pose proof (EvictFIFO_loop_elems cfg (Z.to_nat (aux_capacity cfg)) hp t tid) as [L1 L2].
    fold (CBHT_EvictFIFO cfg hp t tid) in L1, L2.
    destruct (CBHT_EvictFIFO cfg hp t tid) as [[hp0 t0] r]. cbn in L1, L2.
    eexists _, _. split; [reflexivity|]. split; [done|].
    destruct L2 as [L2|L2]; rewrite L2; [lia|]. unfold wrap32. rewrite Z.mod_small; lia. }
  destruct X as (hp1 & t1 & EQ & L1 & E1). unfold CBHT_Insert. rewrite EQ.
  destruct (CBHT_IsTableFull t1) eqn:F1; cbn; [by rewrite L1|].
  destruct (hp1 !! p) as [h|]; cbn; [|by rewrite L1].
  destruct (stamp_scan _ _ _ _ _ _) as [[pool1 stamptmp] incr1]. cbn.
  split; [done|].
  assert (NF : cb_elems_ t1 < 2 ^ (cb_length_bits_ t - 1)).
  { destruct (Z_lt_le_dec (cb_elems_ t1) (2 ^ (cb_length_bits_ t - 1))); [done|].
    assert (CBHT_IsTableFull t1 = true); [|congruence].
    apply IsTableFull_iff; [lia|lia|]. by rewrite L1. }
  destruct (bucket _ _ !! _); [lia|]. unfold wrap32. rewrite Z.mod_small; lia.
Qed.

Lemma EvictFIFO_loop_none cfg n : forall (hp : Heap) t tid,
  let r := EvictFIFO_loop cfg n hp t tid in
  r.2 = None ->
  r.1.1 = hp /\ cb_list_ r.1.2 = cb_list_ t /\ cb_elems_ r.1.2 = cb_elems_ t /\
  cb_length_bits_ r.1.2 = cb_length_bits_ t /\ availindex r.1.2 = availindex t.
Proof.
  induction n as [|n IH]; intros hp t tid; cbn; [done|].
  destruct (hashkeylist t) as [|temp q]; [done|].
  assert (L : forall x, cb_list_ (CBHT_Lookup cfg hp x temp.1 temp.2 tid).1 = cb_list_ x /\
                cb_elems_ (CBHT_Lookup cfg hp x temp.1 temp.2 tid).1 = cb_elems_ x /\
                cb_length_bits_ (CBHT_Lookup cfg hp x temp.1 temp.2 tid).1
                = cb_length_bits_ x /\
                availindex (CBHT_Lookup cfg hp x temp.1 temp.2 tid).1 = availindex x).
  { intros x. unfold CBHT_Lookup. by repeat case_match. }
  destruct (L (cb_set_queue q t)) as (L1 & L2 & L3 & L4).
  destruct (CBHT_Lookup cfg hp (cb_set_queue q t) temp.1 temp.2 tid) as [t2 e].
  cbn in L1, L2, L3, L4. destruct e as [p|].
  - assert (R : let r := CBHT_Remove cfg hp t2 temp.1 temp.2 true in
                r.2 = None ->
                r.1.1 = hp /\ cb_list_ r.1.2 = cb_list_ t2 /\ cb_elems_ r.1.2 = cb_elems_ t2 /\
                cb_length_bits_ r.1.2 = cb_length_bits_ t2 /\
                availindex r.1.2 = availindex t2).
    { cbv zeta. unfold CBHT_Remove. repeat case_match; simplify_eq; cbn; done. }
    destruct (CBHT_Remove cfg hp t2 temp.1 temp.2 true) as [[hp3 t3] r]. cbn in R.
    destruct r as [r|]; cbn; [done|]. destruct (R eq_refl) as (-> & R1 & R2 & R3 & R4).
    intros N. destruct (IH hp (cb_set_queue (hashkeylist t3 ++ [temp]) t3) tid N)
      as (-> & I1 & I2 & I3 & I4).
    cbn in I1, I2, I3, I4. split; [done|]. by rewrite I1, I2, I3, I4, R1, R2, R3, R4.
  - intros N. destruct (IH hp t2 tid N) as (-> & I1 & I2 & I3 & I4).
    split; [done|]. by rewrite I1, I2, I3, I4.
Qed.

(** X21. A refused CBHTable::Insert. When the table is full and EvictFIFO
    evicts nothing, Insert returns the handle it was given: the handle is
    not chained, no handle is written, and the chains and elems_ are
    those from before; only the tally cells and the queue of keys may have
    been changed by the probes. *)
Theorem CBHT_Insert_refused cfg (hp : Heap) t p tid :
  CBHT_IsTableFull t = true -> (CBHT_EvictFIFO cfg hp t tid).2 = None ->
  let '(hp', t', r) := CBHT_Insert cfg hp t p tid in
  r = Some p /\ hp' = hp /\ cb_list_ t' = cb_list_ t /\ cb_elems_ t' = cb_elems_ t /\
  t' = (CBHT_EvictFIFO cfg hp t tid).1.2.
Proof.
  clear meta_charge. intros F N.
  destruct (EvictFIFO_loop_none cfg (Z.to_nat (aux_capacity cfg)) hp t tid N)
    as (H1 & L1 & E1 & B1 & _).
  fold (CBHT_EvictFIFO cfg hp t tid) in *.
  unfold CBHT_Insert. rewrite F.
  destruct (CBHT_EvictFIFO cfg hp t tid) as [[hp1 t1] r1]. cbn in *. subst hp1.
  assert (F1 : CBHT_IsTableFull t1 = true).
  { unfold CBHT_IsTableFull in *. by rewrite E1, B1. }
  rewrite F1. done.
Qed.

(** ** Release of the last reference *)

Lemma MaintainPoolSize_loop_refs rest : forall s p,
  refs <$> heap (MaintainPoolSize_loop meta_charge rest s) !! p = refs <$> heap s !! p.
Proof.
  induction rest as [|x rest IH]; intros s p; cbn.
  - by destruct (double_lt _ _).
  - destruct (double_lt _ _); [|done]. rewrite IH. cbn.
    rewrite upd_handle_lookup. destruct (decide (p = x)) as [->|]; [|done].
    by destruct (heap s !! x).
Qed.

(** X22. Release of the last reference to an entry that is in the cache
    and not served by the auxiliary table. When the shard is over capacity
    or force_erase is set, the entry leaves the primary table and is
    freed, and its charge leaves usage (unless it is a secondary-cache
    entry without value); Release answers true. Otherwise the entry goes
    back on the LRU list, still in the table, with no reference; usage is
    unchanged and Release answers false. *)
Theorem Release_last_reference cfg e force_erase tid s h :
  heap s !! e = Some h -> refs h = 1 -> in_cache h = true -> indca h = false ->
  table_wf (heap s) (table_ (shard s)) = true ->
  Table_Lookup (heap s) (table_ (shard s)) (key h) (hash h) = Some e ->
  let '(b, s') := Release meta_charge cfg (Some e) force_erase tid s in
  if (capacity_ (shard s) <? usage_ (shard s)) || force_erase then
    b = true /\
    Table_Lookup (heap s') (table_ (shard s')) (key h) (hash h) = None /\
    heap s' !! e = None /\ freed s' = freed s ++ [mkFree e (key h) (value h)] /\
    usage_ (shard s')
    = (if negb (is_secondary_cache_compatible h) || negb (value h =? 0)
       then wrap64 (usage_ (shard s) - total_charge_of meta_charge s h)
       else usage_ (shard s)) /\
    lru_ (shard s') = lru_ (shard s)
  else
    b = false /\ e ∈ lru_ (shard s') /\
    Table_Lookup (heap s') (table_ (shard s')) (key h) (hash h) = Some e /\
    refs <$> heap s' !! e = Some 0 /\ freed s' = freed s /\
    usage_ (shard s') = usage_ (shard s).
Proof.
  intros E RF IC A (O & _)%table_wf_ok TL.
  unfold Release. rewrite E, A, andb_false_r.
  assert (RU : refs (Unref h) = 0) by (cbn; by rewrite RF).
  rewrite RU, IC. cbn [Z.eqb andb].
  set (s1 := upd_handle e Unref s).
  assert (S1 : shard s1 = shard s) by apply upd_handle_shard.
  assert (E1 : heap s1 !! e = Some (Unref h)).
  { subst s1. rewrite upd_handle_lookup, decide_True by done. by rewrite E. }
  assert (X1 : heap_cached (heap s) (heap s1)).
  { apply heap_cached_upd. intros h0. by repeat split. }
  rewrite S1.
  destruct ((capacity_ (shard s) <? usage_ (shard s)) || force_erase) eqn:OV.
  - (* the entry is erased *)
    unfold shard_table_remove. rewrite S1.
    rewrite (Table_Remove_ext _ _ _ _ _ (heap_cached_ext _ _ X1)).
    rewrite (Table_Remove_found _ _ _ _ _ TL). cbn [andb].
    set (t' := mkTable _ _ _ _).
    set (s2 := upd_handle e (SetInCache false) (with_shard (set_table t' (shard s)) s1)).
    assert (E2 : heap s2 !! e = Some (SetInCache false (Unref h))).
    { subst s2. rewrite upd_handle_lookup, decide_True by done. cbn. by rewrite E1. }
    assert (S2 : shard s2 = set_table t' (shard s)) by (subst s2; by rewrite upd_handle_shard).
    assert (X2 : heap_ext (heap s) (heap s2)).
    { eapply heap_ext_trans; [apply heap_cached_ext, X1|].
      subst s2. change (heap s1) with (heap (with_shard (set_table t' (shard s)) s1)).
      apply heap_ext_upd. intros h0. by repeat split. }
    set (s3 := if negb (is_secondary_cache_compatible h) || negb (value h =? 0)
               then with_shard (set_usage (wrap64 (usage_ (shard s2)
                                             - total_charge_of meta_charge s2 h))
                                          (shard s2)) s2
               else s2).
    assert (H3 : heap s3 = heap s2) by (subst s3; by destruct (_ || negb _)).
    assert (F3 : freed s3 = freed s).
    { transitivity (freed s2); [subst s3; by destruct (_ || negb _)|].
      subst s2. rewrite upd_handle_freed. change (freed s1 = freed s).
      apply upd_handle_freed. }
    assert (E3 : heap s3 !! e = Some (SetInCache false (Unref h))) by (by rewrite H3).
    destruct (Free_present e _ s3 E3) as [FF FH]. rewrite Free_shard.
    split; [done|]. split; [|split; [done|split; [by rewrite FF, F3|]]].
    + assert (T3 : table_ (shard s3) = t').
      { subst s3. destruct (_ || negb _); cbn; by rewrite S2. }
      rewrite T3, Table_Lookup_chain. subst t'. cbn [list_ length_bits_].
      eapply chain_lookup_sub_none.
      * eapply heap_sub_trans; [apply heap_ext_sub, X2|]. rewrite <- H3.
        intros p h' Hp. unfold Free in Hp. rewrite E3 in Hp. cbn in Hp.
        apply lookup_delete_Some in Hp as [_ Hp]. exists h'. split; [done|].
        apply same_entry_refl.
      * eapply unlink_lookup_none; [done|]. by rewrite <- Table_Lookup_chain.
    + subst s3. destruct (_ || negb _); cbn; rewrite S2; cbn; [|done]. split; [|done].
      do 2 f_equal. unfold total_charge_of. by rewrite S2.
  - (* the entry goes back on the LRU list *)
    cbn [andb]. destruct (LRU_Insert_shape e s1) as (C2 & _ & T2 & _ & U2 & _).
    destruct (LRU_Insert_frame e s1) as [F2 _].
    split; [done|]. split; [apply LRU_Insert_elem; by rewrite E1|].
    split; [|split; [|split]].
    + rewrite T2, S1, Table_Lookup_chain.
      rewrite (chain_lookup_ext _ _ _ _ _ _
                 (heap_ext_trans _ _ _ (heap_cached_ext _ _ X1) (heap_cached_ext _ _ C2))).
      by rewrite <- Table_Lookup_chain.
    + unfold LRU_Insert. destruct (bool_decide _); [by rewrite E1; cbn; rewrite RF|].
      rewrite E1. destruct (_ && _); cbn.
      * unfold MaintainPoolSize.
        match goal with |- context [MaintainPoolSize_loop _ ?r ?x] =>
          pose proof (MaintainPoolSize_loop_refs r x e) as MR end.
        rewrite MR. cbn. rewrite upd_handle_lookup, decide_True by done.
        rewrite E1. cbn. by rewrite RF.
      * rewrite upd_handle_lookup, decide_True by done. rewrite E1. cbn. by rewrite RF.
    + rewrite F2. subst s1. by rewrite upd_handle_freed.
    + by rewrite U2, S1.
Qed.

End Proofs.

(** * Instances on concrete inputs *)

(** C2: on the promoted entry Release answers true although nothing is
    freed, so "true iff freed" fails. *)
Lemma Release_true_without_free :
  let '(r, s') := Release no_meta cfg_on (Some 1%nat) false 0 state_hot in
  r = true /\ ~ entry_freed 1%nat state_hot s'.
Proof.
  vm_compute. split; [reflexivity|].
  intros [r [_ [_ H]]]. vm_compute in H. discriminate H.
Qed.

Lemma Release_true_iff_freed_or_aux_witness :
  heap state_hot !! 1%nat = Some (mkLRUHandle 11 None None 10 "K" 1 6 true false false
                                    true false false false false true 1 2) /\
  let '(r, s') := Release no_meta cfg_on (Some 1%nat) false 0 state_hot in
  (r = true <-> entry_freed 1%nat state_hot s' \/ (CBHT_enabled cfg_on = true /\ true = true)) /\
  (CBHT_enabled cfg_on = true /\ true = true ->
   r = true /\ freed s' = freed state_hot /\ heap s' = heap state_hot).
Proof.
  assert (E : heap state_hot !! 1%nat =
              Some (mkLRUHandle 11 None None 10 "K" 1 6 true false false
                      true false false false false true 1 2)) by (vm_compute; reflexivity).
  split; [exact E|].
  exact (Release_true_iff_freed_or_aux no_meta cfg_on 1%nat _ false 0 state_hot E).
Defined.

(** C1: with force=false and a row [1; -1] that sums to 0, Remove takes the
    entry out and leaves the row as it is. *)
Lemma CBHT_Remove_keeps_row :
  ~ Remove_as_claimed cfg_always (heap state_tally) (cbhtable_ (shard state_tally))
      "K" 1 true.
Proof.
  intros H.
  assert (F : CBHT_Find (heap state_tally) (cbhtable_ (shard state_tally)) "K" 1
              = Some 1%nat) by (vm_compute; reflexivity).
  assert (E : heap state_tally !! 1%nat = Some handle_K5) by (vm_compute; reflexivity).
  assert (S : sumZ (tally_row cfg_always (DCA_ref_pool (cbhtable_ (shard state_tally)))
                      (DCAstamp_tc handle_K5)) = 0) by (vm_compute; reflexivity).
  assert (R : tally_row cfg_always
                (DCA_ref_pool (CBHT_Remove cfg_always (heap state_tally)
                                 (cbhtable_ (shard state_tally)) "K" 1 true).1.2)
                (DCAstamp_tc handle_K5) = [1; -1]) by (vm_compute; reflexivity).
  specialize (H 1%nat handle_K5 F E). cbv zeta in H. rewrite S in H.
  change (true && negb (0 =? 0)) with false in H.
  revert H R.
  destruct (CBHT_Remove cfg_always (heap state_tally) (cbhtable_ (shard state_tally))
              "K" 1 true) as [[hp' t'] r].
  cbn [fst snd]. intros (_ & Z & _) R. rewrite R in Z. discriminate Z.
Qed.

Lemma CBHT_Remove_spec_witness :
  let hp := heap state_tally in
  let t := cbhtable_ (shard state_tally) in
  let '(hp', t', r) := CBHT_Remove cfg_always hp t "K" 1 true in
  r = Some 1%nat /\
  (exists h', hp' !! 1%nat = Some h' /\ refs h' = Z.max 0 (5 + 0) /\
              indca h' = false /\ DCAstamp h' = -1) /\
  arr_get (DCA_ref_pool t') (availindex t' + 1) = 0 /\
  tally_row cfg_always (DCA_ref_pool t') 2 = tally_row cfg_always (DCA_ref_pool t) 2.
Proof.
  exact (CBHT_Remove_spec cfg_always (heap state_tally) (cbhtable_ (shard state_tally))
           "K" 1 true 1%nat handle_K5 0
           ltac:(vm_compute; reflexivity) ltac:(vm_compute; reflexivity)
           ltac:(reflexivity) ltac:(reflexivity) ltac:(reflexivity)
           ltac:(vm_compute; reflexivity)
           ltac:(simpl; lia) ltac:(unfold in_int; lia) ltac:(unfold in_int; simpl; lia)).
Defined.

(** C9 as stated fails twice. With num_shard_bits = -1, outside [0,19],
    the cache is built. With a NaN ratio, which lies outside [0.0,1.0],
    neither comparison of NewLRUCache holds and the cache is built. *)
Lemma NewLRUCache_accepts_negative_bits_and_NaN :
  (NewCache_rejects_spec (-1) double_1 /\
   NewLRUCache no_meta (fun _ => 0) cfg_off 1000 (-1) false double_1
               kDontChargeCacheMetadata None <> None) /\
  (NewCache_rejects_spec 4 S754_nan /\
   NewLRUCache no_meta (fun _ => 0) cfg_off 1000 4 false S754_nan
               kDontChargeCacheMetadata None <> None).
Proof.
  split; split.
  - left. lia.
  - unfold NewLRUCache. simpl. discriminate.
  - right. reflexivity.
  - unfold NewLRUCache. simpl. discriminate.
Qed.

(** C9, amended, with num_shard_bits = -1, a default of 2 shard bits and
    the ratio 1.0: the cache is the one built with 2 shard bits. *)
Lemma NewLRUCache_null_iff_witness :
  NewLRUCache no_meta (fun _ => 2) cfg_off 1000 (-1) false double_1
              kDontChargeCacheMetadata None
  = Some (LRUCache_new no_meta cfg_off 1000 2 false double_1 kDontChargeCacheMetadata None)
  /\ num_shards_ (LRUCache_new no_meta cfg_off 1000 2 false double_1
                               kDontChargeCacheMetadata None) = 4.
Proof.
  apply (NewLRUCache_null_iff no_meta (fun _ => 2) cfg_off 1000 (-1) false double_1
           kDontChargeCacheMetadata None ltac:(reflexivity)).
  unfold NewLRUCache. simpl. discriminate.
Defined.

(** C8: the decision run by a Lookup on shard 0. The shards' hitrates are
    0, 80, 70 and 60, so the median of the spec is (60 + 50) / 2 = 55; the
    sort runs over the first four cells of the padded array, which hold the
    hitrate of shard 0 and three padding cells, and the code stores
    (0 + 50) / 2 = 25. *)
Theorem controller_median_sorts_padding :
  let s' := (Lookup no_meta cfg_pad "K" 4 None LOW true raw0 0 state_pad).1.2 in
  shard_hitrates cfg_pad (hitrate (ctl s')) = [0; 80; 70; 60] /\
  arr_get (DCAskip_hit (ctl s')) (Shard cfg_pad 4 * PADDING cfg_pad) = 25 /\
  median_spec cfg_pad (hitrate (ctl s')) (CBHTturnoff cfg_pad) = 55.
Proof. vm_compute. repeat split. Qed.

(** C3: a fresh shard satisfies the stamp invariant; after one Insert, the
    new entry is outside the auxiliary table and its stamp is what the
    allocated memory held (0 here), not -1. *)
Theorem Insert_leaves_stamp_unset :
  let s' := (Insert no_meta cfg_on "K" 1 11 10 None false LOW raw0 0 shard_on).2 in
  stamp_invariant cfg_on shard_on /\
  (exists h, heap s' !! 1%nat = Some h /\ indca h = false /\ DCAstamp h = 0) /\
  ~ stamp_invariant cfg_on s'.
Proof.
  split; [|split].
  - intros e h E. vm_compute in E. discriminate E.
  - eexists. split; [vm_compute; reflexivity|]. split; reflexivity.
  - intros I.
    specialize (I 1%nat (mkLRUHandle 11 None None 10 "K" 1 0 true false false
                           false false false false false false 0 0)
                  ltac:(vm_compute; reflexivity)).
    simpl in I. discriminate I.
Qed.

(** The scan for a stamp when every slot is taken: the entry is given
    stamp 0, which another entry holds. *)
Example stamp_scan_all_taken :
  stamp_scan 4 8 4 0 [0; 0; 0; 0; 0; 0; 0; 0; 1; 1; 1; 1] 0
  = ([0; 0; 0; 0; 0; 0; 0; 0; 1; 1; 1; 1], 0, 0).
Proof. reflexivity. Qed.

(** C7: the shard is not active (adaptive mode, CBHTState false), the key
    is absent and a secondary cache is configured. Lookup runs the check of
    the primary table all the same and returns null from it. *)
Lemma Lookup_checks_primary_when_inactive :
  ~ Lookup_as_claimed no_meta cfg_on "K" 1 (Some (mkHelper true)) LOW true raw0 0 shard_sec.
Proof.
  unfold Lookup_as_claimed.
  assert (E : Lookup no_meta cfg_on "K" 1 (Some (mkHelper true)) LOW true raw0 0 shard_sec
              = (None, shard_sec, [NegativeCheck])) by (vm_compute; reflexivity).
  rewrite E. intros [[H _] _].
  assert (A : aux_active cfg_on shard_sec (Shard cfg_on 1 * PADDING cfg_on) = false)
    by (vm_compute; reflexivity).
  rewrite A in H. assert (F : false = true) by (apply H; simpl; auto). discriminate F.
Qed.



(** C5 as stated fails for a charge whose sum with usage passes 2^64. On
    [state_pinned] (strict, capacity 50, usage 40, nothing to evict) an
    Insert of "B" with charge 2^64 - 1 that asks for a handle computes
    usage + charge as 39: although usage + charge exceeds capacity, Insert
    answers Ok, hands back the handle and keeps the entry in the table. *)
Lemma Insert_charge_wraps :
  let c := 2 ^ 64 - 1 in
  let s1 := (EvictFromLRU no_meta cfg_off c
               (alloc (Insert_handle "B" 2 22 c None LOW raw0) state_pinned) []).1 in
  let '(st, out, s') :=
    Insert no_meta cfg_off "B" 2 22 c None true LOW raw0 0 state_pinned in
  (capacity_ (shard s1) < usage_ (shard s1) + c /\
   strict_capacity_limit_ (shard s1) = true) /\
  st = Ok /\ out = Some 2%nat /\
  Table_Lookup (heap s') (table_ (shard s')) "B" 2 = Some 2%nat /\
  in_cache <$> heap s' !! 2%nat = Some true /\ usage_ (shard s') = 39.
Proof. vm_compute. split_and!; reflexivity. Qed.

(** C5 on the pinned shard: "B" (charge 40) does not fit, a handle is
    requested, and Insert answers Incomplete with a null handle. *)
Lemma Insert_over_capacity_witness :
  let '(st, out, s') :=
    Insert no_meta cfg_off "B" 2 22 40 None true LOW raw0 0 state_pinned in
  st = Incomplete /\ out = None /\ heap s' !! 2%nat = None.
Proof.
  pose proof (Insert_over_capacity no_meta cfg_off "B" 2 22 40 None true LOW raw0 0
                state_pinned
                ltac:(intros H; vm_compute in H; by apply elem_of_nil in H)
                ltac:(vm_compute; discriminate)
                ltac:(vm_compute; reflexivity)) as T.
  destruct (Insert no_meta cfg_off "B" 2 22 40 None true LOW raw0 0 state_pinned)
    as [[st out] s'].
  destruct T as [T _].
  destruct T as (_ & G & I & _).
  - split; [vm_compute; reflexivity|left; vm_compute; reflexivity].
  - destruct (I eq_refl) as [-> ->]. split; [done|]. split; [done|]. exact G.
Defined.



(** ** Instances of the further properties *)

(** X1 on the table of [state_ABC]: "C" is new, its Insert returns null
    and Lookup then finds it at address 3, behind "A" and "B" in bucket 0. *)
Lemma Table_Insert_then_Lookup_witness :
  let '(t', old) := Table_Insert (heap state_ABC) (table_ (shard state_ABC)) 3 handle_C in
  old = None /\ Table_Lookup (heap state_ABC) t' "C" 3 = Some 3%nat /\
  Table_Lookup (heap state_ABC) t' "A" 1 = Some 1%nat.
Proof.
  pose proof (Table_Insert_then_Lookup (heap state_ABC) (table_ (shard state_ABC)) 3 handle_C
                ltac:(vm_compute; reflexivity) ltac:(vm_compute; reflexivity)
                ltac:(vm_compute; split; [discriminate|reflexivity])
                ltac:(compute_done)) as T.
  destruct (Table_Insert (heap state_ABC) (table_ (shard state_ABC)) 3 handle_C) as [t' old].
  destruct T as (T1 & T2 & T3). split; [rewrite T1; vm_compute; reflexivity|].
  split; [exact T2|]. rewrite (T3 "A" 1); [vm_compute; reflexivity|discriminate].
Defined.

Lemma Table_Insert_wf_witness :
  table_wf (heap state_ABC)
    (Table_Insert (heap state_ABC) (table_ (shard state_ABC)) 3 handle_C).1 = true.
Proof.
  apply (Table_Insert_wf (heap state_ABC) (table_ (shard state_ABC)) 3 handle_C
           ltac:(vm_compute; reflexivity) ltac:(vm_compute; reflexivity)
           ltac:(vm_compute; split; [discriminate|reflexivity])
           ltac:(compute_done) ltac:(vm_compute; reflexivity)).
Defined.

Lemma Table_Remove_then_Lookup_witness :
  let '(t', r) := Table_Remove (heap state_AB) (table_ (shard state_AB)) "A" 1 in
  r = Some 1%nat /\ Table_Lookup (heap state_AB) t' "A" 1 = None /\
  Table_Lookup (heap state_AB) t' "B" 2 = Some 2%nat.
Proof.
  pose proof (Table_Remove_then_Lookup (heap state_AB) (table_ (shard state_AB)) "A" 1
                ltac:(vm_compute; reflexivity)) as T.
  destruct (Table_Remove (heap state_AB) (table_ (shard state_AB)) "A" 1) as [t' r].
  destruct T as (T1 & _ & T2 & T3 & _). split; [rewrite T1; vm_compute; reflexivity|].
  split; [exact T2|]. rewrite (T3 "B" 2); [vm_compute; reflexivity|discriminate].
Defined.

Lemma Table_Resize_keeps_lookups_witness :
  Table_Lookup (heap state_AB) (Table_Resize (heap state_AB) (table_ (shard state_AB))) "B" 2
  = Some 2%nat /\
  length_bits_ (Table_Resize (heap state_AB) (table_ (shard state_AB))) = 5.
Proof.
  pose proof (Table_Resize_keeps_lookups (heap state_AB) (table_ (shard state_AB))
                ltac:(vm_compute; reflexivity)) as (_ & T1 & _ & T2).
  split.
  - rewrite T1. vm_compute. reflexivity.
  - destruct T2 as [T2 _]; [|rewrite T2; vm_compute; reflexivity].
    unfold table_at_limit. vm_compute. intros [H|H]; by apply H.
Defined.

Lemma Shard_below_GetNumShards_witness :
  Shard cfg_pad 7 = 7 mod 2 ^ 2 /\ GetNumShards cfg_pad = 2 ^ 2 /\
  0 <= Shard cfg_pad 7 < GetNumShards cfg_pad.
Proof.
  apply (Shard_below_GetNumShards cfg_pad 7); [simpl; lia|lia].
Defined.

(** X6 for a capacity of 101 over 4 shards: each shard gets 26. *)
Lemma NewLRUCache_shards_witness :
  exists c,
    NewLRUCache no_meta (fun _ => 0) cfg_off 101 2 false double_0 kDontChargeCacheMetadata None
      = Some c /\
    num_shards_ c = 4 /\ forall sh, sh ∈ shards_ c -> capacity_ sh = 26.
Proof.
  destruct (NewLRUCache_shards no_meta (fun _ => 0) cfg_off 101 2 false double_0
              kDontChargeCacheMetadata None
              ltac:(lia) ltac:(reflexivity) ltac:(lia))
    as (c & E & N & _ & _ & F).
  exists c. split; [exact E|]. split; [exact N|].
  intros sh Hs. destruct (F sh Hs) as [-> _]. reflexivity.
Defined.

(** X7 on a table of 16 buckets walked 5 at a time from state 0. *)
Lemma ApplyToSomeEntries_range_next_witness :
  let '(index_begin, index_end, state') := ApplyToSomeEntries_range 4 5 0 in
  0 <= index_begin < index_end /\ index_end <= 2 ^ 4 /\
  (index_end = 2 ^ 4 <-> state' = 2 ^ 32 - 1) /\
  (index_end < 2 ^ 4 -> (ApplyToSomeEntries_range 4 5 state').1.1 = index_end).
Proof.
  apply (ApplyToSomeEntries_range_next 4 5 0); [lia|lia|lia|by right].
Defined.

(** X8 on [state_tally]: thread 0 looks "K" up in the auxiliary table and
    releases it. *)
Lemma CBHT_Lookup_then_Unref_witness :
  let '(t1, r) :=
    CBHT_Lookup cfg_always (heap state_tally) (cbhtable_ (shard state_tally)) "K" 1 0 in
  r = Some 1%nat /\ CBHT_Unref cfg_always t1 handle_K5 0 = cbhtable_ (shard state_tally).
Proof.
  pose proof (CBHT_Lookup_then_Unref cfg_always (heap state_tally)
                (cbhtable_ (shard state_tally)) "K" 1 0 1%nat handle_K5
                ltac:(vm_compute; reflexivity) ltac:(vm_compute; reflexivity)
                ltac:(vm_compute; split; [discriminate|reflexivity])) as T.
  destruct (CBHT_Lookup cfg_always (heap state_tally) (cbhtable_ (shard state_tally)) "K" 1 0)
    as [t1 r].
  destruct T as (T1 & _ & T2). by split.
Defined.

(** X9 on the pool of [state_tally], where stamp 1 is taken: the scan from
    stampincr = 1 returns stamp 2. *)
Lemma stamp_scan_finds_free_witness :
  let '(pool', stamp, incr') :=
    stamp_scan 8 16 (Z.to_nat 8) 1 (DCA_ref_pool (cbhtable_ (shard state_tally))) 1 in
  0 <= stamp < 8.
Proof.
  pose proof (stamp_scan_finds_free 8 16 (DCA_ref_pool (cbhtable_ (shard state_tally))) 1
                ltac:(lia) ltac:(lia)) as T.
  destruct (stamp_scan 8 16 (Z.to_nat 8) 1 (DCA_ref_pool (cbhtable_ (shard state_tally))) 1)
    as [[pool' stamp] incr'].
  by destruct T as [T _].
Defined.

(** X10 on [state_on_K]: "K" enters the empty auxiliary table. *)
Lemma CBHT_Insert_then_Find_witness :
  let '(hp', t', old) :=
    CBHT_Insert cfg_on (heap state_on_K) (cbhtable_ (shard state_on_K)) 1 0 in
  old = None /\ CBHT_Find hp' t' "K" 1 = Some 1%nat /\
  hashkeylist t' = [("K", 1)].
Proof.
  pose proof (CBHT_Insert_then_Find cfg_on (heap state_on_K) (cbhtable_ (shard state_on_K))
                1 0 handle_on_K
                ltac:(vm_compute; reflexivity) ltac:(vm_compute; reflexivity)
                ltac:(vm_compute; lia) ltac:(vm_compute; split; reflexivity)
                ltac:(vm_compute; split; [discriminate|reflexivity])) as T.
  destruct (CBHT_Insert cfg_on (heap state_on_K) (cbhtable_ (shard state_on_K)) 1 0)
    as [[hp' t'] old].
  destruct T as (T1 & T2 & _ & T3). split; [rewrite T1; vm_compute; reflexivity|].
  split; [exact T2|]. rewrite T3. vm_compute. reflexivity.
Defined.

(** X11 on [state_tally], where the row of "K" is [1; -1]: the probe by
    thread 0 sees the sum 1, keeps "K" and puts its key back. *)
Lemma EvictFIFO_probe_witness :
  let t := cbhtable_ (shard state_tally) in
  EvictFIFO_loop cfg_always 1 (heap state_tally) t 0
  = EvictFIFO_loop cfg_always 0 (heap state_tally)
      (cb_set_queue ([] ++ [("K", 1)])
         (cb_set_pool (arr_set (DCA_ref_pool t) 2 (arr_get (DCA_ref_pool t) 2 + 1)) t)) 0.
Proof.
  exact (EvictFIFO_probe cfg_always 0 (heap state_tally) (cbhtable_ (shard state_tally)) 0
           "K" 1 [] 1%nat handle_K5
           ltac:(vm_compute; reflexivity) ltac:(vm_compute; reflexivity)
           ltac:(vm_compute; reflexivity) ltac:(vm_compute; reflexivity)
           ltac:(vm_compute; split; [discriminate|reflexivity])
           ltac:(vm_compute; discriminate) ltac:(vm_compute; reflexivity)
           ltac:(vm_compute; split; [discriminate|reflexivity])
           ltac:(vm_compute; split; [discriminate|reflexivity])
           ltac:(vm_compute; split; [discriminate|reflexivity])).
Defined.

(** X12 on [state_on_K], whose entry has one reference, with the auxiliary
    table switched off. *)
Lemma Ref_then_Release_witness :
  Release no_meta cfg_off (Some 1%nat) false 0 (Shard_Ref 1 state_on_K).2
  = (false, state_on_K).
Proof.
  exact (Ref_then_Release no_meta cfg_off 1 false 0 state_on_K handle_on_K
           ltac:(vm_compute; reflexivity) ltac:(vm_compute; split; reflexivity)).
Defined.

(** X13 on [state_AB]: "A" is erased and no longer found. *)
Lemma Erase_then_Lookup_witness :
  let s' := Erase no_meta cfg_off "A" 1 state_AB in
  Table_Lookup (heap s') (table_ (shard s')) "A" 1 = None /\
  exists tr, Lookup no_meta cfg_off "A" 1 None LOW true raw0 0 s' = (None, s', tr).
Proof.
  destruct (Erase_then_Lookup no_meta cfg_off "A" 1 state_AB None LOW true raw0 0
              ltac:(vm_compute; reflexivity) ltac:(right; vm_compute; reflexivity))
    as (T1 & T2 & _).
  by split.
Defined.

(** X14 on [state_AB]: "A" has no reference, so Erase frees it and usage
    drops from 80 to 40. *)
Lemma Erase_entry_witness :
  let s' := Erase no_meta cfg_off "A" 1 state_AB in
  heap s' !! 1%nat = None /\ freed s' = [mkFree 1 "A" 11] /\ usage_ (shard s') = 40.
Proof.
  destruct (Erase_entry no_meta cfg_off "A" 1 state_AB 1 handle_A
              ltac:(vm_compute; reflexivity) ltac:(vm_compute; reflexivity))
    as ([T1 T2] & T3 & _).
  split; [exact T1|]. split; [exact T2|exact T3].
Defined.

(** X15 on [state_AB]: lowering the capacity from 100 to 50 evicts "A". *)
Lemma SetCapacity_spec_witness :
  let s' := SetCapacity no_meta cfg_off 50 state_AB in
  capacity_ (shard s') = 50 /\
  (usage_ (shard s') <= 50 \/ lru_ (shard s') = []).
Proof.
  destruct (SetCapacity_spec no_meta cfg_off 50 state_AB
              ltac:(vm_compute; reflexivity)
              ltac:(vm_compute; split; [discriminate|reflexivity])
              ltac:(vm_compute; discriminate)) as (T1 & T2 & _).
  by split.
Defined.

(** X16 on [state_AB]: "A" and "B" are both unreferenced and both go. *)
Lemma EraseUnRefEntries_spec_witness :
  let s' := EraseUnRefEntries no_meta cfg_off state_AB in
  TEST_GetLRUSize s' = 0 /\ usage_ (shard s') = 0 /\
  freed s' = [mkFree 1 "A" 11; mkFree 2 "B" 22].
Proof.
  destruct (EraseUnRefEntries_spec no_meta cfg_off state_AB
              ltac:(vm_compute; reflexivity)
              ltac:(vm_compute; split; [discriminate|reflexivity])
              ltac:(vm_compute; discriminate)) as (T1 & T2 & T3 & _).
  split; [exact T1|]. split; [exact T2|exact T3].
Defined.


(** X18 on [state_AB], whose list is "A", "B": after a Lookup of "A" and
    the Release of the handle the list is "B", "A". *)
Lemma Lookup_then_Release_refreshes_witness :
  let '(r, s1, _) := Lookup no_meta cfg_off "A" 1 None LOW true raw0 0 state_AB in
  let '(b, s2) := Release no_meta cfg_off r false 0 s1 in
  r = Some 1%nat /\ b = false /\ lru_ (shard s2) = [2%nat; 1%nat].
Proof.
  pose proof (Lookup_then_Release_refreshes no_meta cfg_off "A" 1 None LOW true raw0 0 0
                state_AB 1 handle_A
                ltac:(reflexivity) ltac:(vm_compute; reflexivity)
                ltac:(vm_compute; reflexivity) ltac:(reflexivity) ltac:(reflexivity)
                ltac:(reflexivity) ltac:(compute_done) ltac:(compute_done)
                ltac:(vm_compute; reflexivity) ltac:(vm_compute; reflexivity)
                ltac:(vm_compute; discriminate)) as T.
  destruct (Lookup no_meta cfg_off "A" 1 None LOW true raw0 0 state_AB) as [[r s1] tr].
  destruct (Release no_meta cfg_off r false 0 s1) as [b s2].
  destruct T as (T1 & _ & _ & T2 & T3 & _).
  split; [exact T1|]. split; [exact T2|exact T3].
Defined.

Lemma CBHT_Insert_capacity_witness :
  let t := cbhtable_ (shard state_on_K) in
  0 <= cb_elems_ (CBHT_Insert cfg_on (heap state_on_K) t 1 0).1.2 <= 2 ^ (3 - 1).
Proof.
  apply (CBHT_Insert_capacity cfg_on (heap state_on_K) (cbhtable_ (shard state_on_K)) 1 0
           ltac:(vm_compute; split; discriminate)
           ltac:(vm_compute; split; discriminate)).
Defined.

(** X21 on the full table [aux_tiny]: "K" is unreferenced, its row sums to
    0, so EvictFIFO cannot evict it and a further Insert is refused. *)
Lemma CBHT_Insert_refused_witness :
  let '(hp', t', r) := CBHT_Insert cfg_tiny aux_tiny.1 aux_tiny.2 1 0 in
  r = Some 1%nat /\ hp' = aux_tiny.1 /\ cb_list_ t' = cb_list_ aux_tiny.2.
Proof.
  pose proof (CBHT_Insert_refused cfg_tiny aux_tiny.1 aux_tiny.2 1 0
                ltac:(vm_compute; reflexivity) ltac:(vm_compute; reflexivity)) as T.
  destruct (CBHT_Insert cfg_tiny aux_tiny.1 aux_tiny.2 1 0) as [[hp' t'] r].
  destruct T as (T1 & T2 & T3 & _). by split_and!.
Defined.

(** X22 on [state_pinned]: the forced Release of the only handle of "A"
    frees the entry and brings usage from 40 to 0. *)
Lemma Release_last_reference_witness :
  let '(b, s') := Release no_meta cfg_off (Some 1%nat) true 0 state_pinned in
  b = true /\ heap s' !! 1%nat = None /\ freed s' = [mkFree 1%nat "A" 11] /\
  usage_ (shard s') = 0.
Proof.
  pose proof (Release_last_reference no_meta cfg_off 1 true 0 state_pinned (Ref handle_A)
                ltac:(vm_compute; reflexivity) ltac:(reflexivity) ltac:(reflexivity)
                ltac:(reflexivity) ltac:(vm_compute; reflexivity)
                ltac:(vm_compute; reflexivity)) as T.
  destruct (Release no_meta cfg_off (Some 1%nat) true 0 state_pinned) as [b s'].
  rewrite orb_true_r in T. destruct T as (T1 & _ & T2 & T3 & T4 & _).
  split; [exact T1|]. split; [exact T2|]. split; [exact T3|exact T4].
Defined.
